(** * CasNum: integer arithmetic by straightedge-and-compass constructions

    A shallow embedding of the geometric kernel ([Point], [Line], [Circle]),
    the construction toolbox ([cas_utils]) and the arithmetic layer
    ([CasNum]) of the Python sources, and the properties proved about them.

    Conventions of the embedding.
    - Coordinates are sympy expressions.  They are modelled by their exact
      value: a real, a non-real complex number, the complex infinity [zoo]
      or [nan].  sympy's structural [==] on simplified coordinates is
      modelled as equality of values, its simplifiers ([sqrtdenest],
      [radsimp], [my_simplify], [simplify]) as the identity on values, and
      [N(e, 1000)] as the exact value.
    - A Python exception is the [Raise] outcome of the [result] monad.
    - [while] loops take a [fuel] bound; running out of it is the outcome
      [OutOfFuel], which is not a Python exception.
    - [functools.lru_cache] memoises pure functions and is transparent.
    - The viewer hooks only enqueue drawing commands (every failure inside
      them is caught there) and are left out. *)

From Stdlib Require Import Reals Lra Lia Psatz ZArith List String Bool.
Import ListNotations.
Open Scope R_scope.

(** ** The exact-algebra substrate *)

Inductive sym : Type :=
| Re (r : R)            (* a real number *)
| Cx (re im : R)        (* re + im*I, kept only with im <> 0 *)
| Zoo                   (* sympy's complex infinity *)
| NaN.

Coercion Re : R >-> sym.

Definition Rltb (a b : R) : bool := if Rlt_dec a b then true else false.
Definition Rleb (a b : R) : bool := if Rle_dec a b then true else false.
Definition Reqb (a b : R) : bool := if Req_dec_T a b then true else false.

(** Normal form of re + im*I. *)
Definition cx (re im : R) : sym := if Req_dec_T im 0 then Re re else Cx re im.

Definition sym_neg (a : sym) : sym :=
  match a with
  | Re x => Re (- x)
  | Cx a b => Cx (- a) (- b)
  | Zoo => Zoo
  | NaN => NaN
  end.

Definition sym_add (a b : sym) : sym :=
  match a, b with
  | Re x, Re y => Re (x + y)
  | Re x, Cx c d => cx (x + c) d
  | Cx a b, Re y => cx (a + y) b
  | Cx a b, Cx c d => cx (a + c) (b + d)
  | NaN, _ | _, NaN => NaN
  | Zoo, Zoo => NaN
  | Zoo, _ | _, Zoo => Zoo
  end.

Definition sym_sub (a b : sym) : sym :=
  match a, b with
  | Re x, Re y => Re (x - y)
  | _, _ => sym_add a (sym_neg b)
  end.

Definition sym_mul (a b : sym) : sym :=
  match a, b with
  | Re x, Re y => Re (x * y)
  | Re x, Cx c d => cx (x * c) (x * d)
  | Cx a b, Re y => cx (a * y) (b * y)
  | Cx a b, Cx c d => cx (a * c - b * d) (a * d + b * c)
  | NaN, _ | _, NaN => NaN
  | Zoo, Re y => if Req_dec_T y 0 then NaN else Zoo
  | Re x, Zoo => if Req_dec_T x 0 then NaN else Zoo
  | Zoo, _ | _, Zoo => Zoo
  end.

(** [x**-1]: a finite non-zero value over zero is [zoo]. *)
Definition sym_inv (a : sym) : sym :=
  match a with
  | Re x => if Req_dec_T x 0 then Zoo else Re (/ x)
  | Cx a b => cx (a / (a * a + b * b)) (- b / (a * a + b * b))
  | Zoo => Re 0
  | NaN => NaN
  end.

Definition sym_div (a b : sym) : sym :=
  match a, b with
  | Re x, Re y =>
      if Req_dec_T y 0 then (if Req_dec_T x 0 then NaN else Zoo) else Re (x / y)
  | _, _ => sym_mul a (sym_inv b)
  end.

Definition sym_pow2 (a : sym) : sym := sym_mul a a.

(** Principal square root; the root of a negative real is imaginary. *)
Definition sym_sqrt (a : sym) : sym :=
  match a with
  | Re x => if Rle_dec 0 x then Re (sqrt x) else Cx 0 (sqrt (- x))
  | Cx a b =>
      let m := sqrt (a * a + b * b) in
      Cx (sqrt ((m + a) / 2))
         ((if Rlt_dec b 0 then -1 else 1) * sqrt ((m - a) / 2))
  | Zoo => Zoo
  | NaN => NaN
  end.

(** [Abs]/[abs].  sympy's [Abs(zoo)] is the real infinity, which this
    fragment does not carry; it can only arise from a point that already has
    an infinite coordinate, and [NaN] stands for it. *)
Definition sym_abs (a : sym) : sym :=
  match a with
  | Re x => Re (Rabs x)
  | Cx a b => Re (sqrt (a * a + b * b))
  | Zoo => NaN
  | NaN => NaN
  end.

(** [==] *)
Definition sym_eqb (a b : sym) : bool :=
  match a, b with
  | Re x, Re y => Reqb x y
  | Cx a b, Cx c d => Reqb a c && Reqb b d
  | Zoo, Zoo => true
  | NaN, NaN => true
  | _, _ => false
  end.

Declare Scope sym_scope.
Delimit Scope sym_scope with sym.
Bind Scope sym_scope with sym.
Infix "+" := sym_add : sym_scope.
Infix "-" := sym_sub : sym_scope.
Infix "*" := sym_mul : sym_scope.
Infix "/" := sym_div : sym_scope.
Notation "- x" := (sym_neg x) : sym_scope.
Infix "==" := sym_eqb (at level 70, no associativity) : sym_scope.

(** ** Outcomes of a call *)

Inductive exn : Type :=
| ValueError (msg : string)
| TypeError (msg : string)
| NameError (name : string)
| UnboundLocalError (name : string).

Inductive result (T : Type) : Type :=
| Ok (v : T)
| Raise (e : exn)
| OutOfFuel.

Arguments Ok {T} v.
Arguments Raise {T} e.
Arguments OutOfFuel {T}.

Definition bind {T U : Type} (m : result T) (k : T -> result U) : result U :=
  match m with
  | Ok v => k v
  | Raise e => Raise e
  | OutOfFuel => OutOfFuel
  end.

Notation "x <- m ;; k" := (bind m (fun x => k))
  (at level 61, m at next level, right associativity).
Notation "' pat <- m ;; k" := (bind m (fun x => let pat := x in k))
  (at level 61, pat pattern, m at next level, right associativity).

(** [<] on sympy numbers: only two reals compare; anything else raises. *)
Definition sym_lt (a b : sym) : result bool :=
  match a, b with
  | Re x, Re y => Ok (Rltb x y)
  | _, _ => Raise (TypeError "Invalid comparison of non-real value")
  end.

Definition sym_gt (a b : sym) : result bool := sym_lt b a.

(** [p1, p2 = seq] *)
Definition unpack2 {T : Type} (l : list T) : result (T * T) :=
  match l with
  | [a; b] => Ok (a, b)
  | [] | [_] => Raise (ValueError "not enough values to unpack (expected 2)")
  | _ => Raise (ValueError "too many values to unpack (expected 2)")
  end.

(** [f( *seq )] for a two-argument constructor *)
Definition star2 {T : Type} (l : list T) : result (T * T) :=
  match l with
  | [a; b] => Ok (a, b)
  | _ => Raise (TypeError "wrong number of positional arguments")
  end.

(** ** sympy_utils.py *)

(** The default tolerance [tol=1e-20] of [are_expressions_approx_equal]. *)
Definition tol : R := / 10 ^ 20.

Definition are_expressions_approx_equal (expr1 expr2 : sym) : result bool :=
  sym_lt (sym_abs (expr1 - expr2)%sym) (Re tol).

(** ** point.py *)

Module Point.

Record t : Type := mk { x : sym; y : sym }.

(** [Point(x, y)]: the coordinates are stored simplified. *)
Definition init (x y : sym) : t := mk x y.

Definition isEqual (self p : t) : bool :=
  (x self == x p)%sym && (y self == y p)%sym.

Definition dist (p1 p2 : t) : sym :=
  sym_sqrt (sym_pow2 (x p1 - x p2) + sym_pow2 (y p1 - y p2))%sym.

End Point.

(** ** line.py *)

Module Line.

(** Line in the format of Ax + By + C = 0 *)
Record t : Type := mk {
  p1 : Point.t; p2 : Point.t;
  A : sym; B : sym; C : sym;
  slope : sym; intercept : sym
}.

(** The names bound at module level in line.py: its imports and its class. *)
Definition module_globals : list string :=
  ["Abs"; "Matrix"; "sqrt"; "sympify"; "Point"; "my_simplify"; "viewer";
   "enable_graphics"; "Line"]%string.

(** Reading a global name that the module never bound raises [NameError]. *)
Definition load_global {T : Type} (name : string) (v : T) : result T :=
  if existsb (String.eqb name) module_globals then Ok v
  else Raise (NameError name).

Definition init (p1 p2 : Point.t) : result t :=
  let A := (Point.y p1 - Point.y p2)%sym in
  let B := (Point.x p2 - Point.x p1)%sym in
  if (A == 0)%sym && (B == 0)%sym then
    Raise (ValueError "Line Ax+By+C = 0 must have non-zero A or B")
  else
    let C := (Point.x p1 * Point.y p2 - Point.x p2 * Point.y p1)%sym in
    (* get_slope, get_intercept *)
    let slope := ((Point.y p2 - Point.y p1) / (Point.x p2 - Point.x p1))%sym in
    let intercept := (Point.y p1 - slope * Point.x p1)%sym in
    Ok (mk p1 p2 A B C slope intercept).

Definition at_ (self : t) (x : sym) : Point.t :=
  Point.init x (slope self * x + intercept self)%sym.

(** [__eq__] and [isEqual] *)
Definition eq (self l : t) : bool :=
  (slope self == slope l)%sym && (intercept self == intercept l)%sym.

Definition get_intersection (l1 l2 : t) : result Point.t :=
  let d := (A l1 * B l2 - B l1 * A l2)%sym in (* Determinant *)
  if (d == 0)%sym then
    zoo <- load_global "zoo" Zoo ;;
    Ok (Point.init zoo zoo)
  else
    let x := (sym_inv d * (B l2 * (- C l1) + B l1 * C l2))%sym in
    let y := (sym_inv d * (A l2 * C l1 - A l1 * C l2))%sym in
    Ok (Point.init x y).

Definition intersect (self l : t) : result Point.t := get_intersection self l.

Definition dist_from_point (self : t) (p : Point.t) : sym :=
  (sym_abs (A self * Point.x p + B self * Point.y p + C self)
   / sym_sqrt (sym_pow2 (A self) + sym_pow2 (B self)))%sym.

End Line.

(** ** circle.py *)

Module Circle.

Record t : Type := mk {
  center : Point.t; other_point : Point.t; radius : sym
}.

Definition init (center other_point : Point.t) : result t :=
  if Point.isEqual center other_point then
    Raise (ValueError "Circle must pass through a point different than it's origin")
  else Ok (mk center other_point (Point.dist center other_point)).

Definition get_circle (center : Point.t) (radius : sym) : result t :=
  init center (Point.init (Point.x center - radius)%sym (Point.y center)).

(** The two ordinates of the intersection, as the source writes them
    (a closed form of the quadratic in y). *)
Definition giant_y1 (cx1 cy1 cx2 cy2 r1 r2 : sym) : sym :=
  (cy1 - (4 * cx1 * cx1 * cy1 - 4 * cx1 * cx1 * cy2 - sym_sqrt (sym_pow2 ((-4 * cx1 * cx1 * cy1
    + 4 * cx1 * cx1 * cy2 + 8 * cx1 * cy1 * cx2 - 8 * cx1 * cx2 * cy2 - 4 * cy1 * cy1 * cy1 + 12
    * cy1 * cy1 * cy2 - 4 * cy1 * cx2 * cx2 - 12 * cy1 * cy2 * cy2 - 4 * cy1 * r1 * r1 + 4 * cy1
    * r2 * r2 + 4 * cx2 * cx2 * cy2 + 4 * cy2 * cy2 * cy2 + 4 * cy2 * r1 * r1 - 4 * cy2 * r2 *
    r2)) - 4 * (4 * cx1 * cx1 - 8 * cx1 * cx2 + 4 * cy1 * cy1 - 8 * cy1 * cy2 + 4 * cx2 * cx2 +
    4 * cy2 * cy2) * (cx1 * cx1 * cx1 * cx1 - 4 * cx1 * cx1 * cx1 * cx2 + 2 * cx1 * cx1 * cy1 *
    cy1 - 4 * cx1 * cx1 * cy1 * cy2 + 6 * cx1 * cx1 * cx2 * cx2 + 2 * cx1 * cx1 * cy2 * cy2 - 2
    * cx1 * cx1 * r1 * r1 - 2 * cx1 * cx1 * r2 * r2 - 4 * cx1 * cy1 * cy1 * cx2 + 8 * cx1 * cy1
    * cx2 * cy2 - 4 * cx1 * cx2 * cx2 * cx2 - 4 * cx1 * cx2 * cy2 * cy2 + 4 * cx1 * cx2 * r1 *
    r1 + 4 * cx1 * cx2 * r2 * r2 + cy1 * cy1 * cy1 * cy1 - 4 * cy1 * cy1 * cy1 * cy2 + 2 * cy1 *
    cy1 * cx2 * cx2 + 6 * cy1 * cy1 * cy2 * cy2 + 2 * cy1 * cy1 * r1 * r1 - 2 * cy1 * cy1 * r2 *
    r2 - 4 * cy1 * cx2 * cx2 * cy2 - 4 * cy1 * cy2 * cy2 * cy2 - 4 * cy1 * cy2 * r1 * r1 + 4 *
    cy1 * cy2 * r2 * r2 + cx2 * cx2 * cx2 * cx2 + 2 * cx2 * cx2 * cy2 * cy2 - 2 * cx2 * cx2 * r1
    * r1 - 2 * cx2 * cx2 * r2 * r2 + cy2 * cy2 * cy2 * cy2 + 2 * cy2 * cy2 * r1 * r1 - 2 * cy2 *
    cy2 * r2 * r2 + r1 * r1 * r1 * r1 - 2 * r1 * r1 * r2 * r2 + r2 * r2 * r2 * r2)) - 8 * cx1 *
    cy1 * cx2 + 8 * cx1 * cx2 * cy2 + 4 * cy1 * cy1 * cy1 - 12 * cy1 * cy1 * cy2 + 4 * cy1 * cx2
    * cx2 + 12 * cy1 * cy2 * cy2 + 4 * cy1 * r1 * r1 - 4 * cy1 * r2 * r2 - 4 * cx2 * cx2 * cy2 -
    4 * cy2 * cy2 * cy2 - 4 * cy2 * r1 * r1 + 4 * cy2 * r2 * r2) / (2 * (4 * cx1 * cx1 - 8 * cx1
    * cx2 + 4 * cy1 * cy1 - 8 * cy1 * cy2 + 4 * cx2 * cx2 + 4 * cy2 * cy2)))%sym.

Definition giant_y2 (cx1 cy1 cx2 cy2 r1 r2 : sym) : sym :=
  (cy1 - ((4 * cx1 * cx1 * cy1 - 4 * cx1 * cx1 * cy2 + sym_sqrt (sym_pow2 ((-4 * cx1 * cx1 *
    cy1 + 4 * cx1 * cx1 * cy2 + 8 * cx1 * cy1 * cx2 - 8 * cx1 * cx2 * cy2 - 4 * cy1 * cy1 * cy1
    + 12 * cy1 * cy1 * cy2 - 4 * cy1 * cx2 * cx2 - 12 * cy1 * cy2 * cy2 - 4 * cy1 * r1 * r1 + 4
    * cy1 * r2 * r2 + 4 * cx2 * cx2 * cy2 + 4 * cy2 * cy2 * cy2 + 4 * cy2 * r1 * r1 - 4 * cy2 *
    r2 * r2)) - 4 * (4 * cx1 * cx1 - 8 * cx1 * cx2 + 4 * cy1 * cy1 - 8 * cy1 * cy2 + 4 * cx2 *
    cx2 + 4 * cy2 * cy2) * (cx1 * cx1 * cx1 * cx1 - 4 * cx1 * cx1 * cx1 * cx2 + 2 * cx1 * cx1 *
    cy1 * cy1 - 4 * cx1 * cx1 * cy1 * cy2 + 6 * cx1 * cx1 * cx2 * cx2 + 2 * cx1 * cx1 * cy2 *
    cy2 - 2 * cx1 * cx1 * r1 * r1 - 2 * cx1 * cx1 * r2 * r2 - 4 * cx1 * cy1 * cy1 * cx2 + 8 *
    cx1 * cy1 * cx2 * cy2 - 4 * cx1 * cx2 * cx2 * cx2 - 4 * cx1 * cx2 * cy2 * cy2 + 4 * cx1 *
    cx2 * r1 * r1 + 4 * cx1 * cx2 * r2 * r2 + cy1 * cy1 * cy1 * cy1 - 4 * cy1 * cy1 * cy1 * cy2
    + 2 * cy1 * cy1 * cx2 * cx2 + 6 * cy1 * cy1 * cy2 * cy2 + 2 * cy1 * cy1 * r1 * r1 - 2 * cy1
    * cy1 * r2 * r2 - 4 * cy1 * cx2 * cx2 * cy2 - 4 * cy1 * cy2 * cy2 * cy2 - 4 * cy1 * cy2 * r1
    * r1 + 4 * cy1 * cy2 * r2 * r2 + cx2 * cx2 * cx2 * cx2 + 2 * cx2 * cx2 * cy2 * cy2 - 2 * cx2
    * cx2 * r1 * r1 - 2 * cx2 * cx2 * r2 * r2 + cy2 * cy2 * cy2 * cy2 + 2 * cy2 * cy2 * r1 * r1
    - 2 * cy2 * cy2 * r2 * r2 + r1 * r1 * r1 * r1 - 2 * r1 * r1 * r2 * r2 + r2 * r2 * r2 * r2)))
    - 8 * cx1 * cy1 * cx2 + 8 * cx1 * cx2 * cy2 + 4 * cy1 * cy1 * cy1 - 12 * cy1 * cy1 * cy2 + 4
    * cy1 * cx2 * cx2 + 12 * cy1 * cy2 * cy2 + 4 * cy1 * r1 * r1 - 4 * cy1 * r2 * r2 - 4 * cx2 *
    cx2 * cy2 - 4 * cy2 * cy2 * cy2 - 4 * cy2 * r1 * r1 + 4 * cy2 * r2 * r2) / (2 * (4 * cx1 *
    cx1 - 8 * cx1 * cx2 + 4 * cy1 * cy1 - 8 * cy1 * cy2 + 4 * cx2 * cx2 + 4 * cy2 * cy2)))%sym.

(** The inner [for cur_x2 in possible_xs2: if approx_equal: ...; break]. *)
Fixpoint match_any (cur_x1 : sym) (possible_xs2 : list sym) : result bool :=
  match possible_xs2 with
  | [] => Ok false
  | cur_x2 :: rest =>
      b <- are_expressions_approx_equal cur_x1 cur_x2 ;;
      if b then Ok true else match_any cur_x1 rest
  end.

(** The outer [for cur_x1 in possible_xs1]: the last candidate of the
    first circle that some candidate of the second one matches is kept;
    [None] is the variable left unbound. *)
Fixpoint select_x (possible_xs1 possible_xs2 : list sym) (x : option sym)
  : result (option sym) :=
  match possible_xs1 with
  | [] => Ok x
  | cur_x1 :: rest =>
      b <- match_any cur_x1 possible_xs2 ;;
      select_x rest possible_xs2 (if b then Some cur_x1 else x)
  end.

Definition load_local (name : string) (x : option sym) : result sym :=
  match x with
  | Some v => Ok v
  | None => Raise (UnboundLocalError name)
  end.

Definition get_intersection (c1 c2 : t) : result (list Point.t) :=
  let cx1 := Point.x (center c1) in
  let cy1 := Point.y (center c1) in
  let cx2 := Point.x (center c2) in
  let cy2 := Point.y (center c2) in
  let r1 := radius c1 in
  let r2 := radius c2 in
  (* TODO (source): Take care of the case of containment of one another *)
  two_points <- sym_lt (Point.dist (center c1) (center c2)) (r1 + r2)%sym ;;
  if two_points then
    let y1 := giant_y1 cx1 cy1 cx2 cy2 r1 r2 in
    let y2 := giant_y2 cx1 cy1 cx2 cy2 r1 r2 in
    let temp1 := sym_sqrt (sym_pow2 r1 - sym_pow2 (y1 - cy1))%sym in
    let possible_xs1 := [(cx1 + temp1)%sym; (cx1 - temp1)%sym] in
    same_y <- are_expressions_approx_equal y1 y2 ;;
    if same_y then
      Ok [Point.init (nth 0 possible_xs1 NaN) y1;
          Point.init (nth 1 possible_xs1 NaN) y2]
    else
      let temp2 := sym_sqrt (sym_pow2 r2 - sym_pow2 (y1 - cy2))%sym in
      let possible_xs2 := [(cx2 + temp2)%sym; (cx2 - temp2)%sym] in
      x1 <- select_x possible_xs1 possible_xs2 None ;;
      let temp1 := sym_sqrt (sym_pow2 r1 - sym_pow2 (y2 - cy1))%sym in
      let temp2 := sym_sqrt (sym_pow2 r2 - sym_pow2 (y2 - cy2))%sym in
      let possible_xs1 := [(cx1 + temp1)%sym; (cx1 - temp1)%sym] in
      let possible_xs2 := [(cx2 + temp2)%sym; (cx2 - temp2)%sym] in
      x2 <- select_x possible_xs1 possible_xs2 None ;;
      x1 <- load_local "x1" x1 ;;
      x2 <- load_local "x2" x2 ;;
      Ok [Point.init x1 y1; Point.init x2 y2]
  else if ((Point.dist (center c1) (center c2) - (r1 + r2)) == 0)%sym then
    (* In this case, there will be one intersection point *)
    center_line <- Line.init (center c1) (center c2) ;;
    let delta_x :=
      sym_sqrt (sym_pow2 r1 / (1 + sym_pow2 (Line.slope center_line)))%sym in
    left <- sym_lt cx1 cx2 ;;
    let x := if left then (cx1 + delta_x)%sym else (cx1 - delta_x)%sym in
    Ok [Line.at_ center_line x]
  else Ok [].

Definition intersect (self c : t) : result (list Point.t) :=
  get_intersection self c.

(** The radicand and the two roots of the slope-intercept form. *)
Definition line_root (sign : sym) (cx cy r m k : sym) : sym :=
  ((sign * sym_sqrt (- sym_pow2 cx * sym_pow2 m + 2 * cy * (cx * m + k)
                     - 2 * cx * k * m - sym_pow2 cy - sym_pow2 k
                     + sym_pow2 (m * r) + sym_pow2 r)
    + cx + cy * m - k * m) / (sym_pow2 m + 1))%sym.

Definition intersect_with_line (self : t) (l : Line.t)
  : result (list Point.t) :=
  let cx := Point.x (center self) in
  let cy := Point.y (center self) in
  let d := Line.dist_from_point l (center self) in
  two_points <- sym_lt d (radius self) ;;
  if two_points then
    (* In this case, there will be two intersection points *)
    if (Line.A l == 0)%sym then
      let y := (- Line.C l / Line.B l)%sym in
      let xs := sym_sqrt (sym_pow2 (radius self) - sym_pow2 (y - cy))%sym in
      Ok [Point.init (cx + xs)%sym y; Point.init (cx - xs)%sym y]
    else if (Line.B l == 0)%sym then
      let x := (- Line.C l / Line.A l)%sym in
      let ys := sym_sqrt (sym_pow2 (radius self) - sym_pow2 (x - cx))%sym in
      Ok [Point.init x (cy + ys)%sym; Point.init x (cy - ys)%sym]
    else
      let x1 := line_root (-1) cx cy (radius self)
                  (Line.slope l) (Line.intercept l) in
      let x2 := line_root 1 cx cy (radius self)
                  (Line.slope l) (Line.intercept l) in
      Ok [Line.at_ l x1; Line.at_ l x2]
  else if ((d - radius self) == 0)%sym then
    (* In this case, there will be one intersection point *)
    if (Line.A l == 0)%sym then
      let y := (- Line.C l / Line.B l)%sym in
      Ok [Point.init cx y]
    else if (Line.B l == 0)%sym then
      let x := (- Line.C l / Line.A l)%sym in
      Ok [Point.init x cy]
    else
      let x := line_root (-1) cx cy (radius self)
                 (Line.slope l) (Line.intercept l) in
      Ok [Line.at_ l x]
  else Ok [].

(** [__eq__] and [isEqual] *)
Definition eq (self other : t) : bool :=
  Point.isEqual (center self) (center other)
  && (radius self == radius other)%sym.

End Circle.

(** ** cas_utils.py *)

Module cas_utils.

Definition get_perpendicular_bisector (l : Line.t) : result Line.t :=
  c1 <- Circle.init (Line.p1 l) (Line.p2 l) ;;
  c2 <- Circle.init (Line.p2 l) (Line.p1 l) ;;
  pts <- Circle.intersect c1 c2 ;;
  '(a, b) <- star2 pts ;;
  Line.init a b.

Definition get_midpoint (l : Line.t) : result Point.t :=
  l_perp <- get_perpendicular_bisector l ;;
  Line.intersect l l_perp.

Fixpoint generate_n_loop (k : nat) (l : Line.t) (p_cur p_prev : Point.t)
  : result Point.t :=
  match k with
  | O => Ok p_prev
  | S k' =>
      c <- Circle.init p_cur p_prev ;;
      pts <- Circle.intersect_with_line c l ;;
      '(p1, p2) <- unpack2 pts ;;
      if Point.isEqual p_prev p1 then generate_n_loop k' l p2 p_cur
      else generate_n_loop k' l p1 p_cur
  end.

Definition generate_n (n : Z) (origin unit : Point.t) : result Point.t :=
  l <- Line.init origin unit ;;
  generate_n_loop (Z.to_nat n) l unit origin.

Definition get_perpendicular_to_line_through_point (p : Point.t) (l : Line.t)
  : result Line.t :=
  off_line <- sym_gt (Line.dist_from_point l p) 0 ;;
  if off_line then
    c <- Circle.init p (Line.p1 l) ;;
    inter <- Circle.intersect_with_line c l ;;
    inter <- (if (List.length inter <? 2)%nat then
                c <- Circle.init p (Line.p2 l) ;;
                Circle.intersect_with_line c l
              else Ok inter) ;;
    '(p1, p2) <- unpack2 inter ;;
    c1 <- Circle.init p1 p ;;
    c2 <- Circle.init p2 p ;;
    pts <- Circle.intersect c1 c2 ;;
    '(p1, p2) <- unpack2 pts ;;
    Line.init p1 p2
  else
    c <- (if Point.isEqual p (Line.p1 l) then Circle.init p (Line.p2 l)
          else Circle.init p (Line.p1 l)) ;;
    pts <- Circle.intersect_with_line c l ;;
    '(p1, p2) <- unpack2 pts ;;
    s1 <- Line.init p p1 ;;
    l1 <- get_perpendicular_bisector s1 ;;
    s2 <- Line.init p p2 ;;
    l2 <- get_perpendicular_bisector s2 ;;
    pts1 <- Circle.intersect_with_line c l1 ;;
    '(p11, p12) <- unpack2 pts1 ;;
    pts2 <- Circle.intersect_with_line c l2 ;;
    '(p21, p22) <- unpack2 pts2 ;;
    near <- sym_lt (Point.dist p11 p21) (Point.dist p11 p22) ;;
    if near then
      s <- Line.init p11 p21 ;;
      get_perpendicular_bisector s
    else
      s <- Line.init p12 p22 ;;
      get_perpendicular_bisector s.

Definition get_parallel_to_line_through_point (p : Point.t) (l : Line.t)
  : result Line.t :=
  l_perp <- get_perpendicular_to_line_through_point p l ;;
  p_tag <- Line.intersect l l_perp ;;
  c <- Circle.init p p_tag ;;
  pts <- Circle.intersect_with_line c l_perp ;;
  '(a, b) <- star2 pts ;;
  chord <- Line.init a b ;;
  get_perpendicular_bisector chord.

Definition get_y_axis (origin unit : Point.t) : result Line.t :=
  l <- Line.init origin unit ;;
  get_perpendicular_to_line_through_point origin l.

Definition mirror_point (p : Point.t) (l : Line.t) : result Point.t :=
  l_perp <- get_perpendicular_to_line_through_point p l ;;
  a <- Line.intersect l l_perp ;;
  c <- Circle.init a p ;;
  pts <- Circle.intersect_with_line c l_perp ;;
  '(p1, p2) <- unpack2 pts ;;
  if Point.isEqual p1 p then Ok p2 else Ok p1.

Definition mirror_point_on_x_axis (p origin : Point.t) : result Point.t :=
  if Point.isEqual p origin then Ok origin
  else
    c <- Circle.init origin p ;;
    l <- Line.init origin p ;;
    pts <- Circle.intersect_with_line c l ;;
    '(p1, p2) <- unpack2 pts ;;
    Ok (if Point.isEqual p2 p then p1 else p2).

Definition double_point_on_x_axis (origin p : Point.t) : result Point.t :=
  if Point.isEqual p origin then Ok origin
  else
    c <- Circle.init p origin ;;
    l <- Line.init origin p ;;
    pts <- Circle.intersect_with_line c l ;;
    '(p1, p2) <- unpack2 pts ;;
    Ok (if Point.isEqual p2 origin then p1 else p2).

Definition half_point_on_x_axis (origin p : Point.t) : result Point.t :=
  if Point.isEqual p origin then Ok origin
  else
    l <- Line.init origin p ;;
    get_midpoint l.

End cas_utils.

(** ** casnum.py *)

Module CasNum.

Import cas_utils.

Record t : Type := mk { p : Point.t }.

(** Module-level constants.  They are evaluated once, when the module is
    imported; a function that reads one binds on its outcome. *)
Definition origin : Point.t := Point.init 0 0.
Definition unit : Point.t := Point.init 1 0.
Definition x_axis : result Line.t := Line.init origin unit.
Definition y_axis : result Line.t := get_y_axis origin unit.
Definition ALLOW_CONSTRUCT_CIRCLE_FROM_CENTER_AND_RADIUS : bool := true.
Definition zero : t := mk origin.
Definition one : t := mk unit.

Definition isEqual (self other : t) : bool := Point.isEqual (p self) (p other).

(** [__gt__], [__lt__], [__ge__], [__le__], [__eq__], [__ne__] *)
Definition gt (self other : t) : result bool :=
  sym_gt (Point.x (p self)) (Point.x (p other)).
Definition lt (self other : t) : result bool := gt other self.
Definition ge (self other : t) : result bool :=
  g <- gt self other ;;
  if g then Ok true else Ok (isEqual self other).
Definition le (self other : t) : result bool := ge other self.
Definition eq (self other : t) : bool := Point.isEqual (p self) (p other).
Definition ne (self other : t) : bool := negb (eq self other).

Definition from_num (n : Z) : result t :=
  if (n >? 0)%Z then
    q <- generate_n n origin unit ;;
    Ok (mk q)
  else Ok (mk (Point.init 0 0)).

Definition copy (a : t) : t := mk (p a).

Definition mul2 (a : t) : result t :=
  q <- double_point_on_x_axis origin (p a) ;;
  Ok (mk q).

(** [__neg__] *)
Definition neg (self : t) : result t :=
  q <- mirror_point_on_x_axis (p self) origin ;;
  Ok (mk q).

(** [__add__] *)
Definition add (self other : t) : result t :=
  if eq self zero then Ok (copy other)
  else if eq other zero then Ok (copy self)
  else if eq self other then mul2 self
  else if ALLOW_CONSTRUCT_CIRCLE_FROM_CENTER_AND_RADIUS then
    c <- Circle.get_circle (p self) (Point.dist origin (p other)) ;;
    xa <- x_axis ;;
    pts <- Circle.intersect_with_line c xa ;;
    '(p1, p2) <- unpack2 pts ;;
    pos <- gt other zero ;;
    if pos then
      b <- sym_gt (Point.x p1) (Point.x p2) ;;
      Ok (mk (if b then p1 else p2))
    else
      b <- sym_lt (Point.x p1) (Point.x p2) ;;
      Ok (mk (if b then p1 else p2))
  else
    s <- Line.init (p self) (p other) ;;
    midpoint <- get_midpoint s ;;
    if Point.isEqual midpoint origin then Ok (copy zero)
    else
      q <- double_point_on_x_axis origin midpoint ;;
      Ok (mk q).

(** [__sub__] *)
Definition sub (self other : t) : result t :=
  if isEqual self other then Ok (copy zero)
  else
    n <- neg other ;;
    add self n.

Definition abs (a : t) : result t :=
  b <- lt a zero ;;
  if b then neg a else Ok a.

Section Loops.

(** Bound on the iterations of each [while] loop. *)
Variable fuel : nat.

Fixpoint double_until_gt_loop (k : nat) (a to_rem : t) (strict : bool)
  : result t :=
  match k with
  | O => OutOfFuel
  | S k' =>
      g <- gt a to_rem ;;
      if g || (negb strict && eq a to_rem) then
        to_rem <- mul2 to_rem ;;
        double_until_gt_loop k' a to_rem strict
      else Ok to_rem
  end.

Definition double_until_gt (a b : t) (strict : bool) : result t :=
  double_until_gt_loop fuel a (copy b) strict.

Fixpoint mod_loop (k : nat) (remainder abs_b : t) : result t :=
  match k with
  | O => OutOfFuel
  | S k' =>
      r <- abs remainder ;;
      c <- ge r abs_b ;;
      if c then
        r <- abs remainder ;;
        to_rem <- double_until_gt r abs_b true ;;
        pos <- gt remainder zero ;;
        remainder <- (if pos then sub remainder to_rem
                      else add remainder to_rem) ;;
        mod_loop k' remainder abs_b
      else Ok remainder
  end.

(** [__mod__]: the result has the same signedness as the modulus. *)
Definition mod_ (self other : t) : result t :=
  if isEqual other zero then Raise (ValueError "Cannot taking modulo by zero")
  else
    let remainder := copy self in
    abs_b <- abs other ;;
    remainder <- mod_loop fuel remainder abs_b ;;
    b_neg <- lt other zero ;;
    r_pos <- (if b_neg then gt remainder zero else Ok false) ;;
    if b_neg && r_pos then sub remainder abs_b
    else
      b_pos <- gt other zero ;;
      r_neg <- (if b_pos then lt remainder zero else Ok false) ;;
      if b_pos && r_neg then add remainder abs_b
      else Ok remainder.

(** [__truediv__] *)
Definition truediv (self other : t) : result t :=
  if isEqual other zero then Raise (ValueError "Cannot divide by zero")
  else
    (* First, take care of signedness *)
    let a_cpy := copy self in
    let b_cpy := copy other in
    a_neg <- lt a_cpy zero ;;
    a_cpy <- (if a_neg then neg a_cpy else Ok a_cpy) ;;
    b_neg <- lt b_cpy zero ;;
    b_cpy <- (if b_neg then neg b_cpy else Ok b_cpy) ;;
    (* Take care of zero *)
    if eq a_cpy zero then Ok (copy zero)
    else if eq b_cpy zero then Ok (copy zero)
    else
      (* Now, the actual division algorithm *)
      neg_unit <- mirror_point_on_x_axis unit origin ;;
      c <- Circle.init origin (p a_cpy) ;;
      ya <- y_axis ;;
      pts <- Circle.intersect_with_line c ya ;;
      '(p1, p2) <- unpack2 pts ;;
      up <- sym_gt (Point.y p1) (Point.y p2) ;;
      let q := if up then p1 else p2 in
      s <- Line.init q (p b_cpy) ;;
      l <- get_parallel_to_line_through_point neg_unit s ;;
      p_div <- Line.intersect ya l ;;
      c <- Circle.init origin p_div ;;
      xa <- x_axis ;;
      pts <- Circle.intersect_with_line c xa ;;
      '(p1, p2) <- unpack2 pts ;;
      right <- sym_gt (Point.x p1) 0 ;;
      let ret := if right then mk p1 else mk p2 in
      (* Finish taking care of signedness *)
      s_neg <- lt self zero ;;
      ret <- (if s_neg then neg ret else Ok ret) ;;
      o_neg <- lt other zero ;;
      if o_neg then neg ret else Ok ret.

(** [__mul__] *)
Definition mul (self other : t) : result t :=
  if isEqual other one then Ok self
  else if isEqual self one then Ok other
  else
    (* First, take care of signedness *)
    let a_cpy := copy self in
    let b_cpy := copy other in
    a_neg <- lt a_cpy zero ;;
    a_cpy <- (if a_neg then neg a_cpy else Ok a_cpy) ;;
    b_neg <- lt b_cpy zero ;;
    b_cpy <- (if b_neg then neg b_cpy else Ok b_cpy) ;;
    (* Take care of zero *)
    if isEqual a_cpy zero then Ok (copy zero)
    else if isEqual b_cpy zero then Ok (copy zero)
    else
      (* Now, actual algorithm *)
      ya <- y_axis ;;
      neg_unit <- mirror_point unit ya ;;
      c <- Circle.init origin (p a_cpy) ;;
      pts <- Circle.intersect_with_line c ya ;;
      '(p1, p2) <- unpack2 pts ;;
      up <- sym_gt (Point.y p1) (Point.y p2) ;;
      (* positive self, shifted to the y-axis *)
      let q := if up then p1 else p2 in
      s <- Line.init q neg_unit ;;
      l <- get_parallel_to_line_through_point (p b_cpy) s ;;
      p_mul <- Line.intersect ya l ;;
      c <- Circle.init origin p_mul ;;
      xa <- x_axis ;;
      pts <- Circle.intersect_with_line c xa ;;
      '(p1, p2) <- unpack2 pts ;;
      right <- sym_gt (Point.x p1) 0 ;;
      let ret := if right then mk p1 else mk p2 in
      (* Finish taking care of signedness *)
      s_neg <- lt self zero ;;
      ret <- (if s_neg then neg ret else Ok ret) ;;
      o_neg <- lt other zero ;;
      if o_neg then neg ret else Ok ret.

(** [__floordiv__]: conforms to Python's division (as opposed to C's
    round-towards-zero), since it works nicely with modulo. *)
Definition floordiv (self other : t) : result t :=
  temp <- mod_ self other ;;
  temp <- sub self temp ;;
  truediv temp other.

Definition floor (a : t) : result t := floordiv a one.

Fixpoint pow_loop (k : nat) (self cpy_a cpy_b : t) : result t :=
  match k with
  | O => OutOfFuel
  | S k' =>
      more <- gt cpy_b zero ;;
      if more then
        cpy_a <- mul cpy_a self ;;
        cpy_b <- sub cpy_b one ;;
        pow_loop k' self cpy_a cpy_b
      else Ok cpy_a
  end.

(** [__pow__] *)
Definition pow (self other : t) : result t :=
  o_neg <- lt other zero ;;
  if o_neg then Raise (ValueError "Power must be non-negative")
  else
    f <- floor other ;;
    if ne f other then
      Raise (ValueError "Current implementation requires other to be an integer")
    else if eq other zero then Ok one
    else
      let cpy_a := copy self in
      cpy_b <- sub other one ;;
      pow_loop fuel self cpy_a cpy_b.

(** The binary digits of [abs n], least significant first: [bin(n)[2:][::-1]]. *)
Fixpoint pos_bits (q : positive) : list bool :=
  match q with
  | xH => [true]
  | xO q' => false :: pos_bits q'
  | xI q' => true :: pos_bits q'
  end.

Definition bin_rev (n : Z) : list bool :=
  match n with
  | Z0 => [false]
  | Zpos q | Zneg q => pos_bits q
  end.

Fixpoint get_n_loop (bits : list bool) (ret cur : t) : result t :=
  match bits with
  | [] => Ok ret
  | b :: rest =>
      ret <- (if b then add ret cur else Ok ret) ;;
      cur <- mul2 cur ;;
      get_n_loop rest ret cur
  end.

Definition get_n (n : Z) : result t :=
  let invert := (n <? 0)%Z in
  ret <- get_n_loop (bin_rev n) (copy zero) (mk unit) ;;
  if invert then neg ret else Ok ret.

Fixpoint rshift_loop (k : nat) (two cpy_a : t) : result t :=
  match k with
  | O => Ok cpy_a
  | S k' =>
      r <- mod_ cpy_a two ;;
      cpy_a <- (if isEqual r zero then Ok cpy_a else sub cpy_a one) ;;
      h <- half_point_on_x_axis origin (p cpy_a) ;;
      rshift_loop k' two (mk h)
  end.

(** [__rshift__]: assumes that self is an integer. *)
Definition rshift (self : t) (i : Z) : result t :=
  let cpy_a := copy self in
  two <- get_n 2 ;;
  rshift_loop (Z.to_nat i) two cpy_a.

Fixpoint lshift_loop (k : nat) (cpy_a : t) : result t :=
  match k with
  | O => Ok cpy_a
  | S k' =>
      cpy_a <- mul2 cpy_a ;;
      lshift_loop k' cpy_a
  end.

(** [__lshift__] *)
Definition lshift (self : t) (i : Z) : result t :=
  lshift_loop (Z.to_nat i) (copy self).

Fixpoint pow_mod_loop (k : nat) (n two res base b_cpy : t) : result t :=
  match k with
  | O => OutOfFuel
  | S k' =>
      more <- gt b_cpy zero ;;
      if more then
        bit <- mod_ b_cpy two ;;
        res <- (if isEqual bit one then
                     res <- mul res base ;;
                     big <- gt res n ;;
                     if big then mod_ res n else Ok res
                   else Ok res) ;;
        base <- mul base base ;;
        big <- gt base n ;;
        base <- (if big then mod_ base n else Ok base) ;;
        b_cpy <- rshift b_cpy 1 ;;
        pow_mod_loop k' n two res base b_cpy
      else Ok res
  end.

(** [pow_mod]: using square and multiply. *)
Definition pow_mod (a b n : t) : result t :=
  let res := one in
  let base := a in
  let b_cpy := copy b in
  two <- add one one ;;
  pow_mod_loop fuel n two res base b_cpy.

Fixpoint gcd_loop (k : nat) (cpy_a cpy_b : t) : result t :=
  match k with
  | O => OutOfFuel
  | S k' =>
      if negb (isEqual cpy_b zero) then
        temp <- mod_ cpy_a cpy_b ;;
        gcd_loop k' cpy_b temp
      else abs cpy_a
  end.

Definition gcd (a b : t) : result t := gcd_loop fuel (copy a) (copy b).

(** [inv_mod]: the extended Euclidean algorithm on [(n, i)].  The loop
    returns the pair [(d, temp_n)] it ends with; the function returns
    [d % n] when [temp_n == one] and falls off its end ([None])
    otherwise. *)
Fixpoint inv_mod_loop (k : nat) (i d x1 x2 y1 temp_n : t) : result (t * t) :=
  match k with
  | O => OutOfFuel
  | S k' =>
      more <- gt i zero ;;
      if more then
        temp1 <- floordiv temp_n i ;;
        prod <- mul temp1 i ;;
        temp2 <- sub temp_n prod ;;
        prod <- mul temp1 x1 ;;
        x <- sub x2 prod ;;
        prod <- mul temp1 y1 ;;
        y <- sub d prod ;;
        inv_mod_loop k' temp2 y1 x x1 y i
      else Ok (d, temp_n)
  end.

Definition inv_mod (i n : t) : result (option t) :=
  r <- inv_mod_loop fuel i zero one zero one n ;;
  let '(d, temp_n) := r in
  if eq temp_n one then
    r <- mod_ d n ;;
    Ok (Some r)
  else Ok None.

(** [two = one + one], bound when the module is imported. *)
Definition two : result t := add one one.

Definition sqrt (self : t) : result t :=
  s_neg <- lt self zero ;;
  if s_neg then
    Raise (ValueError "Only support taking sqrt of non-negative numbers")
  else
    s1 <- add self one ;;
    two <- two ;;
    q0 <- truediv s1 two ;;
    q <- sub q0 one ;;
    c <- Circle.init origin (p q0) ;;
    xa <- x_axis ;;
    l <- get_perpendicular_to_line_through_point (p q) xa ;;
    pts <- Circle.intersect_with_line c l ;;
    '(p1, p2) <- unpack2 pts ;;
    up <- sym_gt (Point.y p1) (Point.y p2) ;;
    let q1 := if up then p1 else p2 in
    c <- Circle.init (p q) q1 ;;
    pts <- Circle.intersect_with_line c xa ;;
    '(p1, p2) <- unpack2 pts ;;
    right <- sym_gt (Point.x p1) (Point.x p2) ;;
    let q2 := if right then p1 else p2 in
    sub (mk q2) q.

(** [is_prime]: trial division by 2 and by the odd numbers from 3 up to
    the integer part of the square root.  It reads the module-level
    [two]. *)
Fixpoint is_prime_loop (k : nat) (self two lim cur : t) : result bool :=
  match k with
  | O => OutOfFuel
  | S k' =>
      more <- lt cur lim ;;
      if more then
        r <- mod_ self cur ;;
        if eq r zero then Ok false
        else
          cur <- add cur two ;;
          is_prime_loop k' self two lim cur
      else Ok true
  end.

Definition is_prime (self : t) : result bool :=
  if eq self one then Ok false
  else
    two <- two ;;
    if eq self two then Ok true
    else
      r <- mod_ self two ;;
      if eq r zero then Ok false
      else
        s <- sqrt self ;;
        s1 <- add s one ;;
        lim <- floor s1 ;;
        cur <- add two one ;;
        is_prime_loop fuel self two lim cur.

(** [xor_positive]: bit by bit, from the least significant one. *)
Fixpoint xor_positive_loop (k : nat) (two res power_of_2 a_temp b_temp : t)
  : result t :=
  match k with
  | O => OutOfFuel
  | S k' =>
      a_pos <- gt a_temp zero ;;
      more <- (if a_pos then Ok true else gt b_temp zero) ;;
      if more then
        bit_a <- mod_ a_temp two ;;
        bit_b <- mod_ b_temp two ;;
        xor_bit <- add bit_a bit_b ;;
        (* If the XORed bit is 1, add the current power of 2 to the result *)
        res <- (if eq xor_bit one then add res power_of_2 else Ok res) ;;
        a_temp <- rshift a_temp 1 ;;
        b_temp <- rshift b_temp 1 ;;
        power_of_2 <- mul2 power_of_2 ;;
        xor_positive_loop k' two res power_of_2 a_temp b_temp
      else Ok res
  end.

Definition xor_positive (a b : t) : result t :=
  a_neg <- lt a zero ;;
  bad <- (if a_neg then Ok true else lt b zero) ;;
  if bad then
    Raise (ValueError "XOR is defined for non-negative CasNum integers here.")
  else
    let res := copy zero in
    let power_of_2 := copy one in (* Represents 2^n, starting n=0 *)
    let a_temp := copy a in
    let b_temp := copy b in
    two <- add one one ;;
    xor_positive_loop fuel two res power_of_2 a_temp b_temp.

(** [__xor__] *)
Definition xor_ (self other : t) : result t :=
  s_ok <- ge self zero ;;
  both <- (if s_ok then ge other zero else Ok false) ;;
  if both then xor_positive self other
  else
    abs_a <- abs self ;;
    twos_n_a <- double_until_gt abs_a one true ;;
    abs_b <- abs other ;;
    twos_n_b <- double_until_gt abs_b one true ;;
    a_ge <- ge twos_n_a twos_n_b ;;
    let twos_n := if a_ge then twos_n_a else twos_n_b in
    let transform := copy zero in
    let cpy_a := self in
    let cpy_b := other in
    s_neg <- lt self zero ;;
    transform <- (if s_neg then add transform one else Ok transform) ;;
    cpy_a <- (if s_neg then add self twos_n else Ok cpy_a) ;;
    o_neg <- lt other zero ;;
    transform <- (if o_neg then add transform one else Ok transform) ;;
    cpy_b <- (if o_neg then add other twos_n else Ok cpy_b) ;;
    xor_val <- xor_positive cpy_a cpy_b ;;
    if eq transform one then sub xor_val twos_n else Ok xor_val.

Fixpoint and_positive_loop (k : nat) (two res power_of_2 a_temp b_temp : t)
  : result t :=
  match k with
  | O => OutOfFuel
  | S k' =>
      a_pos <- gt a_temp zero ;;
      more <- (if a_pos then Ok true else gt b_temp zero) ;;
      if more then
        bit_a <- mod_ a_temp two ;;
        bit_b <- mod_ b_temp two ;;
        and_bit <- add bit_a bit_b ;;
        res <- (if eq and_bit two then add res power_of_2 else Ok res) ;;
        a_temp <- rshift a_temp 1 ;;
        b_temp <- rshift b_temp 1 ;;
        power_of_2 <- mul2 power_of_2 ;;
        and_positive_loop k' two res power_of_2 a_temp b_temp
      else Ok res
  end.

(** [and_positive] reads the module-level [two]. *)
Definition and_positive (a b : t) : result t :=
  a_neg <- lt a zero ;;
  bad <- (if a_neg then Ok true else lt b zero) ;;
  if bad then
    Raise (ValueError "AND is defined for non-negative CasNum integers here.")
  else
    let res := copy zero in
    let power_of_2 := copy one in
    let a_temp := copy a in
    let b_temp := copy b in
    two <- two ;;
    and_positive_loop fuel two res power_of_2 a_temp b_temp.

(** [__and__] *)
Definition and_ (self other : t) : result t :=
  s_ok <- ge self zero ;;
  both <- (if s_ok then ge other zero else Ok false) ;;
  if both then and_positive self other
  else
    abs_a <- abs self ;;
    twos_n_a <- double_until_gt abs_a one true ;;
    abs_b <- abs other ;;
    twos_n_b <- double_until_gt abs_b one true ;;
    a_ge <- ge twos_n_a twos_n_b ;;
    let twos_n := if a_ge then twos_n_a else twos_n_b in
    let transform := copy zero in
    let cpy_a := self in
    let cpy_b := other in
    s_neg <- lt self zero ;;
    transform <- (if s_neg then add transform one else Ok transform) ;;
    cpy_a <- (if s_neg then add self twos_n else Ok cpy_a) ;;
    o_neg <- lt other zero ;;
    transform <- (if o_neg then add transform one else Ok transform) ;;
    cpy_b <- (if o_neg then add other twos_n else Ok cpy_b) ;;
    and_val <- and_positive cpy_a cpy_b ;;
    many <- gt transform one ;;
    if many then sub and_val twos_n else Ok and_val.

(** [get_nth_bit]; the bit index [n] is a Python integer. *)
Definition get_nth_bit (self : t) (n : Z) : result t :=
  s_neg <- lt self zero ;;
  if s_neg || (n <? 0)%Z then
    Raise (ValueError " get_nth_bit is defined for non-negative CasNum and bit.")
  else
    let temp := copy self in
    temp <- rshift temp n ;;
    two <- two ;;
    mod_ temp two.

Fixpoint or_positive_loop (k : nat) (two res power_of_2 a_temp b_temp : t)
  : result t :=
  match k with
  | O => OutOfFuel
  | S k' =>
      a_pos <- gt a_temp zero ;;
      more <- (if a_pos then Ok true else gt b_temp zero) ;;
      if more then
        bit_a <- mod_ a_temp two ;;
        bit_b <- mod_ b_temp two ;;
        or_bit <- add bit_a bit_b ;;
        set_bit <- ge or_bit one ;;
        res <- (if set_bit then add res power_of_2 else Ok res) ;;
        a_temp <- rshift a_temp 1 ;;
        b_temp <- rshift b_temp 1 ;;
        power_of_2 <- mul2 power_of_2 ;;
        or_positive_loop k' two res power_of_2 a_temp b_temp
      else Ok res
  end.

Definition or_positive (a b : t) : result t :=
  a_neg <- lt a zero ;;
  bad <- (if a_neg then Ok true else lt b zero) ;;
  if bad then
    Raise (ValueError "AND is defined for non-negative CasNum integers here.")
  else
    let res := copy zero in
    let power_of_2 := copy one in
    let a_temp := copy a in
    let b_temp := copy b in
    two <- add one one ;;
    or_positive_loop fuel two res power_of_2 a_temp b_temp.

(** [__or__] *)
Definition or_ (self other : t) : result t :=
  s_ok <- ge self zero ;;
  both <- (if s_ok then ge other zero else Ok false) ;;
  if both then or_positive self other
  else
    abs_a <- abs self ;;
    twos_n_a <- double_until_gt abs_a one true ;;
    abs_b <- abs other ;;
    twos_n_b <- double_until_gt abs_b one true ;;
    a_ge <- ge twos_n_a twos_n_b ;;
    let twos_n := if a_ge then twos_n_a else twos_n_b in
    let transform := copy zero in
    let cpy_a := self in
    let cpy_b := other in
    s_neg <- lt self zero ;;
    transform <- (if s_neg then add transform one else Ok transform) ;;
    cpy_a <- (if s_neg then add self twos_n else Ok cpy_a) ;;
    o_neg <- lt other zero ;;
    transform <- (if o_neg then add transform one else Ok transform) ;;
    cpy_b <- (if o_neg then add other twos_n else Ok cpy_b) ;;
    or_val <- or_positive cpy_a cpy_b ;;
    some <- ge transform one ;;
    if some then sub or_val twos_n else Ok or_val.

End Loops.

End CasNum.

(** ** Values used in the statements *)

(** The real point (a, b). *)
Definition pt (a b : R) : Point.t := Point.mk (Re a) (Re b).

(** The CasNum of the point (a, 0). *)
Definition cnR (a : R) : CasNum.t := CasNum.mk (pt a 0).

(** [cn n]: the CasNum whose point is (n, 0), for an integer n. *)
Definition cn (n : Z) : CasNum.t := cnR (IZR n).

Definition on_x_axis (a : CasNum.t) : Prop := exists r : R, a = cnR r.

Definition int_valued (a : CasNum.t) : Prop := exists n : Z, a = cn n.

(** The Line built from the real points (a, b) and (c, d); slope and
    intercept are [zoo]/[nan] when the line is vertical. *)
Definition line_of (a b c d : R) : Line.t :=
  Line.mk (pt a b) (pt c d) (Re (b - d)) (Re (c - a)) (Re (a * d - c * b))
    (Re (d - b) / Re (c - a))%sym
    (Re b - (Re (d - b) / Re (c - a)) * Re a)%sym.

(** The Circle with centre (a, b) through (c, d). *)
Definition circle_of (a b c d : R) : Circle.t :=
  Circle.mk (pt a b) (pt c d)
    (Re (sqrt ((a - c) * (a - c) + (b - d) * (b - d)))).

(** When the branch selection of [Circle.get_intersection] keeps the
    abscissa X of a common point of two circles centred at abscissas a1, a2:
    X is the second candidate of the first circle, or the other candidate
    is at least the tolerance away from both candidates of the second. *)
Definition sel_ok (X a1 a2 : R) : Prop :=
  X <= a1 \/ (tol <= 2 * (X - a1) /\ tol <= 2 * Rabs (a1 - a2)).

(** The power of two that [__xor__], [__and__] and [__or__] add to a
    negative operand: the larger of the least powers of two that are no
    smaller than the operands' absolute values. *)
Definition twos_n (a b : Z) : Z :=
  Z.max (2 ^ Z.log2_up (Z.abs a)) (2 ^ Z.log2_up (Z.abs b)).

(** Both operands lie below that power of two whenever one is negative. *)
Definition fits (a b : Z) : Prop :=
  (a < 0 \/ b < 0 -> a < twos_n a b /\ b < twos_n a b)%Z.

(** No binary digit of [v] at position [n] or above is set. *)
Definition lowbits (n v : Z) : Prop :=
  forall i : Z, (n <= i)%Z -> Z.testbit v i = false.

(** * Properties *)

(** ** Deciding comparisons of reals *)

Lemma Rltb_true (a b : R) : a < b -> Rltb a b = true.
Proof. intros H. unfold Rltb. destruct (Rlt_dec a b); [reflexivity | contradiction]. Qed.

Lemma Rltb_false (a b : R) : b <= a -> Rltb a b = false.
Proof. intros H. unfold Rltb. destruct (Rlt_dec a b); [lra | reflexivity]. Qed.

Lemma Reqb_true (a b : R) : a = b -> Reqb a b = true.
Proof. intros H. unfold Reqb. destruct (Req_dec_T a b); [reflexivity | contradiction]. Qed.

Lemma Reqb_false (a b : R) : a <> b -> Reqb a b = false.
Proof. intros H. unfold Reqb. destruct (Req_dec_T a b); [contradiction | reflexivity]. Qed.

Lemma Reqb_eq (a b : R) : Reqb a b = true -> a = b.
Proof. unfold Reqb. destruct (Req_dec_T a b); [trivial | discriminate]. Qed.

Lemma Reqb_refl (a : R) : Reqb a a = true.
Proof. apply Reqb_true. reflexivity. Qed.

Lemma sym_eqb_eq (a b : sym) : sym_eqb a b = true -> a = b.
Proof.
  destruct a, b; simpl; try discriminate; try reflexivity.
  - intros H. apply Reqb_eq in H. congruence.
  - intros H. apply andb_prop in H. destruct H as [H1 H2].
    apply Reqb_eq in H1. apply Reqb_eq in H2. congruence.
Qed.

Lemma sym_eqb_refl (a : sym) : sym_eqb a a = true.
Proof. destruct a; simpl; rewrite ?Reqb_refl; reflexivity. Qed.

Lemma Point_isEqual_eq (a b : Point.t) : Point.isEqual a b = true -> a = b.
Proof.
  destruct a as [ax ay], b as [bx by_]. unfold Point.isEqual. simpl.
  intros H. apply andb_prop in H. destruct H as [H1 H2].
  apply sym_eqb_eq in H1. apply sym_eqb_eq in H2. congruence.
Qed.

Lemma Point_isEqual_refl (a : Point.t) : Point.isEqual a a = true.
Proof. unfold Point.isEqual. rewrite !sym_eqb_refl. reflexivity. Qed.

Lemma isEqual_pt_true (a b c d : R) :
  a = c -> b = d -> Point.isEqual (pt a b) (pt c d) = true.
Proof. intros -> ->. apply Point_isEqual_refl. Qed.

Lemma isEqual_pt_false (a b c d : R) :
  a <> c \/ b <> d -> Point.isEqual (pt a b) (pt c d) = false.
Proof.
  intros H. unfold Point.isEqual, pt. simpl.
  destruct H as [H | H]; rewrite (Reqb_false _ _ H); simpl.
  - reflexivity.
  - apply andb_false_r.
Qed.

(** ** C2: true division by zero *)

(** The guard at the top of [__truediv__] fires for a zero divisor whatever
    the dividend is. *)
Lemma truediv_by_zero (self other : CasNum.t) :
  CasNum.isEqual other CasNum.zero = true ->
  CasNum.truediv self other = Raise (ValueError "Cannot divide by zero").
Proof. intros H. unfold CasNum.truediv. rewrite H. reflexivity. Qed.

(** C2, as amended: exact division by the CasNum zero raises
    [ValueError("Cannot divide by zero")] for every dividend; its guard comes
    before the branches that would return zero. *)
Theorem C2_truediv_zero_raises :
  forall self : CasNum.t,
    CasNum.truediv self CasNum.zero
    = Raise (ValueError "Cannot divide by zero").
Proof.
  intros self. apply truediv_by_zero.
  unfold CasNum.isEqual. apply Point_isEqual_refl.
Qed.

(** C2, as stated, fails: [cn 5 / zero] raises, it does not return zero. *)
Theorem C2_truediv_zero_not_zero :
  CasNum.truediv (cn 5) CasNum.zero <> Ok CasNum.zero.
Proof.
  rewrite truediv_by_zero.
  - discriminate.
  - unfold CasNum.isEqual. apply Point_isEqual_refl.
Qed.

(** ** C9: [from_num] of a non-positive integer *)

(** C9: [CasNum.from_num n] returns the CasNum zero (the origin) for every
    integer [n <= 0], negative ones included. *)
Theorem C9_from_num_nonpositive :
  forall n : Z, (n <= 0)%Z -> CasNum.from_num n = Ok CasNum.zero.
Proof.
  intros n Hn. unfold CasNum.from_num.
  destruct (Z.gtb_spec n 0) as [H | H]; [lia | reflexivity].
Qed.

Lemma C9_from_num_nonpositive_witness :
  (-3 <= 0)%Z /\ CasNum.from_num (-3) = Ok CasNum.zero.
Proof.
  split; [lia | apply (C9_from_num_nonpositive (-3)); lia].
Defined.

(** ** C5: intersection of parallel lines *)

(** [zoo] is not among the names line.py binds. *)
Lemma zoo_unbound (T : Type) (v : T) :
  Line.load_global "zoo" v = Raise (NameError "zoo").
Proof. reflexivity. Qed.

(** Whenever the determinant is zero, [get_intersection] raises
    [NameError] while it evaluates [Point(zoo, zoo)]. *)
Lemma get_intersection_parallel (l1 l2 : Line.t) :
  ((Line.A l1 * Line.B l2 - Line.B l1 * Line.A l2) == 0)%sym = true ->
  Line.get_intersection l1 l2 = Raise (NameError "zoo").
Proof. intros H. unfold Line.get_intersection. rewrite H. reflexivity. Qed.

(** ** The kernel on real points *)

Lemma sym_sqrt_Re (v : R) : 0 <= v -> sym_sqrt (Re v) = Re (sqrt v).
Proof. intros H. simpl. destruct (Rle_dec 0 v); [reflexivity | contradiction]. Qed.

Lemma sym_div_Re (a b : R) : b <> 0 -> sym_div (Re a) (Re b) = Re (a / b).
Proof. intros H. simpl. destruct (Req_dec_T b 0); [contradiction | reflexivity]. Qed.

Lemma sym_inv_Re (a : R) : a <> 0 -> sym_inv (Re a) = Re (/ a).
Proof. intros H. simpl. destruct (Req_dec_T a 0); [contradiction | reflexivity]. Qed.

Lemma sym_lt_Re_true (a b : R) : a < b -> sym_lt (Re a) (Re b) = Ok true.
Proof. intros H. simpl. rewrite Rltb_true; trivial. Qed.

Lemma sym_lt_Re_false (a b : R) : b <= a -> sym_lt (Re a) (Re b) = Ok false.
Proof. intros H. simpl. rewrite Rltb_false; trivial. Qed.

Lemma sq_nonneg (a : R) : 0 <= a * a.
Proof. exact (Rle_0_sqr a). Qed.

Lemma sum_sq_nonneg (a b : R) : 0 <= a * a + b * b.
Proof. pose proof (sq_nonneg a). pose proof (sq_nonneg b). lra. Qed.

Lemma sum_sq_pos (a b : R) : a <> 0 \/ b <> 0 -> 0 < a * a + b * b.
Proof.
  intros H. pose proof (sq_nonneg a). pose proof (sq_nonneg b).
  destruct H as [H | H].
  - assert (0 < a * a) by (apply Rsqr_pos_lt in H; exact H). lra.
  - assert (0 < b * b) by (apply Rsqr_pos_lt in H; exact H). lra.
Qed.

Lemma pt_eq (a b c d : R) : a = c -> b = d -> pt a b = pt c d.
Proof. intros -> ->. reflexivity. Qed.

Lemma Point_dist_pt (a b c d : R) :
  Point.dist (pt a b) (pt c d)
  = Re (sqrt ((a - c) * (a - c) + (b - d) * (b - d))).
Proof.
  unfold Point.dist, pt, sym_pow2. cbn [Point.x Point.y sym_sub sym_mul sym_add].
  apply sym_sqrt_Re. apply sum_sq_nonneg.
Qed.

Lemma Circle_init_pt (a b c d : R) :
  a <> c \/ b <> d -> Circle.init (pt a b) (pt c d) = Ok (circle_of a b c d).
Proof.
  intros H. unfold Circle.init. rewrite (isEqual_pt_false _ _ _ _ H).
  rewrite Point_dist_pt. reflexivity.
Qed.

Lemma Line_init_pt (a b c d : R) :
  a <> c \/ b <> d -> Line.init (pt a b) (pt c d) = Ok (line_of a b c d).
Proof.
  intros H. unfold Line.init, pt. cbn [Point.x Point.y sym_sub sym_eqb sym_mul].
  assert (G : Reqb (b - d) 0 && Reqb (c - a) 0 = false).
  { destruct H as [H | H].
    - rewrite (Reqb_false (c - a) 0) by lra. apply andb_false_r.
    - rewrite (Reqb_false (b - d) 0) by lra. reflexivity. }
  rewrite G. reflexivity.
Qed.

(** Slope and intercept of a line that is not vertical. *)
Lemma line_of_slope (a b c d : R) :
  c <> a -> Line.slope (line_of a b c d) = Re ((d - b) / (c - a)).
Proof. intros H. unfold line_of. cbn [Line.slope]. apply sym_div_Re. lra. Qed.

Lemma line_of_intercept (a b c d : R) :
  c <> a ->
  Line.intercept (line_of a b c d) = Re (b - (d - b) / (c - a) * a).
Proof.
  intros H. unfold line_of. cbn [Line.intercept].
  rewrite sym_div_Re by lra. reflexivity.
Qed.

(** A vertical line has slope [zoo]; its intercept is [nan] on the y-axis
    and [zoo] elsewhere. *)
Lemma line_of_vertical_slope (a b d : R) :
  b <> d -> Line.slope (line_of a b a d) = Zoo.
Proof.
  intros H. unfold line_of. cbn [Line.slope sym_div].
  destruct (Req_dec_T (a - a) 0) as [_ | N]; [| exfalso; lra].
  destruct (Req_dec_T (d - b) 0); [exfalso; lra | reflexivity].
Qed.

Lemma line_of_vertical_intercept (a b d : R) :
  b <> d -> a <> 0 -> Line.intercept (line_of a b a d) = Zoo.
Proof.
  intros H Ha. unfold line_of. cbn [Line.intercept sym_div].
  destruct (Req_dec_T (a - a) 0) as [_ | N]; [| exfalso; lra].
  destruct (Req_dec_T (d - b) 0); [exfalso; lra |].
  cbn. destruct (Req_dec_T a 0); [contradiction | reflexivity].
Qed.

(** ** C5, evaluated on two horizontal lines *)

(** C5: for the parallel lines through (0,0),(1,0) and through (0,1),(1,1)
    both constructors succeed and [intersect] raises [NameError]: the name
    [zoo] of the point at infinity is not bound in line.py. *)
Theorem C5_parallel_lines_raise :
  Line.init (pt 0 0) (pt 1 0) = Ok (line_of 0 0 1 0) /\
  Line.init (pt 0 1) (pt 1 1) = Ok (line_of 0 1 1 1) /\
  Line.intersect (line_of 0 0 1 0) (line_of 0 1 1 1) = Raise (NameError "zoo").
Proof.
  split; [apply Line_init_pt; left; lra |].
  split; [apply Line_init_pt; left; lra |].
  unfold Line.intersect. apply get_intersection_parallel.
  unfold line_of. cbn [Line.A Line.B sym_mul sym_sub sym_eqb].
  apply Reqb_true. lra.
Qed.

(** ** C6: equality of lines *)

(** Two lines that are not vertical compare equal exactly when they have the
    same slope and the same intercept. *)
Lemma Line_eq_nonvertical (a b c d a' b' c' d' : R) :
  c <> a -> c' <> a' ->
  Line.eq (line_of a b c d) (line_of a' b' c' d') = true <->
  (d - b) / (c - a) = (d' - b') / (c' - a') /\
  b - (d - b) / (c - a) * a = b' - (d' - b') / (c' - a') * a'.
Proof.
  intros H H'. unfold Line.eq.
  rewrite !line_of_slope, !line_of_intercept by assumption.
  cbn [sym_eqb]. split.
  - intros E. apply andb_prop in E. destruct E as [E1 E2].
    split; apply Reqb_eq; assumption.
  - intros [E1 E2]. rewrite (Reqb_true _ _ E1), (Reqb_true _ _ E2). reflexivity.
Qed.

(** C6 at its failing input: the vertical lines x = 1 and x = 2 are distinct,
    yet both have slope [zoo] and intercept [zoo], so [__eq__] answers
    True. *)
Theorem C6_distinct_vertical_lines_equal :
  Line.init (pt 1 0) (pt 1 1) = Ok (line_of 1 0 1 1) /\
  Line.init (pt 2 0) (pt 2 1) = Ok (line_of 2 0 2 1) /\
  Line.eq (line_of 1 0 1 1) (line_of 2 0 2 1) = true.
Proof.
  split; [apply Line_init_pt; right; lra |].
  split; [apply Line_init_pt; right; lra |].
  unfold Line.eq.
  rewrite !line_of_vertical_slope, !line_of_vertical_intercept by lra.
  reflexivity.
Qed.

(** ** Distance from a line *)

Lemma dfp_line_of (a b c d cx cy : R) :
  a <> c \/ b <> d ->
  Line.dist_from_point (line_of a b c d) (pt cx cy)
  = Re (Rabs ((b - d) * cx + (c - a) * cy + (a * d - c * b))
        / sqrt ((b - d) * (b - d) + (c - a) * (c - a))).
Proof.
  intros H. unfold Line.dist_from_point, line_of, pt, sym_pow2.
  cbn [Line.A Line.B Line.C Point.x Point.y sym_mul sym_add sym_abs].
  rewrite sym_sqrt_Re by apply sum_sq_nonneg.
  apply sym_div_Re.
  assert (0 < (b - d) * (b - d) + (c - a) * (c - a)).
  { apply sum_sq_pos. destruct H; [right | left]; lra. }
  pose proof (sqrt_lt_R0 _ H0). lra.
Qed.

Lemma Rabs_div_sqrt_lt (e v rho : R) :
  0 < v -> e * e < rho * v -> Rabs e / sqrt v < sqrt rho.
Proof.
  intros Hv H.
  assert (Hr : 0 < rho).
  { pose proof (sq_nonneg e). destruct (Rle_or_lt rho 0) as [N | P]; [| exact P].
    exfalso. assert (rho * v <= 0) by nra. lra. }
  rewrite <- sqrt_Rsqr_abs. unfold Rsqr.
  rewrite <- sqrt_div_alt by exact Hv.
  apply sqrt_lt_1.
  - apply Rmult_le_pos; [apply sq_nonneg | left; apply Rinv_0_lt_compat; exact Hv].
  - lra.
  - apply Rmult_lt_reg_r with v; [exact Hv |].
    unfold Rdiv. rewrite Rmult_assoc, Rinv_l by lra. lra.
Qed.

Lemma Rabs_div_sqrt_eq (e v rho : R) :
  0 < v -> 0 <= rho -> e * e = rho * v -> Rabs e / sqrt v = sqrt rho.
Proof.
  intros Hv Hr H.
  rewrite <- sqrt_Rsqr_abs. unfold Rsqr.
  rewrite <- sqrt_div_alt by exact Hv.
  f_equal. rewrite H. field. lra.
Qed.

Lemma Rabs_div_sqrt_ge (e v rho : R) :
  0 < v -> 0 <= rho -> rho * v <= e * e -> sqrt rho <= Rabs e / sqrt v.
Proof.
  intros Hv Hr H.
  rewrite <- sqrt_Rsqr_abs. unfold Rsqr.
  rewrite <- sqrt_div_alt by exact Hv.
  apply sqrt_le_1.
  - exact Hr.
  - apply Rmult_le_pos; [apply sq_nonneg | left; apply Rinv_0_lt_compat; exact Hv].
  - apply Rmult_le_reg_r with v; [exact Hv |].
    unfold Rdiv. rewrite Rmult_assoc, Rinv_l by lra. lra.
Qed.

(** ** Circle and line *)

Lemma sqrt_eq_of_sq (v w : R) : 0 <= w -> w * w = v -> sqrt v = w.
Proof. intros Hw H. rewrite <- H. apply sqrt_square. exact Hw. Qed.

(** A horizontal line through (a, b) and (c, b) meets the circle in
    (cx + w, b) and (cx - w, b), in this order. *)
Lemma iwl_horizontal (ca cb cc cd a b c w : R) :
  a <> c -> 0 < w ->
  w * w = (ca - cc) * (ca - cc) + (cb - cd) * (cb - cd) - (b - cb) * (b - cb) ->
  Circle.intersect_with_line (circle_of ca cb cc cd) (line_of a b c b)
  = Ok [pt (ca + w) b; pt (ca - w) b].
Proof.
  intros Hac Hw Hww. unfold Circle.intersect_with_line.
  cbn [circle_of Circle.center Circle.radius].
  rewrite dfp_line_of by (left; exact Hac).
  set (rho := (ca - cc) * (ca - cc) + (cb - cd) * (cb - cd)) in *.
  assert (Hv : 0 < (b - b) * (b - b) + (c - a) * (c - a)).
  { apply sum_sq_pos. right. lra. }
  rewrite sym_lt_Re_true.
  2:{ apply Rabs_div_sqrt_lt; [exact Hv |].
      assert (0 < w * w) by nra.
      assert (E : (b - cb) * (b - cb) < rho) by lra.
      assert (0 < (c - a) * (c - a)) by (apply Rsqr_pos_lt; lra).
      nra. }
  cbn [bind]. unfold line_of, pt, sym_pow2.
  cbn [Line.A Line.B Line.C Point.x Point.y sym_eqb sym_neg sym_mul sym_sub sym_add].
  rewrite (Reqb_true (b - b) 0) by lra.
  rewrite sym_div_Re by lra.
  cbn [Point.x Point.y sym_eqb sym_neg sym_mul sym_sub sym_add].
  assert (Hy : - (a * b - c * b) / (c - a) = b) by (field; lra).
  rewrite Hy.
  assert (Hs : sqrt rho * sqrt rho = rho).
  { apply sqrt_sqrt. pose proof (sq_nonneg (b - cb)). nra. }
  rewrite Hs.
  rewrite sym_sqrt_Re by nra.
  rewrite (sqrt_eq_of_sq _ w) by lra.
  reflexivity.
Qed.

(** A vertical line through (a, b) and (a, d) meets the circle in
    (a, cy + w) and (a, cy - w), in this order. *)
Lemma iwl_vertical (ca cb cc cd a b d w : R) :
  b <> d -> 0 < w ->
  w * w = (ca - cc) * (ca - cc) + (cb - cd) * (cb - cd) - (a - ca) * (a - ca) ->
  Circle.intersect_with_line (circle_of ca cb cc cd) (line_of a b a d)
  = Ok [pt a (cb + w); pt a (cb - w)].
Proof.
  intros Hbd Hw Hww. unfold Circle.intersect_with_line.
  cbn [circle_of Circle.center Circle.radius].
  rewrite dfp_line_of by (right; exact Hbd).
  set (rho := (ca - cc) * (ca - cc) + (cb - cd) * (cb - cd)) in *.
  assert (Hv : 0 < (b - d) * (b - d) + (a - a) * (a - a)).
  { apply sum_sq_pos. left. lra. }
  rewrite sym_lt_Re_true.
  2:{ apply Rabs_div_sqrt_lt; [exact Hv |].
      assert (0 < w * w) by nra.
      assert (E : (a - ca) * (a - ca) < rho) by lra.
      assert (0 < (b - d) * (b - d)) by (apply Rsqr_pos_lt; lra).
      nra. }
  cbn [bind]. unfold line_of, pt, sym_pow2.
  cbn [Line.A Line.B Line.C Point.x Point.y sym_eqb sym_neg sym_mul sym_sub sym_add].
  rewrite (Reqb_false (b - d) 0) by lra.
  rewrite (Reqb_true (a - a) 0) by lra.
  rewrite sym_div_Re by lra.
  cbn [Point.x Point.y sym_eqb sym_neg sym_mul sym_sub sym_add].
  assert (Hx : - (a * d - a * b) / (b - d) = a) by (field; lra).
  rewrite Hx.
  assert (Hs : sqrt rho * sqrt rho = rho).
  { apply sqrt_sqrt. pose proof (sq_nonneg (a - ca)). nra. }
  rewrite Hs.
  rewrite sym_sqrt_Re by nra.
  rewrite (sqrt_eq_of_sq _ w) by lra.
  reflexivity.
Qed.

(** A vertical line at distance exactly the radius from the centre touches
    the circle: one point is returned. *)
Lemma iwl_vertical_tangent (ca cb cc cd a b d : R) :
  b <> d ->
  (a - ca) * (a - ca) = (ca - cc) * (ca - cc) + (cb - cd) * (cb - cd) ->
  Circle.intersect_with_line (circle_of ca cb cc cd) (line_of a b a d)
  = Ok [pt a cb].
Proof.
  intros Hbd Hww. unfold Circle.intersect_with_line.
  cbn [circle_of Circle.center Circle.radius].
  rewrite dfp_line_of by (right; exact Hbd).
  set (rho := (ca - cc) * (ca - cc) + (cb - cd) * (cb - cd)) in *.
  assert (Hv : 0 < (b - d) * (b - d) + (a - a) * (a - a)).
  { apply sum_sq_pos. left. lra. }
  assert (Hrho : 0 <= rho) by (unfold rho; apply sum_sq_nonneg).
  assert (E : Rabs ((b - d) * ca + (a - a) * cb + (a * d - a * b))
              / sqrt ((b - d) * (b - d) + (a - a) * (a - a)) = sqrt rho).
  { apply Rabs_div_sqrt_eq; [exact Hv | exact Hrho |]. rewrite <- Hww. ring. }
  rewrite E.
  rewrite sym_lt_Re_false by lra.
  cbn [bind sym_sub sym_eqb].
  rewrite (Reqb_true (sqrt rho - sqrt rho) 0) by lra.
  unfold line_of, pt.
  cbn [Line.A Line.B Line.C Point.x Point.y sym_eqb sym_neg].
  rewrite (Reqb_false (b - d) 0) by lra.
  rewrite (Reqb_true (a - a) 0) by lra.
  rewrite sym_div_Re by lra.
  assert (Hx : - (a * d - a * b) / (b - d) = a) by (field; lra).
  rewrite Hx. reflexivity.
Qed.

(** A line that is neither horizontal nor vertical meets the circle in its
    two common points, the one with the smaller abscissa first. *)
Lemma iwl_general (ca cb cc cd a b c d X1 Y1 X2 Y2 : R) :
  a <> c -> b <> d -> X1 < X2 ->
  Y1 = (d - b) / (c - a) * X1 + (b - (d - b) / (c - a) * a) ->
  Y2 = (d - b) / (c - a) * X2 + (b - (d - b) / (c - a) * a) ->
  (X1 - ca) * (X1 - ca) + (Y1 - cb) * (Y1 - cb)
  = (ca - cc) * (ca - cc) + (cb - cd) * (cb - cd) ->
  (X2 - ca) * (X2 - ca) + (Y2 - cb) * (Y2 - cb)
  = (ca - cc) * (ca - cc) + (cb - cd) * (cb - cd) ->
  Circle.intersect_with_line (circle_of ca cb cc cd) (line_of a b c d)
  = Ok [pt X1 Y1; pt X2 Y2].
Proof.
  intros Hac Hbd HX HY1 HY2 E1 E2. unfold Circle.intersect_with_line.
  cbn [circle_of Circle.center Circle.radius].
  rewrite dfp_line_of by (left; exact Hac).
  assert (Hrho : 0 <= (ca - cc) * (ca - cc) + (cb - cd) * (cb - cd)) by apply sum_sq_nonneg.
  set (rho := (ca - cc) * (ca - cc) + (cb - cd) * (cb - cd)) in *.
  clearbody rho.
  set (m := (d - b) / (c - a)) in *.
  set (k := b - m * a) in *.
  assert (Hm : m * (c - a) = d - b) by (unfold m; field; lra).
  assert (Hk : k = b - m * a) by reflexivity.
  assert (Hmdef : (d - b) / (c - a) = m) by reflexivity.
  clearbody k. clearbody m.
  assert (Hsum : (X1 + X2) * (1 + m * m) = 2 * (ca + cb * m - k * m)).
  { assert (P : (X1 - X2) * ((X1 + X2) * (1 + m * m) - 2 * (ca + cb * m - k * m)) = 0).
    { subst Y1 Y2.
      replace ((X1 - X2) * ((X1 + X2) * (1 + m * m) - 2 * (ca + cb * m - k * m)))
        with (((X1 - ca) * (X1 - ca) + (m * X1 + k - cb) * (m * X1 + k - cb))
              - ((X2 - ca) * (X2 - ca) + (m * X2 + k - cb) * (m * X2 + k - cb))) by ring.
      lra. }
    apply Rmult_integral in P. destruct P as [P | P]; lra. }
  assert (Hm1 : 0 < 1 + m * m) by (pose proof (sq_nonneg m); lra).
  set (h := (1 + m * m) * (X2 - X1) / 2).
  assert (Hh : 0 < h) by (unfold h; apply Rdiv_lt_0_compat; [apply Rmult_lt_0_compat; lra | lra]).
  assert (Hdel : rho * (1 + m * m) - (m * ca - cb + k) * (m * ca - cb + k) = h * h).
  { rewrite <- E1. subst Y1.
    assert (Hca : ca = (X1 + X2) * (1 + m * m) / 2 - cb * m + k * m) by lra.
    rewrite Hca. unfold h. field. }
  assert (Hv : 0 < (b - d) * (b - d) + (c - a) * (c - a)).
  { apply sum_sq_pos. left. lra. }
  assert (Hd : d = b + m * (c - a)) by lra.
  rewrite sym_lt_Re_true.
  2:{ apply Rabs_div_sqrt_lt; [exact Hv |].
      replace ((b - d) * ca + (c - a) * cb + (a * d - c * b))
        with (- (c - a) * (m * ca - cb + k)).
      2:{ rewrite Hk, Hd. ring. }
      replace ((b - d) * (b - d) + (c - a) * (c - a))
        with ((c - a) * (c - a) * (1 + m * m)).
      2:{ rewrite Hd. ring. }
      assert (0 < (c - a) * (c - a)) by (apply Rsqr_pos_lt; lra).
      assert (0 < h * h) by nra.
      nra. }
  cbn [bind]. 
  change (Line.A (line_of a b c d)) with (Re (b - d)).
  change (Line.B (line_of a b c d)) with (Re (c - a)).
  cbn [sym_eqb].
  rewrite (Reqb_false (b - d) 0) by lra.
  rewrite (Reqb_false (c - a) 0) by lra.
  unfold Line.at_. rewrite line_of_slope, line_of_intercept by lra.
  rewrite Hmdef, <- Hk.
  unfold Circle.line_root, pt, sym_pow2.
  cbn [Point.x Point.y sym_neg sym_mul sym_sub sym_add].
  assert (Hs : sqrt rho * sqrt rho = rho) by (apply sqrt_sqrt; exact Hrho).
  match goal with |- context [sym_sqrt (Re ?D)] =>
    assert (HD : D = h * h) by (rewrite <- Hdel; 
      replace (m * sqrt rho * (m * sqrt rho)) with (m * m * (sqrt rho * sqrt rho)) by ring;
      rewrite Hs; ring);
    rewrite HD
  end.
  rewrite sym_sqrt_Re by apply sq_nonneg.
  rewrite sqrt_square by lra.
  cbn [sym_neg sym_mul sym_sub sym_add].
  rewrite !sym_div_Re by lra.
  cbn [sym_neg sym_mul sym_sub sym_add Point.init].
  assert (R1 : (-1 * h + ca + cb * m - k * m) / (m * m + 1) = X1).
  { unfold h. apply Rmult_eq_reg_r with (m * m + 1); [| lra].
    unfold Rdiv at 1. rewrite Rmult_assoc, Rinv_l by lra. lra. }
  assert (R2 : (1 * h + ca + cb * m - k * m) / (m * m + 1) = X2).
  { unfold h. apply Rmult_eq_reg_r with (m * m + 1); [| lra].
    unfold Rdiv at 1. rewrite Rmult_assoc, Rinv_l by lra. lra. }
  rewrite R1, R2. rewrite <- HY1, <- HY2. reflexivity.
Qed.

(** ** Circle and circle *)

(** The closed form of the two ordinates, on real data. *)
Section GiantFormula.

Variables a1 b1 a2 b2 r1 r2 : R.

Let D2 := (a1 - a2) * (a1 - a2) + (b1 - b2) * (b1 - b2).
Let E := D2 + r1 * r1 - r2 * r2.
Let K := 4 * D2 * (r1 * r1) - E * E.

Hypothesis HD2 : D2 <> 0.
Hypothesis HK : 0 <= K.

Lemma giant_y1_Re :
  Circle.giant_y1 (Re a1) (Re b1) (Re a2) (Re b2) (Re r1) (Re r2)
  = Re (b1 + ((b2 - b1) * E + Rabs (a2 - a1) * sqrt K) / (2 * D2)).
Proof.
  unfold Circle.giant_y1, sym_pow2.
  cbn [sym_neg sym_mul sym_sub sym_add].
  match goal with |- context [sym_sqrt (Re ?D)] =>
    assert (HDISC : D = (4 * (a2 - a1)) * (4 * (a2 - a1)) * K)
      by (unfold K, E, D2; ring);
    rewrite HDISC
  end.
  rewrite sym_sqrt_Re.
  2:{ apply Rmult_le_pos; [apply sq_nonneg | exact HK]. }
  rewrite sqrt_mult by (try apply sq_nonneg; exact HK).
  change (4 * (a2 - a1) * (4 * (a2 - a1))) with (Rsqr (4 * (a2 - a1))).
  rewrite sqrt_Rsqr_abs.
  cbn [sym_neg sym_mul sym_sub sym_add].
  rewrite sym_div_Re.
  2:{ unfold D2 in HD2. intros N. apply HD2. lra. }
  cbn [sym_sub]. f_equal.
  rewrite Rabs_mult, (Rabs_right 4) by lra.
  unfold E, D2 in *. field. lra.
Qed.

Lemma giant_y2_Re :
  Circle.giant_y2 (Re a1) (Re b1) (Re a2) (Re b2) (Re r1) (Re r2)
  = Re (b1 + ((b2 - b1) * E - Rabs (a2 - a1) * sqrt K) / (2 * D2)).
Proof.
  unfold Circle.giant_y2, sym_pow2.
  cbn [sym_neg sym_mul sym_sub sym_add].
  match goal with |- context [sym_sqrt (Re ?D)] =>
    assert (HDISC : D = (4 * (a2 - a1)) * (4 * (a2 - a1)) * K)
      by (unfold K, E, D2; ring);
    rewrite HDISC
  end.
  rewrite sym_sqrt_Re.
  2:{ apply Rmult_le_pos; [apply sq_nonneg | exact HK]. }
  rewrite sqrt_mult by (try apply sq_nonneg; exact HK).
  change (4 * (a2 - a1) * (4 * (a2 - a1))) with (Rsqr (4 * (a2 - a1))).
  rewrite sqrt_Rsqr_abs.
  cbn [sym_neg sym_mul sym_sub sym_add].
  rewrite sym_div_Re.
  2:{ unfold D2 in HD2. intros N. apply HD2. lra. }
  cbn [sym_sub]. f_equal.
  rewrite Rabs_mult, (Rabs_right 4) by lra.
  unfold E, D2 in *. field. lra.
Qed.

End GiantFormula.

Lemma tol_pos : 0 < tol.
Proof. unfold tol. apply Rinv_0_lt_compat. apply pow_lt. lra. Qed.

Lemma approx_Re (u v : R) :
  are_expressions_approx_equal (Re u) (Re v) = Ok (Rltb (Rabs (u - v)) tol).
Proof. reflexivity. Qed.

Lemma approx_same (u v : R) :
  u = v -> are_expressions_approx_equal (Re u) (Re v) = Ok true.
Proof.
  intros ->. rewrite approx_Re, Rltb_true; [reflexivity |].
  replace (v - v) with 0 by ring. rewrite Rabs_R0. apply tol_pos.
Qed.

Lemma approx_far (u v : R) :
  tol <= Rabs (u - v) -> are_expressions_approx_equal (Re u) (Re v) = Ok false.
Proof. intros H. rewrite approx_Re, Rltb_false; [reflexivity | exact H]. Qed.

(** A value that is one of the two candidates of the second circle matches. *)
Lemma match_any_member (u c t : R) :
  0 <= t -> Rabs (u - c) = t ->
  Circle.match_any (Re u) [Re (c + t); Re (c - t)] = Ok true.
Proof.
  intros Ht H. cbn [Circle.match_any sym_add sym_sub].
  destruct (Rle_or_lt c u) as [G | G].
  - rewrite approx_same; [reflexivity |].
    rewrite Rabs_right in H by lra. lra.
  - rewrite approx_Re. cbn [bind].
    destruct (Rltb (Rabs (u - (c + t))) tol); [reflexivity |].
    rewrite approx_same; [reflexivity |].
    rewrite Rabs_left in H by lra. lra.
Qed.

Lemma match_any_none (u v1 v2 : R) :
  tol <= Rabs (u - v1) -> tol <= Rabs (u - v2) ->
  Circle.match_any (Re u) [Re v1; Re v2] = Ok false.
Proof.
  intros H1 H2. cbn [Circle.match_any].
  rewrite (approx_far _ _ H1). cbn [bind].
  rewrite (approx_far _ _ H2). reflexivity.
Qed.

Lemma match_any_total (u v1 v2 : R) :
  exists b, Circle.match_any (Re u) [Re v1; Re v2] = Ok b.
Proof.
  cbn [Circle.match_any]. rewrite !approx_Re. cbn [bind].
  destruct (Rltb (Rabs (u - v1)) tol); [eexists; reflexivity |].
  cbn [bind]. destruct (Rltb (Rabs (u - v2)) tol); eexists; reflexivity.
Qed.

Lemma select_x_common (X a1 a2 t1 t2 : R) :
  Rabs (X - a1) = t1 -> Rabs (X - a2) = t2 -> sel_ok X a1 a2 ->
  Circle.select_x [Re (a1 + t1); Re (a1 - t1)] [Re (a2 + t2); Re (a2 - t2)] None
  = Ok (Some (Re X)).
Proof.
  intros H1 H2 Hsel.
  assert (T1 : 0 <= t1) by (rewrite <- H1; apply Rabs_pos).
  assert (T2 : 0 <= t2) by (rewrite <- H2; apply Rabs_pos).
  cbn [Circle.select_x].
  destruct (Rle_or_lt X a1) as [G | G].
  - (* X is the second candidate *)
    assert (EX : a1 - t1 = X) by (rewrite Rabs_left1 in H1 by lra; lra).
    destruct (match_any_total (a1 + t1) (a2 + t2) (a2 - t2)) as [b Hb].
    rewrite Hb. cbn [bind]. rewrite EX.
    rewrite (match_any_member X a2 t2 T2 H2). reflexivity.
  - (* X is the first candidate, the second one must match nothing *)
    destruct Hsel as [N | [S1 S2]]; [lra |].
    assert (EX : a1 + t1 = X) by (rewrite Rabs_right in H1 by lra; lra).
    rewrite EX. rewrite (match_any_member X a2 t2 T2 H2). cbn [bind].
    rewrite match_any_none; [reflexivity | |].
    + (* against one candidate *)
      destruct (Rle_or_lt a2 X) as [Q | Q].
      * rewrite Rabs_right in H2 by lra.
        replace (a1 - t1 - (a2 + t2)) with (- (2 * (X - a1))) by lra.
        rewrite Rabs_Ropp, Rabs_right by lra. lra.
      * rewrite Rabs_left in H2 by lra.
        replace (a1 - t1 - (a2 + t2)) with (2 * (a1 - a2)) by lra.
        rewrite Rabs_mult, (Rabs_right 2) by lra. lra.
    + destruct (Rle_or_lt a2 X) as [Q | Q].
      * rewrite Rabs_right in H2 by lra.
        replace (a1 - t1 - (a2 - t2)) with (2 * (a1 - a2)) by lra.
        rewrite Rabs_mult, (Rabs_right 2) by lra. lra.
      * rewrite Rabs_left in H2 by lra.
        replace (a1 - t1 - (a2 - t2)) with (- (2 * (X - a1))) by lra.
        rewrite Rabs_Ropp, Rabs_right by lra. lra.
Qed.

Lemma sqrt_sq_abs (v : R) : sqrt (v * v) = Rabs v.
Proof. exact (sqrt_Rsqr_abs v). Qed.

Section TwoCircles.

(** Two circles, given by centre and boundary point, and two common points
    (X1, Y1) and (X2, Y2); the first one lies on the side of the line of
    centres where [giant_y1] is found. *)
Variables a1 b1 o1x o1y a2 b2 o2x o2y X1 Y1 X2 Y2 : R.

Let rho1 := (a1 - o1x) * (a1 - o1x) + (b1 - o1y) * (b1 - o1y).
Let rho2 := (a2 - o2x) * (a2 - o2x) + (b2 - o2y) * (b2 - o2y).
Let W1 := (a2 - a1) * (Y1 - b1) - (b2 - b1) * (X1 - a1).
Let W2 := (a2 - a1) * (Y2 - b1) - (b2 - b1) * (X2 - a1).

Hypothesis P1a : (X1 - a1) * (X1 - a1) + (Y1 - b1) * (Y1 - b1) = rho1.
Hypothesis P1b : (X1 - a2) * (X1 - a2) + (Y1 - b2) * (Y1 - b2) = rho2.
Hypothesis P2a : (X2 - a1) * (X2 - a1) + (Y2 - b1) * (Y2 - b1) = rho1.
Hypothesis P2b : (X2 - a2) * (X2 - a2) + (Y2 - b2) * (Y2 - b2) = rho2.
Hypothesis HW1 : 0 <= (a2 - a1) * W1.
Hypothesis HW1n : W1 <> 0.
Hypothesis HW2 : (a2 - a1) * W2 <= 0.

Let D2 := (a1 - a2) * (a1 - a2) + (b1 - b2) * (b1 - b2).

Lemma cc_rho1_nonneg : 0 <= rho1.
Proof. apply sum_sq_nonneg. Qed.

Lemma cc_rho2_nonneg : 0 <= rho2.
Proof. apply sum_sq_nonneg. Qed.

Lemma cc_D2_pos : 0 < D2.
Proof.
  apply sum_sq_pos.
  destruct (Req_dec_T a1 a2) as [E1 | N1]; [| left; lra].
  destruct (Req_dec_T b1 b2) as [E2 | N2]; [| right; lra].
  exfalso. apply HW1n. unfold W1. rewrite E1, E2. ring.
Qed.

Let K := 4 * D2 * (sqrt rho1 * sqrt rho1)
         - (D2 + sqrt rho1 * sqrt rho1 - sqrt rho2 * sqrt rho2)
           * (D2 + sqrt rho1 * sqrt rho1 - sqrt rho2 * sqrt rho2).

Lemma cc_K1 : K = (2 * W1) * (2 * W1).
Proof.
  unfold K. rewrite !sqrt_sqrt by (apply cc_rho1_nonneg || apply cc_rho2_nonneg).
  rewrite <- P1a, <- P1b. unfold D2, W1. ring.
Qed.

Lemma cc_K2 : K = (2 * W2) * (2 * W2).
Proof.
  unfold K. rewrite !sqrt_sqrt by (apply cc_rho1_nonneg || apply cc_rho2_nonneg).
  rewrite <- P2a, <- P2b. unfold D2, W2. ring.
Qed.

Lemma cc_K_pos : 0 < K.
Proof. rewrite cc_K1. apply Rsqr_pos_lt. lra. Qed.

Lemma cc_dist_lt : sqrt D2 < sqrt rho1 + sqrt rho2.
Proof.
  pose proof cc_K_pos as HK. pose proof cc_D2_pos as HD.
  pose proof (sqrt_pos rho1) as R1. pose proof (sqrt_pos rho2) as R2.
  pose proof (sqrt_lt_R0 _ HD) as D0.
  assert (DD : sqrt D2 * sqrt D2 = D2) by (apply sqrt_sqrt; lra).
  set (d := sqrt D2) in *. set (r1 := sqrt rho1) in *. set (r2 := sqrt rho2) in *.
  assert (F : K = ((r1 + r2) * (r1 + r2) - d * d) * (d * d - (r1 - r2) * (r1 - r2))).
  { unfold K. rewrite <- DD. ring. }
  destruct (Rlt_or_le d (r1 + r2)) as [L | G]; [exact L | exfalso].
  assert (A1 : (r1 + r2) * (r1 + r2) - d * d <= 0) by nra.
  assert (A2 : 0 <= d * d - (r1 - r2) * (r1 - r2)) by nra.
  assert (K <= 0).
  { rewrite F.
    replace 0 with (- 0) by ring. 
    replace (((r1 + r2) * (r1 + r2) - d * d) * (d * d - (r1 - r2) * (r1 - r2)))
      with (- ((d * d - (r1 + r2) * (r1 + r2)) * (d * d - (r1 - r2) * (r1 - r2)))) by ring.
    apply Ropp_le_contravar. apply Rmult_le_pos; lra. }
  lra.
Qed.

Lemma cc_y1 :
  Circle.giant_y1 (Re a1) (Re b1) (Re a2) (Re b2) (Re (sqrt rho1)) (Re (sqrt rho2))
  = Re Y1.
Proof.
  pose proof cc_D2_pos as HD.
  rewrite giant_y1_Re.
  2:{ fold D2. lra. }
  2:{ fold D2. fold K. left. apply cc_K_pos. }
  fold D2. fold K. f_equal.
  rewrite cc_K1, sqrt_sq_abs, <- Rabs_mult.
  replace ((a2 - a1) * (2 * W1)) with (2 * ((a2 - a1) * W1)) by ring.
  rewrite Rabs_right by lra.
  rewrite !sqrt_sqrt by (apply cc_rho1_nonneg || apply cc_rho2_nonneg).
  rewrite <- P1a, <- P1b. unfold W1, D2 in *. field. lra.
Qed.

Lemma cc_y2 :
  Circle.giant_y2 (Re a1) (Re b1) (Re a2) (Re b2) (Re (sqrt rho1)) (Re (sqrt rho2))
  = Re Y2.
Proof.
  pose proof cc_D2_pos as HD.
  rewrite giant_y2_Re.
  2:{ fold D2. lra. }
  2:{ fold D2. fold K. left. apply cc_K_pos. }
  fold D2. fold K. f_equal.
  rewrite cc_K2, sqrt_sq_abs, <- Rabs_mult.
  replace ((a2 - a1) * (2 * W2)) with (- (2 * - ((a2 - a1) * W2))) by ring.
  rewrite Rabs_Ropp, Rabs_right by lra.
  rewrite !sqrt_sqrt by (apply cc_rho1_nonneg || apply cc_rho2_nonneg).
  rewrite <- P2a, <- P2b. unfold W2, D2 in *. field. lra.
Qed.

(** The candidate offsets [temp1], [temp2] at an ordinate of a common point. *)
Lemma cc_temp (rho a b X Y : R) :
  (X - a) * (X - a) + (Y - b) * (Y - b) = rho ->
  sym_sqrt (sym_pow2 (Re (sqrt rho)) - sym_pow2 (Re Y - Re b))%sym
  = Re (Rabs (X - a)).
Proof.
  intros H. unfold sym_pow2. cbn [sym_mul sym_sub].
  assert (0 <= rho) by (rewrite <- H; apply sum_sq_nonneg).
  rewrite sqrt_sqrt by assumption.
  replace (rho - (Y - b) * (Y - b)) with ((X - a) * (X - a)) by lra.
  rewrite sym_sqrt_Re by apply sq_nonneg.
  rewrite sqrt_sq_abs. reflexivity.
Qed.

(** The two common points are returned, the one with the larger ordinate
    first, when the ordinates differ by at least the tolerance and the
    branch selection recognises both abscissas. *)


Lemma bind_Ok (T U : Type) (v : T) (k : T -> result U) : bind (Ok v) k = k v.
Proof. reflexivity. Qed.

Lemma cc_far :
  tol <= Y1 - Y2 -> sel_ok X1 a1 a2 -> sel_ok X2 a1 a2 ->
  Circle.get_intersection (circle_of a1 b1 o1x o1y) (circle_of a2 b2 o2x o2y)
  = Ok [pt X1 Y1; pt X2 Y2].
Proof.
  intros Hfar S1 S2. pose proof tol_pos as Htol. unfold Circle.get_intersection.
  cbn [circle_of Circle.center Circle.radius]. fold rho1. fold rho2.
  rewrite Point_dist_pt. fold D2.
  cbn [pt Point.x Point.y].
  change (Re (sqrt rho1) + Re (sqrt rho2))%sym with (Re (sqrt rho1 + sqrt rho2)).
  rewrite (sym_lt_Re_true _ _ cc_dist_lt). rewrite bind_Ok. cbv beta iota zeta.
  rewrite cc_y1, cc_y2.
  rewrite approx_far by (rewrite Rabs_right; lra).
  rewrite bind_Ok. cbv beta iota zeta.
  rewrite (cc_temp rho1 a1 b1 X1 Y1 P1a), (cc_temp rho2 a2 b2 X1 Y1 P1b).
  rewrite (cc_temp rho1 a1 b1 X2 Y2 P2a), (cc_temp rho2 a2 b2 X2 Y2 P2b).
  cbn [sym_add sym_sub].
  rewrite (select_x_common X1 a1 a2 (Rabs (X1 - a1)) (Rabs (X1 - a2)) eq_refl eq_refl S1).
  rewrite bind_Ok.
  rewrite (select_x_common X2 a1 a2 (Rabs (X2 - a1)) (Rabs (X2 - a2)) eq_refl eq_refl S2).
  reflexivity.
Qed.

Lemma cc_near :
  Rabs (Y1 - Y2) < tol ->
  Circle.get_intersection (circle_of a1 b1 o1x o1y) (circle_of a2 b2 o2x o2y)
  = Ok [pt (a1 + Rabs (X1 - a1)) Y1; pt (a1 - Rabs (X1 - a1)) Y2].
Proof.
  intros Hnear. unfold Circle.get_intersection.
  cbn [circle_of Circle.center Circle.radius]. fold rho1. fold rho2.
  rewrite Point_dist_pt. fold D2.
  cbn [pt Point.x Point.y].
  change (Re (sqrt rho1) + Re (sqrt rho2))%sym with (Re (sqrt rho1 + sqrt rho2)).
  rewrite (sym_lt_Re_true _ _ cc_dist_lt). rewrite bind_Ok. cbv beta iota zeta.
  rewrite cc_y1, cc_y2.
  rewrite approx_Re, Rltb_true by exact Hnear.
  rewrite bind_Ok. cbv beta iota zeta.
  rewrite (cc_temp rho1 a1 b1 X1 Y1 P1a).
  reflexivity.
Qed.

End TwoCircles.

(** ** The arithmetic layer on points of the x-axis *)

Ltac bind_step := rewrite bind_Ok; cbv beta iota zeta.

Lemma Rabs_sq (a : R) : Rabs a * Rabs a = a * a.
Proof.
  destruct (Rcase_abs a) as [N | P].
  - rewrite Rabs_left by exact N. ring.
  - rewrite Rabs_right by exact P. ring.
Qed.

Lemma x_axis_ok : CasNum.x_axis = Ok (line_of 0 0 1 0).
Proof. unfold CasNum.x_axis. apply Line_init_pt. left. lra. Qed.

(** [mirror_point_on_x_axis] sends the point (a, 0) to (-a, 0). *)
Lemma mirror_on_x_axis (a : R) :
  cas_utils.mirror_point_on_x_axis (pt a 0) (pt 0 0) = Ok (pt (- a) 0).
Proof.
  unfold cas_utils.mirror_point_on_x_axis.
  destruct (Req_dec_T a 0) as [Z | NZ].
  - rewrite isEqual_pt_true by lra. f_equal. apply pt_eq; lra.
  - rewrite isEqual_pt_false by (left; exact NZ).
    rewrite Circle_init_pt by (left; lra). bind_step.
    rewrite Line_init_pt by (left; lra). bind_step.
    rewrite (iwl_horizontal 0 0 a 0 0 0 a (Rabs a)).
    + bind_step. cbn [unpack2]. bind_step.
      destruct (Rlt_or_le a 0) as [N | P].
      * rewrite isEqual_pt_true by (rewrite ?Rabs_left by lra; lra).
        f_equal. apply pt_eq; [rewrite Rabs_left by lra; lra | reflexivity].
      * rewrite isEqual_pt_false by (left; rewrite Rabs_right by lra; lra).
        f_equal. apply pt_eq; [rewrite Rabs_right by lra; lra | reflexivity].
    + lra.
    + apply Rabs_pos_lt. exact NZ.
    + rewrite Rabs_sq. ring.
Qed.

(** [double_point_on_x_axis] sends the point (a, 0) to (2a, 0). *)
Lemma double_on_x_axis (a : R) :
  cas_utils.double_point_on_x_axis (pt 0 0) (pt a 0) = Ok (pt (2 * a) 0).
Proof.
  unfold cas_utils.double_point_on_x_axis.
  destruct (Req_dec_T a 0) as [Z | NZ].
  - rewrite isEqual_pt_true by lra. f_equal. apply pt_eq; lra.
  - rewrite isEqual_pt_false by (left; exact NZ).
    rewrite Circle_init_pt by (left; lra). bind_step.
    rewrite Line_init_pt by (left; lra). bind_step.
    rewrite (iwl_horizontal a 0 0 0 0 0 a (Rabs a)).
    + bind_step. cbn [unpack2]. bind_step.
      destruct (Rlt_or_le a 0) as [N | P].
      * rewrite isEqual_pt_false by (left; rewrite Rabs_left by lra; lra).
        f_equal. apply pt_eq; [rewrite Rabs_left by lra; lra | reflexivity].
      * rewrite isEqual_pt_true by (rewrite ?Rabs_right by lra; lra).
        f_equal. apply pt_eq; [rewrite Rabs_right by lra; lra | reflexivity].
    + lra.
    + apply Rabs_pos_lt. exact NZ.
    + rewrite Rabs_sq. ring.
Qed.

Lemma neg_cnR (a : R) : CasNum.neg (cnR a) = Ok (cnR (- a)).
Proof.
  unfold CasNum.neg, cnR. cbn [CasNum.p].
  change CasNum.origin with (pt 0 0).
  rewrite mirror_on_x_axis. reflexivity.
Qed.

Lemma mul2_cnR (a : R) : CasNum.mul2 (cnR a) = Ok (cnR (2 * a)).
Proof.
  unfold CasNum.mul2, cnR. cbn [CasNum.p].
  change CasNum.origin with (pt 0 0).
  rewrite double_on_x_axis. reflexivity.
Qed.

Lemma cnR_eq (a b : R) : a = b -> cnR a = cnR b.
Proof. intros ->. reflexivity. Qed.

Lemma eq_cnR_true (a b : R) : a = b -> CasNum.eq (cnR a) (cnR b) = true.
Proof. intros H. unfold CasNum.eq, cnR. cbn [CasNum.p]. apply isEqual_pt_true; [exact H | reflexivity]. Qed.

Lemma eq_cnR_false (a b : R) : a <> b -> CasNum.eq (cnR a) (cnR b) = false.
Proof. intros H. unfold CasNum.eq, cnR. cbn [CasNum.p]. apply isEqual_pt_false. left. exact H. Qed.

Lemma isEqual_cnR_true (a b : R) : a = b -> CasNum.isEqual (cnR a) (cnR b) = true.
Proof. exact (eq_cnR_true a b). Qed.

Lemma isEqual_cnR_false (a b : R) : a <> b -> CasNum.isEqual (cnR a) (cnR b) = false.
Proof. exact (eq_cnR_false a b). Qed.

Lemma gt_cnR (a b : R) : CasNum.gt (cnR a) (cnR b) = Ok (Rltb b a).
Proof. reflexivity. Qed.

Lemma lt_cnR (a b : R) : CasNum.lt (cnR a) (cnR b) = Ok (Rltb a b).
Proof. reflexivity. Qed.

Lemma add_cnR (a b : R) : CasNum.add (cnR a) (cnR b) = Ok (cnR (a + b)).
Proof.
  unfold CasNum.add. change CasNum.zero with (cnR 0).
  destruct (Req_dec_T a 0) as [Za | NZa].
  { rewrite eq_cnR_true by exact Za. f_equal.
    change (CasNum.copy (cnR b)) with (cnR b). apply cnR_eq. lra. }
  rewrite (eq_cnR_false a 0) by exact NZa.
  destruct (Req_dec_T b 0) as [Zb | NZb].
  { rewrite eq_cnR_true by exact Zb. f_equal.
    change (CasNum.copy (cnR a)) with (cnR a). apply cnR_eq. lra. }
  rewrite (eq_cnR_false b 0) by exact NZb.
  destruct (Req_dec_T a b) as [E | NE].
  { rewrite eq_cnR_true by exact E. rewrite mul2_cnR. f_equal. apply cnR_eq. lra. }
  rewrite (eq_cnR_false a b) by exact NE.
  unfold CasNum.ALLOW_CONSTRUCT_CIRCLE_FROM_CENTER_AND_RADIUS. cbv iota.
  unfold Circle.get_circle, cnR. cbn [CasNum.p].
  change CasNum.origin with (pt 0 0). rewrite Point_dist_pt.
  assert (Hs : sqrt ((0 - b) * (0 - b) + (0 - 0) * (0 - 0)) = Rabs b).
  { replace ((0 - b) * (0 - b) + (0 - 0) * (0 - 0)) with (b * b) by ring.
    apply sqrt_sq_abs. }
  rewrite Hs.
  change (Point.init (Point.x (pt a 0) - Re (Rabs b))%sym (Point.y (pt a 0)))
    with (pt (a - Rabs b) 0).
  assert (Hb : 0 < Rabs b) by (apply Rabs_pos_lt; exact NZb).
  rewrite Circle_init_pt by (left; lra). bind_step.
  rewrite x_axis_ok. bind_step.
  rewrite (iwl_horizontal a 0 (a - Rabs b) 0 0 0 1 (Rabs b)).
  2:{ lra. }
  2:{ exact Hb. }
  2:{ ring. }
  bind_step. cbn [unpack2]. bind_step.
  unfold CasNum.gt. cbn [CasNum.p CasNum.zero pt Point.x].
  change (Point.x CasNum.origin) with (Re 0).
  unfold sym_gt.
  destruct (Rlt_or_le 0 b) as [P | N].
  - rewrite sym_lt_Re_true by exact P. bind_step.
    rewrite sym_lt_Re_true by lra. bind_step.
    f_equal. unfold cnR. f_equal. apply pt_eq; [rewrite Rabs_right by lra; lra | reflexivity].
  - rewrite sym_lt_Re_false by exact N. bind_step.
    rewrite sym_lt_Re_false by lra. bind_step.
    f_equal. unfold cnR. f_equal. apply pt_eq; [rewrite Rabs_left by lra; lra | reflexivity].
Qed.

Lemma sub_cnR (a b : R) : CasNum.sub (cnR a) (cnR b) = Ok (cnR (a - b)).
Proof.
  unfold CasNum.sub.
  destruct (Req_dec_T a b) as [E | NE].
  - rewrite isEqual_cnR_true by exact E. apply f_equal.
    change (CasNum.copy CasNum.zero) with (cnR 0). apply cnR_eq. lra.
  - rewrite isEqual_cnR_false by exact NE.
    rewrite neg_cnR. bind_step. rewrite add_cnR. reflexivity.
Qed.

Lemma abs_cnR (a : R) : CasNum.abs (cnR a) = Ok (cnR (Rabs a)).
Proof.
  unfold CasNum.abs. change CasNum.zero with (cnR 0). rewrite lt_cnR. bind_step.
  destruct (Rlt_or_le a 0) as [N | P].
  - rewrite Rltb_true by exact N. rewrite neg_cnR. f_equal. apply cnR_eq.
    rewrite Rabs_left by exact N. reflexivity.
  - rewrite Rltb_false by exact P. f_equal. apply cnR_eq.
    rewrite Rabs_right by lra. reflexivity.
Qed.

(** ** The arithmetic layer on integers *)

Lemma Rltb_IZR (x y : Z) : Rltb (IZR x) (IZR y) = (x <? y)%Z.
Proof.
  destruct (Z.ltb_spec x y) as [L | G].
  - apply Rltb_true. apply IZR_lt. exact L.
  - apply Rltb_false. apply IZR_le. exact G.
Qed.

Lemma Reqb_IZR (x y : Z) : Reqb (IZR x) (IZR y) = (x =? y)%Z.
Proof.
  destruct (Z.eqb_spec x y) as [E | N].
  - apply Reqb_true. congruence.
  - apply Reqb_false. intros H. apply eq_IZR in H. contradiction.
Qed.

Lemma isEqual_cn (x y : Z) : CasNum.isEqual (cn x) (cn y) = (x =? y)%Z.
Proof.
  unfold cn. destruct (Z.eqb_spec x y) as [E | N].
  - apply isEqual_cnR_true. congruence.
  - apply isEqual_cnR_false. intros H. apply eq_IZR in H. contradiction.
Qed.

Lemma eq_cn (x y : Z) : CasNum.eq (cn x) (cn y) = (x =? y)%Z.
Proof. exact (isEqual_cn x y). Qed.

Lemma gt_cn (x y : Z) : CasNum.gt (cn x) (cn y) = Ok (y <? x)%Z.
Proof. unfold cn. rewrite gt_cnR, Rltb_IZR. reflexivity. Qed.

Lemma lt_cn (x y : Z) : CasNum.lt (cn x) (cn y) = Ok (x <? y)%Z.
Proof. unfold cn. rewrite lt_cnR, Rltb_IZR. reflexivity. Qed.

Lemma ge_cn (x y : Z) : CasNum.ge (cn x) (cn y) = Ok (y <=? x)%Z.
Proof.
  unfold CasNum.ge. rewrite gt_cn. bind_step. rewrite isEqual_cn.
  destruct (Z.ltb_spec y x), (Z.eqb_spec x y), (Z.leb_spec y x);
    try reflexivity; lia.
Qed.

Lemma le_cn (x y : Z) : CasNum.le (cn x) (cn y) = Ok (x <=? y)%Z.
Proof. unfold CasNum.le. apply ge_cn. Qed.

Lemma add_cn (x y : Z) : CasNum.add (cn x) (cn y) = Ok (cn (x + y)).
Proof. unfold cn. rewrite add_cnR, plus_IZR. reflexivity. Qed.

Lemma sub_cn (x y : Z) : CasNum.sub (cn x) (cn y) = Ok (cn (x - y)).
Proof. unfold cn. rewrite sub_cnR, minus_IZR. reflexivity. Qed.

Lemma neg_cn (x : Z) : CasNum.neg (cn x) = Ok (cn (- x)).
Proof. unfold cn. rewrite neg_cnR, opp_IZR. reflexivity. Qed.

Lemma abs_cn (x : Z) : CasNum.abs (cn x) = Ok (cn (Z.abs x)).
Proof. unfold cn. rewrite abs_cnR, abs_IZR. reflexivity. Qed.

Lemma mul2_cn (x : Z) : CasNum.mul2 (cn x) = Ok (cn (2 * x)).
Proof. unfold cn. rewrite mul2_cnR, mult_IZR. reflexivity. Qed.

Lemma zero_cn : CasNum.zero = cn 0.
Proof. reflexivity. Qed.

Lemma one_cn : CasNum.one = cn 1.
Proof. reflexivity. Qed.

Lemma copy_cn (x : Z) : CasNum.copy (cn x) = cn x.
Proof. reflexivity. Qed.

(** *** [double_until_gt] *)

(** With [strict=True] the loop doubles [b] until it is no smaller than
    [a]: it returns the least b * 2^j that is >= a. *)
Lemma double_until_gt_loop_cn (n : nat) :
  forall (k : nat) (a b : Z),
    (0 < b)%Z -> (a <= b * 2 ^ Z.of_nat n)%Z -> (n < k)%nat ->
    exists j : nat,
      CasNum.double_until_gt_loop k (cn a) (cn b) true
      = Ok (cn (b * 2 ^ Z.of_nat j))
      /\ (a <= b * 2 ^ Z.of_nat j)%Z
      /\ (j = O \/ (b * 2 ^ Z.of_nat (j - 1) < a)%Z).
Proof.
  induction n as [| n IH]; intros k a b Hb Ha Hk.
  - destruct k as [| k]; [lia |].
    exists O. cbn [CasNum.double_until_gt_loop].
    rewrite gt_cn. bind_step.
    change (Z.of_nat 0) with 0%Z in *. rewrite Z.pow_0_r, Z.mul_1_r in *.
    destruct (Z.ltb_spec b a) as [L | G]; [lia |].
    cbn [negb andb orb]. repeat split; auto.
  - destruct k as [| k]; [lia |].
    cbn [CasNum.double_until_gt_loop].
    rewrite gt_cn. bind_step.
    destruct (Z.ltb_spec b a) as [L | G].
    + cbn [negb andb orb]. rewrite mul2_cn. bind_step.
      destruct (IH k a (2 * b)%Z) as [j [E [H1 H2]]].
      * lia.
      * rewrite Nat2Z.inj_succ, Z.pow_succ_r in Ha by lia. lia.
      * lia.
      * exists (S j). rewrite E.
        rewrite Nat2Z.inj_succ, Z.pow_succ_r by lia.
        split; [f_equal; f_equal; ring |].
        split; [lia |].
        right. replace (S j - 1)%nat with j by lia.
        destruct H2 as [-> | H2].
        -- change (Z.of_nat 0) with 0%Z. lia.
        -- destruct j as [| j'].
           ++ change (Z.of_nat 0) with 0%Z in *. cbn [Nat.sub] in H2.
              change (Z.of_nat 0) with 0%Z in *. lia.
           ++ replace (S j' - 1)%nat with j' in H2 by lia.
              rewrite Nat2Z.inj_succ, Z.pow_succ_r by lia. lia.
    + cbn [negb andb orb]. exists O.
      change (Z.of_nat 0) with 0%Z. rewrite Z.pow_0_r, Z.mul_1_r.
      repeat split; auto.
Qed.

Lemma pow2_ge (n : nat) : (Z.of_nat n <= 2 ^ Z.of_nat n)%Z.
Proof.
  induction n as [| n IH].
  - cbn. lia.
  - rewrite Nat2Z.inj_succ, Z.pow_succ_r by lia. lia.
Qed.

Lemma double_until_gt_cn (fuel : nat) (a b : Z) :
  (0 < b)%Z -> (Z.abs a < Z.of_nat fuel)%Z ->
  exists j : nat,
    CasNum.double_until_gt fuel (cn a) (cn b) true
    = Ok (cn (b * 2 ^ Z.of_nat j))
    /\ (a <= b * 2 ^ Z.of_nat j)%Z
    /\ (j = O \/ (b * 2 ^ Z.of_nat (j - 1) < a)%Z).
Proof.
  intros Hb Hf. unfold CasNum.double_until_gt. rewrite copy_cn.
  apply (double_until_gt_loop_cn (Z.to_nat (Z.abs a))); [exact Hb | | lia].
  rewrite Z2Nat.id by lia.
  pose proof (pow2_ge (Z.to_nat (Z.abs a))) as P. rewrite Z2Nat.id in P by lia.
  nia.
Qed.

(** *** [__mod__] *)

Lemma mod_loop_cn (fuel : nat) :
  forall (k : nat) (r B : Z),
    (0 < B)%Z -> (Z.abs r < Z.of_nat k)%Z -> (Z.abs r < Z.of_nat fuel)%Z ->
    exists r' : Z,
      CasNum.mod_loop fuel k (cn r) (cn B) = Ok (cn r')
      /\ (Z.abs r' < B)%Z /\ exists q : Z, r = (r' + q * B)%Z.
Proof.
  induction k as [| k IH]; intros r B HB Hk Hf; [lia |].
  cbn [CasNum.mod_loop].
  rewrite abs_cn. bind_step. rewrite ge_cn. bind_step.
  destruct (Z.leb_spec B (Z.abs r)) as [G | L]; cbv iota.
  - bind_step.
    destruct (double_until_gt_cn fuel (Z.abs r) B HB) as [j [E [H1 H2]]].
    { lia. }
    rewrite E. bind_step. rewrite zero_cn, gt_cn. bind_step.
    set (T := (B * 2 ^ Z.of_nat j)%Z) in *.
    assert (HT : (Z.abs r <= T /\ (T = B \/ 2 * Z.abs r > T))%Z).
    { split; [exact H1 |]. destruct H2 as [-> | H2].
      - left. unfold T. change (Z.of_nat 0) with 0%Z. rewrite Z.pow_0_r. lia.
      - right. destruct j as [| j'].
        + unfold T. change (Z.of_nat 0) with 0%Z. rewrite Z.pow_0_r. lia.
        + replace (S j' - 1)%nat with j' in H2 by lia.
          unfold T. rewrite Nat2Z.inj_succ, Z.pow_succ_r by lia. lia. }
    destruct (Z.ltb_spec 0 r) as [P | N]; cbv iota.
    + rewrite sub_cn. bind_step.
      destruct (IH (r - T)%Z B HB) as [r' [E' [A1 [q A2]]]]; [lia | lia |].
      exists r'. rewrite E'. split; [reflexivity |]. split; [exact A1 |].
      exists (q + 2 ^ Z.of_nat j)%Z. unfold T in *. lia.
    + rewrite add_cn. bind_step.
      destruct (IH (r + T)%Z B HB) as [r' [E' [A1 [q A2]]]]; [lia | lia |].
      exists r'. rewrite E'. split; [reflexivity |]. split; [exact A1 |].
      exists (q - 2 ^ Z.of_nat j)%Z. unfold T in *. lia.
  - exists r. split; [reflexivity |]. split; [exact L |]. exists 0%Z. lia.
Qed.

(** [a % b] is Python's remainder, with the sign of the divisor. *)
Lemma mod_cn (fuel : nat) (a b : Z) :
  b <> 0%Z -> (Z.abs a < Z.of_nat fuel)%Z ->
  CasNum.mod_ fuel (cn a) (cn b) = Ok (cn (a mod b)).
Proof.
  intros Hb Hf. unfold CasNum.mod_.
  rewrite zero_cn, isEqual_cn.
  destruct (Z.eqb_spec b 0) as [E | _]; [contradiction |]. cbv iota.
  rewrite abs_cn. bind_step. rewrite copy_cn.
  destruct (mod_loop_cn fuel fuel a (Z.abs b)) as [r [E [A1 [q A2]]]]; [lia | lia | lia |].
  rewrite E. bind_step. rewrite lt_cn. bind_step.
  destruct (Z.ltb_spec b 0) as [N | P]; cbv iota.
  - rewrite gt_cn. bind_step.
    destruct (Z.ltb_spec 0 r) as [Pr | Nr]; cbn [andb]; cbv iota.
    + rewrite sub_cn. f_equal. f_equal.
      apply Z.mod_unique with (q := (- q - 1)%Z); [right; lia |].
      rewrite A2. replace (Z.abs b) with (- b)%Z by lia. ring.
    + rewrite gt_cn. bind_step.
      destruct (Z.ltb_spec 0 b) as [X | _]; [lia |]. cbv iota. bind_step. cbn [andb]. cbv iota.
      f_equal. f_equal.
      apply Z.mod_unique with (q := (- q)%Z); [right; lia |].
      rewrite A2. replace (Z.abs b) with (- b)%Z by lia. ring.
  - bind_step. cbn [andb]. cbv iota. rewrite gt_cn. bind_step.
    destruct (Z.ltb_spec 0 b) as [Pb | X]; [| lia]. cbv iota.
    rewrite lt_cn. bind_step.
    destruct (Z.ltb_spec r 0) as [Nr | Pr]; cbn [andb]; cbv iota.
    + rewrite add_cn. f_equal. f_equal.
      apply Z.mod_unique with (q := (q - 1)%Z); [left; lia |].
      rewrite A2. replace (Z.abs b) with b by lia. ring.
    + f_equal. f_equal.
      apply Z.mod_unique with (q := q); [left; lia |].
      rewrite A2. replace (Z.abs b) with b by lia. ring.
Qed.

Lemma mod_by_zero (fuel : nat) (self other : CasNum.t) :
  CasNum.isEqual other CasNum.zero = true ->
  CasNum.mod_ fuel self other = Raise (ValueError "Cannot taking modulo by zero").
Proof. intros H. unfold CasNum.mod_. rewrite H. reflexivity. Qed.

Lemma Ok_cn_eq (x y : Z) : x = y -> @Ok CasNum.t (cn x) = Ok (cn y).
Proof. intros ->. reflexivity. Qed.

(** *** [__lshift__] *)

Lemma lshift_loop_cn (k : nat) :
  forall a : Z,
    CasNum.lshift_loop k (cn a) = Ok (cn (a * 2 ^ Z.of_nat k)).
Proof.
  induction k as [| k IH]; intros a.
  - cbn [CasNum.lshift_loop]. change (Z.of_nat 0) with 0%Z.
    rewrite Z.pow_0_r, Z.mul_1_r. reflexivity.
  - cbn [CasNum.lshift_loop]. rewrite mul2_cn. bind_step. rewrite IH.
    rewrite Nat2Z.inj_succ, Z.pow_succ_r by lia.
    apply Ok_cn_eq. ring.
Qed.

(** X20: [a << i] multiplies by [2^i]; a count that is not positive
    leaves [a] as it is. *)
Theorem lshift_is_shiftl (a i : Z) :
  CasNum.lshift (cn a) i = Ok (cn (Z.shiftl a (Z.max 0 i))).
Proof.
  unfold CasNum.lshift. rewrite copy_cn, lshift_loop_cn.
  rewrite Z.shiftl_mul_pow2 by lia.
  apply Ok_cn_eq. f_equal. lia.
Qed.

(** *** [get_n] *)

Lemma get_n_loop_cn (q : positive) :
  forall r c : Z,
    CasNum.get_n_loop (CasNum.pos_bits q) (cn r) (cn c)
    = Ok (cn (r + c * Z.pos q)).
Proof.
  induction q as [q IH | q IH |]; intros r c; cbn [CasNum.pos_bits CasNum.get_n_loop].
  - rewrite add_cn. bind_step. rewrite mul2_cn. bind_step. rewrite IH.
    apply Ok_cn_eq. lia.
  - bind_step. rewrite mul2_cn. bind_step. rewrite IH.
    apply Ok_cn_eq. lia.
  - rewrite add_cn. bind_step. rewrite mul2_cn. bind_step.
    apply Ok_cn_eq. lia.
Qed.

Lemma get_n_cn (n : Z) : CasNum.get_n n = Ok (cn n).
Proof.
  unfold CasNum.get_n.
  change (CasNum.copy CasNum.zero) with (cn 0).
  change (CasNum.mk CasNum.unit) with (cn 1).
  destruct n as [| q | q]; cbn [CasNum.bin_rev Z.ltb Z.compare].
  - cbn [CasNum.get_n_loop]. bind_step. rewrite mul2_cn; reflexivity.
  - rewrite get_n_loop_cn. bind_step. apply Ok_cn_eq. lia.
  - rewrite get_n_loop_cn. bind_step. rewrite neg_cn. apply Ok_cn_eq. lia.
Qed.

(** *** [generate_n] and [from_num] *)

Lemma generate_n_loop_pt (k : nat) :
  forall i : R,
    cas_utils.generate_n_loop k (line_of 0 0 1 0) (pt (i + 1) 0) (pt i 0)
    = Ok (pt (i + INR k) 0).
Proof.
  induction k as [| k IH]; intros i.
  - cbn [cas_utils.generate_n_loop INR]. f_equal. apply pt_eq; lra.
  - cbn [cas_utils.generate_n_loop].
    rewrite Circle_init_pt by (left; lra). bind_step.
    rewrite (iwl_horizontal (i + 1) 0 i 0 0 0 1 1) by (try lra; ring).
    bind_step. cbn [unpack2]. bind_step.
    rewrite isEqual_pt_false by (left; lra).
    rewrite IH. f_equal. apply pt_eq; [| reflexivity].
    rewrite S_INR. lra.
Qed.

Lemma generate_n_pt (n : Z) :
  (0 <= n)%Z ->
  cas_utils.generate_n n (pt 0 0) (pt 1 0) = Ok (pt (IZR n) 0).
Proof.
  intros Hn. unfold cas_utils.generate_n.
  rewrite Line_init_pt by (left; lra). bind_step.
  replace (pt 1 0) with (pt (0 + 1) 0) by (apply pt_eq; lra).
  rewrite generate_n_loop_pt. f_equal. apply pt_eq; [| reflexivity].
  rewrite INR_IZR_INZ, Z2Nat.id by exact Hn. lra.
Qed.

(** X23: [CasNum.from_num n] is the number [n] for every
    non-negative integer. *)
Theorem from_num_represents (n : Z) : (0 <= n)%Z -> CasNum.from_num n = Ok (cn n).
Proof.
  intros Hn. unfold CasNum.from_num.
  destruct (Z.gtb_spec n 0) as [P | N].
  - change CasNum.origin with (pt 0 0). change CasNum.unit with (pt 1 0).
    rewrite generate_n_pt by exact Hn. reflexivity.
  - assert (n = 0%Z) by lia. subst n. reflexivity.
Qed.

(** *** [gcd] *)

Lemma gcd_loop_cn (fuel : nat) :
  forall (k : nat) (a b : Z),
    (Z.abs b < Z.of_nat k)%Z ->
    (Z.abs a < Z.of_nat fuel)%Z -> (Z.abs b < Z.of_nat fuel)%Z ->
    CasNum.gcd_loop fuel k (cn a) (cn b) = Ok (cn (Z.gcd a b)).
Proof.
  induction k as [| k IH]; intros a b Hk Ha Hb; [lia |].
  cbn [CasNum.gcd_loop]. rewrite zero_cn, isEqual_cn.
  destruct (Z.eqb_spec b 0) as [E | N]; cbn [negb]; cbv iota.
  - rewrite abs_cn. subst b. rewrite Z.gcd_0_r. reflexivity.
  - rewrite mod_cn by assumption. bind_step.
    assert (M : (Z.abs (a mod b) < Z.abs b)%Z).
    { destruct (Z_lt_le_dec 0 b).
      - pose proof (Z.mod_pos_bound a b). lia.
      - pose proof (Z.mod_neg_bound a b). lia. }
    rewrite IH by lia.
    apply Ok_cn_eq.
    rewrite Z.gcd_comm, Z.gcd_mod by exact N. apply Z.gcd_comm.
Qed.

(** X21: [CasNum.gcd] is the greatest common divisor, non-negative for
    all signs of the arguments. *)
Theorem gcd_is_gcd (fuel : nat) (a b : Z) :
  (Z.abs a < Z.of_nat fuel)%Z -> (Z.abs b < Z.of_nat fuel)%Z ->
  CasNum.gcd fuel (cn a) (cn b) = Ok (cn (Z.gcd a b)).
Proof.
  intros Ha Hb. unfold CasNum.gcd. rewrite !copy_cn.
  apply gcd_loop_cn; assumption.
Qed.

(** ** Line and line *)

(** Two real lines that are not parallel meet in their common point. *)
Lemma line_intersection_pt (a b c d a' b' c' d' x y : R) :
  (b - d) * (c' - a') - (c - a) * (b' - d') <> 0 ->
  (b - d) * x + (c - a) * y + (a * d - c * b) = 0 ->
  (b' - d') * x + (c' - a') * y + (a' * d' - c' * b') = 0 ->
  Line.get_intersection (line_of a b c d) (line_of a' b' c' d') = Ok (pt x y).
Proof.
  intros Hdet H1 H2. unfold Line.get_intersection, line_of.
  cbn [Line.A Line.B Line.C sym_mul sym_sub sym_eqb sym_neg sym_add].
  rewrite Reqb_false by exact Hdet.
  rewrite sym_inv_Re by exact Hdet.
  cbn [sym_mul]. unfold Point.init. f_equal. apply pt_eq.
  - apply Rmult_eq_reg_l with ((b - d) * (c' - a') - (c - a) * (b' - d')); [| exact Hdet].
    rewrite <- Rmult_assoc, Rinv_r by exact Hdet.
    replace (a * d - c * b) with (- ((b - d) * x + (c - a) * y)) by lra.
    replace (a' * d' - c' * b') with (- ((b' - d') * x + (c' - a') * y)) by lra.
    ring.
  - apply Rmult_eq_reg_l with ((b - d) * (c' - a') - (c - a) * (b' - d')); [| exact Hdet].
    rewrite <- Rmult_assoc, Rinv_r by exact Hdet.
    replace (a * d - c * b) with (- ((b - d) * x + (c - a) * y)) by lra.
    replace (a' * d' - c' * b') with (- ((b' - d') * x + (c' - a') * y)) by lra.
    ring.
Qed.

(** ** Perpendicular bisector and midpoint *)

Lemma sqrt3_sq : sqrt 3 * sqrt 3 = 3.
Proof. apply sqrt_sqrt. lra. Qed.

Lemma sqrt3_pos : 0 < sqrt 3.
Proof. apply sqrt_lt_R0. lra. Qed.

Lemma sqrt3_gt1 : 1 < sqrt 3.
Proof.
  pose proof sqrt3_sq. pose proof sqrt3_pos.
  destruct (Rlt_or_le 1 (sqrt 3)) as [L | G]; [exact L | exfalso]. nra.
Qed.

(** The bisector of a segment from (a1, b1) rightwards to (a2, b2) is the
    line through the apexes of the two equilateral triangles on it, the
    upper apex first. *)
Lemma bisector_rightwards (a1 b1 a2 b2 : R) :
  let X1 := (a1 + a2) / 2 - sqrt 3 / 2 * (b2 - b1) in
  let Y1 := (b1 + b2) / 2 + sqrt 3 / 2 * (a2 - a1) in
  let X2 := (a1 + a2) / 2 + sqrt 3 / 2 * (b2 - b1) in
  let Y2 := (b1 + b2) / 2 - sqrt 3 / 2 * (a2 - a1) in
  a1 < a2 -> tol <= sqrt 3 * (a2 - a1) ->
  sel_ok X1 a1 a2 -> sel_ok X2 a1 a2 ->
  cas_utils.get_perpendicular_bisector (line_of a1 b1 a2 b2)
  = Ok (line_of X1 Y1 X2 Y2).
Proof.
  intros X1 Y1 X2 Y2 Hlt Hfar S1 S2.
  pose proof sqrt3_sq as H3. pose proof sqrt3_pos as H3p.
  unfold cas_utils.get_perpendicular_bisector.
  change (Line.p1 (line_of a1 b1 a2 b2)) with (pt a1 b1).
  change (Line.p2 (line_of a1 b1 a2 b2)) with (pt a2 b2).
  rewrite !Circle_init_pt by (left; lra). bind_step. bind_step.
  unfold Circle.intersect.
  rewrite (cc_far a1 b1 a2 b2 a2 b2 a1 b1 X1 Y1 X2 Y2).
  - bind_step. cbn [star2]. bind_step.
    apply Line_init_pt. right. unfold Y1, Y2. nra.
  - unfold X1, Y1. field [H3].
  - unfold X1, Y1. field [H3].
  - unfold X2, Y2. field [H3].
  - unfold X2, Y2. field [H3].
  - unfold X1, Y1.
    replace ((a2 - a1) * ((a2 - a1) * ((b1 + b2) / 2 + sqrt 3 / 2 * (a2 - a1) - b1)
              - (b2 - b1) * ((a1 + a2) / 2 - sqrt 3 / 2 * (b2 - b1) - a1)))
      with (sqrt 3 / 2 * (a2 - a1) * ((a2 - a1) * (a2 - a1) + (b2 - b1) * (b2 - b1))) by field.
    apply Rmult_le_pos; [nra | apply sum_sq_nonneg].
  - unfold X1, Y1.
    replace ((a2 - a1) * ((b1 + b2) / 2 + sqrt 3 / 2 * (a2 - a1) - b1)
              - (b2 - b1) * ((a1 + a2) / 2 - sqrt 3 / 2 * (b2 - b1) - a1))
      with (sqrt 3 / 2 * ((a2 - a1) * (a2 - a1) + (b2 - b1) * (b2 - b1))) by field.
    assert (0 < (a2 - a1) * (a2 - a1) + (b2 - b1) * (b2 - b1)) by (apply sum_sq_pos; left; lra).
    nra.
  - unfold X2, Y2.
    replace ((a2 - a1) * ((a2 - a1) * ((b1 + b2) / 2 - sqrt 3 / 2 * (a2 - a1) - b1)
              - (b2 - b1) * ((a1 + a2) / 2 + sqrt 3 / 2 * (b2 - b1) - a1)))
      with (- (sqrt 3 / 2 * (a2 - a1) * ((a2 - a1) * (a2 - a1) + (b2 - b1) * (b2 - b1)))) by field.
    assert (0 <= sqrt 3 / 2 * (a2 - a1) * ((a2 - a1) * (a2 - a1) + (b2 - b1) * (b2 - b1))).
    { apply Rmult_le_pos; [nra | apply sum_sq_nonneg]. }
    lra.
  - unfold Y1, Y2. lra.
  - exact S1.
  - exact S2.
Qed.

(** The same for a segment drawn leftwards. *)
Lemma bisector_leftwards (a1 b1 a2 b2 : R) :
  let X1 := (a1 + a2) / 2 + sqrt 3 / 2 * (b2 - b1) in
  let Y1 := (b1 + b2) / 2 + sqrt 3 / 2 * (a1 - a2) in
  let X2 := (a1 + a2) / 2 - sqrt 3 / 2 * (b2 - b1) in
  let Y2 := (b1 + b2) / 2 - sqrt 3 / 2 * (a1 - a2) in
  a2 < a1 -> tol <= sqrt 3 * (a1 - a2) ->
  sel_ok X1 a1 a2 -> sel_ok X2 a1 a2 ->
  cas_utils.get_perpendicular_bisector (line_of a1 b1 a2 b2)
  = Ok (line_of X1 Y1 X2 Y2).
Proof.
  intros X1 Y1 X2 Y2 Hlt Hfar S1 S2.
  pose proof sqrt3_sq as H3. pose proof sqrt3_pos as H3p.
  unfold cas_utils.get_perpendicular_bisector.
  change (Line.p1 (line_of a1 b1 a2 b2)) with (pt a1 b1).
  change (Line.p2 (line_of a1 b1 a2 b2)) with (pt a2 b2).
  rewrite !Circle_init_pt by (left; lra). bind_step. bind_step.
  unfold Circle.intersect.
  rewrite (cc_far a1 b1 a2 b2 a2 b2 a1 b1 X1 Y1 X2 Y2).
  - bind_step. cbn [star2]. bind_step.
    apply Line_init_pt. right. unfold Y1, Y2. nra.
  - unfold X1, Y1. field [H3].
  - unfold X1, Y1. field [H3].
  - unfold X2, Y2. field [H3].
  - unfold X2, Y2. field [H3].
  - unfold X1, Y1.
    replace ((a2 - a1) * ((a2 - a1) * ((b1 + b2) / 2 + sqrt 3 / 2 * (a1 - a2) - b1)
              - (b2 - b1) * ((a1 + a2) / 2 + sqrt 3 / 2 * (b2 - b1) - a1)))
      with (sqrt 3 / 2 * (a1 - a2) * ((a2 - a1) * (a2 - a1) + (b2 - b1) * (b2 - b1))) by field.
    apply Rmult_le_pos; [nra | apply sum_sq_nonneg].
  - unfold X1, Y1.
    replace ((a2 - a1) * ((b1 + b2) / 2 + sqrt 3 / 2 * (a1 - a2) - b1)
              - (b2 - b1) * ((a1 + a2) / 2 + sqrt 3 / 2 * (b2 - b1) - a1))
      with (- (sqrt 3 / 2 * ((a2 - a1) * (a2 - a1) + (b2 - b1) * (b2 - b1)))) by field.
    assert (0 < (a2 - a1) * (a2 - a1) + (b2 - b1) * (b2 - b1)) by (apply sum_sq_pos; left; lra).
    nra.
  - unfold X2, Y2.
    replace ((a2 - a1) * ((a2 - a1) * ((b1 + b2) / 2 - sqrt 3 / 2 * (a1 - a2) - b1)
              - (b2 - b1) * ((a1 + a2) / 2 - sqrt 3 / 2 * (b2 - b1) - a1)))
      with (- (sqrt 3 / 2 * (a1 - a2) * ((a2 - a1) * (a2 - a1) + (b2 - b1) * (b2 - b1)))) by field.
    assert (0 <= sqrt 3 / 2 * (a1 - a2) * ((a2 - a1) * (a2 - a1) + (b2 - b1) * (b2 - b1))).
    { apply Rmult_le_pos; [nra | apply sum_sq_nonneg]. }
    lra.
  - unfold Y1, Y2. lra.
  - exact S1.
  - exact S2.
Qed.

(** The bisector of a vertical segment is found without any condition: the
    two ordinates coincide and both abscissas come from the first circle. *)
Lemma bisector_vertical (a b1 b2 : R) :
  b1 <> b2 ->
  cas_utils.get_perpendicular_bisector (line_of a b1 a b2)
  = Ok (line_of (a + sqrt 3 / 2 * Rabs (b2 - b1)) ((b1 + b2) / 2)
                (a - sqrt 3 / 2 * Rabs (b2 - b1)) ((b1 + b2) / 2)).
Proof.
  intros Hne.
  pose proof sqrt3_sq as H3. pose proof sqrt3_pos as H3p. pose proof tol_pos as Ht.
  assert (Hv : 0 < Rabs (b2 - b1)) by (apply Rabs_pos_lt; lra).
  assert (Hvv : Rabs (b2 - b1) * Rabs (b2 - b1) = (b2 - b1) * (b2 - b1)) by apply Rabs_sq.
  unfold cas_utils.get_perpendicular_bisector.
  change (Line.p1 (line_of a b1 a b2)) with (pt a b1).
  change (Line.p2 (line_of a b1 a b2)) with (pt a b2).
  rewrite !Circle_init_pt by (right; lra). bind_step. bind_step.
  unfold Circle.intersect.
  rewrite (cc_near a b1 a b2 a b2 a b1
             (a + sqrt 3 / 2 * Rabs (b2 - b1)) ((b1 + b2) / 2)
             (a - sqrt 3 / 2 * Rabs (b2 - b1)) ((b1 + b2) / 2)).
  - bind_step. cbn [star2]. bind_step.
    replace (a + sqrt 3 / 2 * Rabs (b2 - b1) - a) with (sqrt 3 / 2 * Rabs (b2 - b1)) by ring.
    rewrite (Rabs_right (sqrt 3 / 2 * Rabs (b2 - b1))) by nra.
    apply Line_init_pt. left. nra.
  - replace ((a + sqrt 3 / 2 * Rabs (b2 - b1) - a) * (a + sqrt 3 / 2 * Rabs (b2 - b1) - a))
      with (sqrt 3 * sqrt 3 / 4 * (Rabs (b2 - b1) * Rabs (b2 - b1))) by field.
    rewrite H3, Hvv. field.
  - replace ((a + sqrt 3 / 2 * Rabs (b2 - b1) - a) * (a + sqrt 3 / 2 * Rabs (b2 - b1) - a))
      with (sqrt 3 * sqrt 3 / 4 * (Rabs (b2 - b1) * Rabs (b2 - b1))) by field.
    rewrite H3, Hvv. field.
  - replace ((a - sqrt 3 / 2 * Rabs (b2 - b1) - a) * (a - sqrt 3 / 2 * Rabs (b2 - b1) - a))
      with (sqrt 3 * sqrt 3 / 4 * (Rabs (b2 - b1) * Rabs (b2 - b1))) by field.
    rewrite H3, Hvv. field.
  - replace ((a - sqrt 3 / 2 * Rabs (b2 - b1) - a) * (a - sqrt 3 / 2 * Rabs (b2 - b1) - a))
      with (sqrt 3 * sqrt 3 / 4 * (Rabs (b2 - b1) * Rabs (b2 - b1))) by field.
    rewrite H3, Hvv. field.
  - replace (a - a) with 0 by ring. lra.
  - replace (a - a) with 0 by ring.
    intros N.
    assert (E : (b2 - b1) * (sqrt 3 / 2 * Rabs (b2 - b1)) = 0) by lra.
    apply Rmult_integral in E. destruct E as [E | E]; [lra | nra].
  - replace (a - a) with 0 by ring. lra.
  - replace ((b1 + b2) / 2 - (b1 + b2) / 2) with 0 by ring. rewrite Rabs_R0. exact Ht.
Qed.

(** The midpoint of a horizontal segment of length at least the tolerance. *)
Lemma midpoint_horizontal (a1 a2 b : R) :
  tol <= Rabs (a2 - a1) ->
  cas_utils.get_midpoint (line_of a1 b a2 b) = Ok (pt ((a1 + a2) / 2) b).
Proof.
  intros Hlen.
  pose proof sqrt3_sq as H3. pose proof sqrt3_pos as H3p. pose proof sqrt3_gt1 as H31.
  pose proof tol_pos as Ht.
  unfold cas_utils.get_midpoint. unfold Line.intersect.
  destruct (Rlt_or_le a1 a2) as [L | G].
  - rewrite Rabs_right in Hlen by lra.
    rewrite bisector_rightwards.
    + bind_step. apply line_intersection_pt.
      * assert (0 < sqrt 3 * ((a2 - a1) * (a2 - a1))) by (apply Rmult_lt_0_compat; nra).
        match goal with
        | |- ?l <> 0 => replace l with (- (sqrt 3 * ((a2 - a1) * (a2 - a1)))) by field
        end.
        lra.
      * field.
      * field.
    + exact L.
    + nra.
    + right. replace (b - b) with 0 by ring. split.
      * lra.
      * rewrite Rabs_left by lra. lra.
    + right. replace (b - b) with 0 by ring. split.
      * lra.
      * rewrite Rabs_left by lra. lra.
  - assert (a2 < a1).
    { destruct G as [G | G]; [exact G | exfalso].
      subst a2. replace (a1 - a1) with 0 in Hlen by ring. rewrite Rabs_R0 in Hlen. lra. }
    rewrite Rabs_left in Hlen by lra.
    rewrite bisector_leftwards.
    + bind_step. apply line_intersection_pt.
      * assert (0 < sqrt 3 * ((a2 - a1) * (a2 - a1))) by (apply Rmult_lt_0_compat; nra).
        match goal with
        | |- ?l <> 0 => replace l with (sqrt 3 * ((a2 - a1) * (a2 - a1))) by field
        end.
        lra.
      * field.
      * field.
    + assumption.
    + nra.
    + left. replace (b - b) with 0 by ring. lra.
    + left. replace (b - b) with 0 by ring. lra.
Qed.

Lemma half_on_x_axis (x : R) :
  x = 0 \/ tol <= Rabs x ->
  cas_utils.half_point_on_x_axis (pt 0 0) (pt x 0) = Ok (pt (x / 2) 0).
Proof.
  intros H. unfold cas_utils.half_point_on_x_axis.
  destruct (Req_dec_T x 0) as [Z | NZ].
  - rewrite isEqual_pt_true by lra. f_equal. apply pt_eq; lra.
  - destruct H as [H | H]; [contradiction |].
    rewrite isEqual_pt_false by (left; exact NZ).
    rewrite Line_init_pt by (left; lra). bind_step.
    rewrite midpoint_horizontal.
    + f_equal. apply pt_eq; lra.
    + replace (x - 0) with x by ring. exact H.
Qed.

Lemma tol_lt_1 : tol < 1.
Proof.
  unfold tol.
  assert (H : 1 < 10 ^ 20) by (apply Rlt_pow_R1; [lra | lia]).
  rewrite <- Rinv_1.
  apply Rinv_lt_contravar; lra.
Qed.

(** Halving an even integer on the x-axis. *)
Lemma half_cn (q : Z) :
  cas_utils.half_point_on_x_axis CasNum.origin (CasNum.p (cn (2 * q)))
  = Ok (CasNum.p (cn q)).
Proof.
  change CasNum.origin with (pt 0 0).
  change (CasNum.p (cn (2 * q))) with (pt (IZR (2 * q)) 0).
  change (CasNum.p (cn q)) with (pt (IZR q) 0).
  rewrite half_on_x_axis.
  - f_equal. apply pt_eq; [| reflexivity]. rewrite mult_IZR. field.
  - destruct (Z.eq_dec q 0) as [Z | NZ].
    + left. subst q. reflexivity.
    + right. pose proof tol_lt_1.
      rewrite <- abs_IZR.
      assert (1 <= IZR (Z.abs (2 * q))) by (apply IZR_le; lia).
      lra.
Qed.

Lemma rshift_loop_cn (fuel : nat) (k : nat) :
  forall a : Z,
    (Z.abs a < Z.of_nat fuel)%Z ->
    CasNum.rshift_loop fuel k (cn 2) (cn a) = Ok (cn (a / 2 ^ Z.of_nat k)).
Proof.
  induction k as [| k IH]; intros a Hf.
  - cbn [CasNum.rshift_loop]. apply Ok_cn_eq. cbn. rewrite Z.div_1_r. reflexivity.
  - cbn [CasNum.rshift_loop].
    rewrite mod_cn by (lia || assumption). bind_step.
    rewrite zero_cn, isEqual_cn.
    pose proof (Z.div_mod a 2 ltac:(lia)) as Hdm.
    pose proof (Z.mod_pos_bound a 2 ltac:(lia)) as Hb.
    assert (Hpow : (a / 2 ^ Z.of_nat (S k) = (a / 2) / 2 ^ Z.of_nat k)%Z).
    { rewrite Nat2Z.inj_succ, Z.pow_succ_r by lia.
      rewrite Z.div_div by (try lia; apply Z.pow_pos_nonneg; lia). reflexivity. }
    assert (Hq : (Z.abs (a / 2) < Z.of_nat fuel)%Z) by lia.
    destruct (Z.eqb_spec (a mod 2) 0) as [E | N].
    + bind_step.
      replace a with (2 * (a / 2))%Z at 1 by lia.
      rewrite half_cn. bind_step.
      change (CasNum.mk (CasNum.p (cn (a / 2)))) with (cn (a / 2)).
      rewrite IH by exact Hq. apply Ok_cn_eq. symmetry. exact Hpow.
    + rewrite one_cn, sub_cn. bind_step.
      replace (a - 1)%Z with (2 * (a / 2))%Z by lia.
      rewrite half_cn. bind_step.
      change (CasNum.mk (CasNum.p (cn (a / 2)))) with (cn (a / 2)).
      rewrite IH by exact Hq. apply Ok_cn_eq. symmetry. exact Hpow.
Qed.

(** [a >> i] on an integer is Python's arithmetic shift (rounding down),
    and a non-positive count leaves the number as it is. *)
Lemma rshift_cn (fuel : nat) (a i : Z) :
  (Z.abs a < Z.of_nat fuel)%Z ->
  CasNum.rshift fuel (cn a) i = Ok (cn (Z.shiftr a (Z.max 0 i))).
Proof.
  intros Hf. unfold CasNum.rshift. rewrite copy_cn, get_n_cn. bind_step.
  rewrite rshift_loop_cn by exact Hf. apply Ok_cn_eq.
  rewrite Z.shiftr_div_pow2 by lia.
  f_equal. f_equal. lia.
Qed.

(** ** Constructors on coincident points *)

Lemma Line_init_same (a b : R) :
  Line.init (pt a b) (pt a b)
  = Raise (ValueError "Line Ax+By+C = 0 must have non-zero A or B").
Proof.
  unfold Line.init, pt. cbn [Point.x Point.y sym_sub sym_eqb].
  rewrite !Reqb_true by lra. reflexivity.
Qed.

(** [Line] accepts two real points exactly when they differ. *)
Lemma Line_init_ok_iff (a b c d : R) :
  (exists l, Line.init (pt a b) (pt c d) = Ok l) <-> (a <> c \/ b <> d).
Proof.
  split.
  - intros [l H].
    destruct (Req_dec_T a c) as [E1 | N1]; [| left; exact N1].
    destruct (Req_dec_T b d) as [E2 | N2]; [| right; exact N2].
    subst c d. rewrite Line_init_same in H. discriminate H.
  - intros H. exists (line_of a b c d). apply Line_init_pt. exact H.
Qed.

Lemma Circle_init_same (a b : R) :
  Circle.init (pt a b) (pt a b)
  = Raise (ValueError "Circle must pass through a point different than it's origin").
Proof.
  unfold Circle.init. rewrite isEqual_pt_true by reflexivity. reflexivity.
Qed.

(** [Circle] accepts a centre and a boundary point exactly when they differ,
    so every circle it builds has a positive radius. *)
Lemma Circle_init_ok_iff (a b c d : R) :
  (exists k, Circle.init (pt a b) (pt c d) = Ok k
             /\ exists r, Circle.radius k = Re r /\ 0 < r)
  <-> (a <> c \/ b <> d).
Proof.
  split.
  - intros [k [H _]].
    destruct (Req_dec_T a c) as [E1 | N1]; [| left; exact N1].
    destruct (Req_dec_T b d) as [E2 | N2]; [| right; exact N2].
    subst c d. rewrite Circle_init_same in H. discriminate H.
  - intros H. exists (circle_of a b c d). split.
    + apply Circle_init_pt. exact H.
    + exists (sqrt ((a - c) * (a - c) + (b - d) * (b - d))). split.
      * reflexivity.
      * apply sqrt_lt_R0. apply sum_sq_pos. lra.
Qed.

(** ** A line that misses the circle *)

Lemma Rabs_div_sqrt_gt (e v rho : R) :
  0 < v -> 0 <= rho -> rho * v < e * e -> sqrt rho < Rabs e / sqrt v.
Proof.
  intros Hv Hr H.
  rewrite <- sqrt_Rsqr_abs. unfold Rsqr.
  rewrite <- sqrt_div_alt by exact Hv.
  apply sqrt_lt_1.
  - exact Hr.
  - apply Rmult_le_pos; [apply sq_nonneg | left; apply Rinv_0_lt_compat; exact Hv].
  - apply Rmult_lt_reg_r with v; [exact Hv |].
    unfold Rdiv. rewrite Rmult_assoc, Rinv_l by lra. lra.
Qed.

(** A line whose distance from the centre exceeds the radius has no common
    point with the circle. *)
Lemma iwl_miss (ca cb cc cd a b c d : R) :
  a <> c \/ b <> d ->
  ((ca - cc) * (ca - cc) + (cb - cd) * (cb - cd))
  * ((b - d) * (b - d) + (c - a) * (c - a))
  < ((b - d) * ca + (c - a) * cb + (a * d - c * b))
    * ((b - d) * ca + (c - a) * cb + (a * d - c * b)) ->
  Circle.intersect_with_line (circle_of ca cb cc cd) (line_of a b c d) = Ok [].
Proof.
  intros Hne Hfar. unfold Circle.intersect_with_line.
  cbn [circle_of Circle.center Circle.radius].
  rewrite dfp_line_of by exact Hne.
  assert (Hv : 0 < (b - d) * (b - d) + (c - a) * (c - a)).
  { apply sum_sq_pos. destruct Hne; [right | left]; lra. }
  pose proof (Rabs_div_sqrt_gt _ _ _ Hv (sum_sq_nonneg (ca - cc) (cb - cd)) Hfar) as G.
  rewrite sym_lt_Re_false by lra.
  bind_step. cbn [sym_sub sym_eqb].
  rewrite Reqb_false by lra. reflexivity.
Qed.

(** ** Circles that lie apart *)

Lemma cc_disjoint (a1 b1 o1x o1y a2 b2 o2x o2y : R) :
  sqrt ((a1 - o1x) * (a1 - o1x) + (b1 - o1y) * (b1 - o1y))
  + sqrt ((a2 - o2x) * (a2 - o2x) + (b2 - o2y) * (b2 - o2y))
  < sqrt ((a1 - a2) * (a1 - a2) + (b1 - b2) * (b1 - b2)) ->
  Circle.get_intersection (circle_of a1 b1 o1x o1y) (circle_of a2 b2 o2x o2y)
  = Ok [].
Proof.
  intros H. unfold Circle.get_intersection.
  cbn [circle_of Circle.center Circle.radius].
  rewrite Point_dist_pt.
  change (Re (sqrt ((a1 - o1x) * (a1 - o1x) + (b1 - o1y) * (b1 - o1y)))
          + Re (sqrt ((a2 - o2x) * (a2 - o2x) + (b2 - o2y) * (b2 - o2y))))%sym
    with (Re (sqrt ((a1 - o1x) * (a1 - o1x) + (b1 - o1y) * (b1 - o1y))
              + sqrt ((a2 - o2x) * (a2 - o2x) + (b2 - o2y) * (b2 - o2y)))).
  rewrite sym_lt_Re_false by lra.
  bind_step. cbn [sym_sub sym_eqb].
  rewrite Reqb_false by lra. reflexivity.
Qed.

(** ** Guards and shortcuts of the arithmetic *)

(** Floor division by zero fails in the modulo it starts with, so the
    message is the modulo's. *)
Lemma floordiv_by_zero (fuel : nat) (self : CasNum.t) :
  CasNum.floordiv fuel self CasNum.zero
  = Raise (ValueError "Cannot taking modulo by zero").
Proof.
  unfold CasNum.floordiv. rewrite mod_by_zero; [reflexivity |].
  apply Point_isEqual_refl.
Qed.

Lemma truediv_zero_dividend (b : R) :
  b <> 0 -> CasNum.truediv (cnR 0) (cnR b) = Ok (cnR 0).
Proof.
  intros Hb. unfold CasNum.truediv. change CasNum.zero with (cnR 0).
  rewrite isEqual_cnR_false by exact Hb.
  change (CasNum.copy (cnR 0)) with (cnR 0). change (CasNum.copy (cnR b)) with (cnR b).
  rewrite !lt_cnR. bind_step. rewrite (Rltb_false 0 0) by lra. bind_step.
  bind_step.
  destruct (Rltb b 0).
  - rewrite neg_cnR. bind_step. rewrite eq_cnR_true by reflexivity. reflexivity.
  - bind_step. rewrite eq_cnR_true by reflexivity. reflexivity.
Qed.

Lemma mul_zero_r (a : R) : CasNum.mul (cnR a) (cnR 0) = Ok (cnR 0).
Proof.
  unfold CasNum.mul. change CasNum.one with (cnR 1). change CasNum.zero with (cnR 0).
  rewrite (isEqual_cnR_false 0 1) by lra.
  destruct (Req_dec_T a 1) as [E | N].
  - rewrite isEqual_cnR_true by exact E. reflexivity.
  - rewrite isEqual_cnR_false by exact N.
    change (CasNum.copy (cnR 0)) with (cnR 0). change (CasNum.copy (cnR a)) with (cnR a).
    rewrite !lt_cnR. bind_step. rewrite (Rltb_false 0 0) by lra.
    destruct (Rltb a 0).
    + rewrite neg_cnR. bind_step. bind_step. bind_step.
      rewrite (isEqual_cnR_true 0 0) by reflexivity.
      destruct (CasNum.isEqual (cnR (- a)) (cnR 0)); reflexivity.
    + bind_step. bind_step. bind_step.
      rewrite (isEqual_cnR_true 0 0) by reflexivity.
      destruct (CasNum.isEqual (cnR a) (cnR 0)); reflexivity.
Qed.

Lemma mul_zero_l (b : R) : CasNum.mul (cnR 0) (cnR b) = Ok (cnR 0).
Proof.
  unfold CasNum.mul. change CasNum.one with (cnR 1). change CasNum.zero with (cnR 0).
  rewrite (isEqual_cnR_false 0 1) by lra.
  destruct (Req_dec_T b 1) as [E | N].
  - rewrite isEqual_cnR_true by exact E. reflexivity.
  - rewrite isEqual_cnR_false by exact N.
    change (CasNum.copy (cnR 0)) with (cnR 0). change (CasNum.copy (cnR b)) with (cnR b).
    rewrite !lt_cnR. bind_step. rewrite (Rltb_false 0 0) by lra. bind_step.
    bind_step.
    destruct (Rltb b 0).
    + rewrite neg_cnR. bind_step.
      rewrite (isEqual_cnR_true 0 0) by reflexivity. reflexivity.
    + bind_step.
      rewrite (isEqual_cnR_true 0 0) by reflexivity. reflexivity.
Qed.

Lemma pow_negative_exponent (fuel : nat) (self : CasNum.t) (b : R) :
  b < 0 ->
  CasNum.pow fuel self (cnR b) = Raise (ValueError "Power must be non-negative").
Proof.
  intros Hb. unfold CasNum.pow. change CasNum.zero with (cnR 0).
  rewrite lt_cnR, Rltb_true by exact Hb. reflexivity.
Qed.

Lemma sqrt_negative (a : R) :
  a < 0 ->
  CasNum.sqrt (cnR a)
  = Raise (ValueError "Only support taking sqrt of non-negative numbers").
Proof.
  intros Ha. unfold CasNum.sqrt. change CasNum.zero with (cnR 0).
  rewrite lt_cnR, Rltb_true by exact Ha. reflexivity.
Qed.

(** Anything to the power zero is one: the exponent passes the integrality
    test through [floor], [//], [%] and [/]. *)
Lemma pow_zero (fuel : nat) (self : CasNum.t) :
  (0 < fuel)%nat -> CasNum.pow fuel self CasNum.zero = Ok CasNum.one.
Proof.
  intros Hf. unfold CasNum.pow.
  rewrite zero_cn at 1 2. rewrite lt_cn. bind_step.
  change (0 <? 0)%Z with false. cbv iota.
  unfold CasNum.floor, CasNum.floordiv.
  rewrite zero_cn, one_cn.
  rewrite mod_cn by lia. bind_step.
  change (0 mod 1)%Z with 0%Z.
  rewrite sub_cn. bind_step.
  change (0 - 0)%Z with 0%Z.
  change (cn 0) with (cnR 0). change (cn 1) with (cnR 1).
  rewrite truediv_zero_dividend by lra. bind_step.
  unfold CasNum.ne. rewrite eq_cnR_true by reflexivity.
  reflexivity.
Qed.

(** ** The bitwise operators on integers *)

Lemma two_cn : CasNum.two = Ok (cn 2).
Proof. unfold CasNum.two. rewrite one_cn, add_cn. reflexivity. Qed.

Lemma Z_mod2_odd (a : Z) : (a mod 2 = Z.b2z (Z.odd a))%Z.
Proof. rewrite Zmod_odd. destruct (Z.odd a); reflexivity. Qed.

Lemma Z_split2 (a : Z) : (a = Z.b2z (Z.odd a) + 2 * (a / 2))%Z.
Proof. rewrite <- Z.div2_div. rewrite (Z.div2_odd a) at 1. lia. Qed.

Lemma Z_half_lxor (a b : Z) : (Z.lxor a b / 2 = Z.lxor (a / 2) (b / 2))%Z.
Proof. rewrite <- !Z.div2_div, !Z.div2_spec. apply Z.shiftr_lxor. Qed.

Lemma Z_half_land (a b : Z) : (Z.land a b / 2 = Z.land (a / 2) (b / 2))%Z.
Proof. rewrite <- !Z.div2_div, !Z.div2_spec. apply Z.shiftr_land. Qed.

Lemma Z_half_lor (a b : Z) : (Z.lor a b / 2 = Z.lor (a / 2) (b / 2))%Z.
Proof. rewrite <- !Z.div2_div, !Z.div2_spec. apply Z.shiftr_lor. Qed.

Lemma Z_odd_lxor (a b : Z) : Z.odd (Z.lxor a b) = xorb (Z.odd a) (Z.odd b).
Proof. rewrite <- !Z.bit0_odd. apply Z.lxor_spec. Qed.

Lemma Z_odd_land (a b : Z) : Z.odd (Z.land a b) = Z.odd a && Z.odd b.
Proof. rewrite <- !Z.bit0_odd. apply Z.land_spec. Qed.

Lemma Z_odd_lor (a b : Z) : Z.odd (Z.lor a b) = Z.odd a || Z.odd b.
Proof. rewrite <- !Z.bit0_odd. apply Z.lor_spec. Qed.

Lemma lxor_step (a b : Z) :
  (Z.lxor a b
   = (if a mod 2 + b mod 2 =? 1 then 1 else 0) + 2 * Z.lxor (a / 2) (b / 2))%Z.
Proof.
  rewrite (Z_split2 (Z.lxor a b)) at 1. rewrite Z_half_lxor, Z_odd_lxor, !Z_mod2_odd.
  destruct (Z.odd a), (Z.odd b); reflexivity.
Qed.

Lemma land_step (a b : Z) :
  (Z.land a b
   = (if a mod 2 + b mod 2 =? 2 then 1 else 0) + 2 * Z.land (a / 2) (b / 2))%Z.
Proof.
  rewrite (Z_split2 (Z.land a b)) at 1. rewrite Z_half_land, Z_odd_land, !Z_mod2_odd.
  destruct (Z.odd a), (Z.odd b); reflexivity.
Qed.

Lemma lor_step (a b : Z) :
  (Z.lor a b
   = (if 1 <=? a mod 2 + b mod 2 then 1 else 0) + 2 * Z.lor (a / 2) (b / 2))%Z.
Proof.
  rewrite (Z_split2 (Z.lor a b)) at 1. rewrite Z_half_lor, Z_odd_lor, !Z_mod2_odd.
  destruct (Z.odd a), (Z.odd b); reflexivity.
Qed.

Lemma rshift1_cn (fuel : nat) (a : Z) :
  (Z.abs a < Z.of_nat fuel)%Z -> CasNum.rshift fuel (cn a) 1 = Ok (cn (a / 2)).
Proof.
  intros H. rewrite rshift_cn by exact H. apply Ok_cn_eq.
  change (Z.max 0 1) with 1%Z. rewrite <- Z.div2_spec. apply Z.div2_div.
Qed.

(** One round of the three loops, up to the test on the sum of the bits. *)
Ltac bit_loop_round fuel a b :=
  rewrite zero_cn, !gt_cn; bind_step;
  rewrite (mod_cn fuel a 2) by lia; bind_step;
  rewrite (mod_cn fuel b 2) by lia; bind_step;
  rewrite add_cn; bind_step.

Ltac bit_loop_tail fuel a b :=
  rewrite (rshift1_cn fuel a) by lia; bind_step;
  rewrite (rshift1_cn fuel b) by lia; bind_step;
  rewrite mul2_cn; bind_step.

Lemma bits_fuel (a b : Z) (k : nat) :
  (0 <= a)%Z -> (0 <= b)%Z -> (a < Z.of_nat (S k))%Z -> (b < Z.of_nat (S k))%Z ->
  (0 < a \/ 0 < b)%Z ->
  (0 <= a / 2 /\ 0 <= b / 2 /\ a / 2 < Z.of_nat k /\ b / 2 < Z.of_nat k
   /\ a / 2 <= a /\ b / 2 <= b)%Z.
Proof.
  intros Ha Hb Hak Hbk Hpos.
  pose proof (Z.div_mod a 2 ltac:(lia)). pose proof (Z.mod_pos_bound a 2 ltac:(lia)).
  pose proof (Z.div_mod b 2 ltac:(lia)). pose proof (Z.mod_pos_bound b 2 ltac:(lia)).
  lia.
Qed.

Lemma xor_positive_loop_cn (fuel : nat) (k : nat) :
  forall a b r pw : Z,
    (0 <= a)%Z -> (0 <= b)%Z ->
    (a < Z.of_nat k)%Z -> (b < Z.of_nat k)%Z ->
    (a < Z.of_nat fuel)%Z -> (b < Z.of_nat fuel)%Z ->
    CasNum.xor_positive_loop fuel k (cn 2) (cn r) (cn pw) (cn a) (cn b)
    = Ok (cn (r + pw * Z.lxor a b)).
Proof.
  induction k as [| k IH]; intros a b r pw Ha Hb Hak Hbk Haf Hbf; [lia |].
  cbn [CasNum.xor_positive_loop].
  rewrite zero_cn, !gt_cn. bind_step.
  destruct (Z.ltb_spec 0 a) as [Pa | Na]; [| destruct (Z.ltb_spec 0 b) as [Pb | Nb]].
  3:{ bind_step. apply Ok_cn_eq.
      assert (a = 0)%Z by lia. assert (b = 0)%Z by lia. subst a b. cbn. lia. }
  all: bind_step.
  all: destruct (bits_fuel a b k Ha Hb Hak Hbk ltac:(lia)) as (H1 & H2 & H3 & H4 & H5 & H6).
  all: rewrite (mod_cn fuel a 2) by lia; bind_step.
  all: rewrite (mod_cn fuel b 2) by lia; bind_step.
  all: rewrite add_cn; bind_step.
  all: rewrite one_cn, eq_cn.
  all: rewrite (lxor_step a b).
  all: destruct (a mod 2 + b mod 2 =? 1)%Z.
  all: try rewrite add_cn; bind_step.
  all: rewrite (rshift1_cn fuel a) by lia; bind_step.
  all: rewrite (rshift1_cn fuel b) by lia; bind_step.
  all: rewrite mul2_cn; bind_step.
  all: rewrite IH by lia; apply Ok_cn_eq; lia.
Qed.

Lemma and_positive_loop_cn (fuel : nat) (k : nat) :
  forall a b r pw : Z,
    (0 <= a)%Z -> (0 <= b)%Z ->
    (a < Z.of_nat k)%Z -> (b < Z.of_nat k)%Z ->
    (a < Z.of_nat fuel)%Z -> (b < Z.of_nat fuel)%Z ->
    CasNum.and_positive_loop fuel k (cn 2) (cn r) (cn pw) (cn a) (cn b)
    = Ok (cn (r + pw * Z.land a b)).
Proof.
  induction k as [| k IH]; intros a b r pw Ha Hb Hak Hbk Haf Hbf; [lia |].
  cbn [CasNum.and_positive_loop].
  rewrite zero_cn, !gt_cn. bind_step.
  destruct (Z.ltb_spec 0 a) as [Pa | Na]; [| destruct (Z.ltb_spec 0 b) as [Pb | Nb]].
  3:{ bind_step. apply Ok_cn_eq.
      assert (a = 0)%Z by lia. assert (b = 0)%Z by lia. subst a b. cbn. lia. }
  all: bind_step.
  all: destruct (bits_fuel a b k Ha Hb Hak Hbk ltac:(lia)) as (H1 & H2 & H3 & H4 & H5 & H6).
  all: rewrite (mod_cn fuel a 2) by lia; bind_step.
  all: rewrite (mod_cn fuel b 2) by lia; bind_step.
  all: rewrite add_cn; bind_step.
  all: rewrite eq_cn.
  all: rewrite (land_step a b).
  all: destruct (a mod 2 + b mod 2 =? 2)%Z.
  all: try rewrite add_cn; bind_step.
  all: rewrite (rshift1_cn fuel a) by lia; bind_step.
  all: rewrite (rshift1_cn fuel b) by lia; bind_step.
  all: rewrite mul2_cn; bind_step.
  all: rewrite IH by lia; apply Ok_cn_eq; lia.
Qed.

Lemma or_positive_loop_cn (fuel : nat) (k : nat) :
  forall a b r pw : Z,
    (0 <= a)%Z -> (0 <= b)%Z ->
    (a < Z.of_nat k)%Z -> (b < Z.of_nat k)%Z ->
    (a < Z.of_nat fuel)%Z -> (b < Z.of_nat fuel)%Z ->
    CasNum.or_positive_loop fuel k (cn 2) (cn r) (cn pw) (cn a) (cn b)
    = Ok (cn (r + pw * Z.lor a b)).
Proof.
  induction k as [| k IH]; intros a b r pw Ha Hb Hak Hbk Haf Hbf; [lia |].
  cbn [CasNum.or_positive_loop].
  rewrite zero_cn, !gt_cn. bind_step.
  destruct (Z.ltb_spec 0 a) as [Pa | Na]; [| destruct (Z.ltb_spec 0 b) as [Pb | Nb]].
  3:{ bind_step. apply Ok_cn_eq.
      assert (a = 0)%Z by lia. assert (b = 0)%Z by lia. subst a b. cbn. lia. }
  all: bind_step.
  all: destruct (bits_fuel a b k Ha Hb Hak Hbk ltac:(lia)) as (H1 & H2 & H3 & H4 & H5 & H6).
  all: rewrite (mod_cn fuel a 2) by lia; bind_step.
  all: rewrite (mod_cn fuel b 2) by lia; bind_step.
  all: rewrite add_cn; bind_step.
  all: rewrite one_cn, ge_cn; bind_step.
  all: rewrite (lor_step a b).
  all: destruct (1 <=? a mod 2 + b mod 2)%Z.
  all: try rewrite add_cn; bind_step.
  all: rewrite (rshift1_cn fuel a) by lia; bind_step.
  all: rewrite (rshift1_cn fuel b) by lia; bind_step.
  all: rewrite mul2_cn; bind_step.
  all: rewrite IH by lia; apply Ok_cn_eq; lia.
Qed.

Lemma xor_positive_cn (fuel : nat) (a b : Z) :
  (0 <= a < Z.of_nat fuel)%Z -> (0 <= b < Z.of_nat fuel)%Z ->
  CasNum.xor_positive fuel (cn a) (cn b) = Ok (cn (Z.lxor a b)).
Proof.
  intros Ha Hb. unfold CasNum.xor_positive.
  rewrite zero_cn, !lt_cn. bind_step.
  rewrite (proj2 (Z.ltb_ge a 0)) by lia. bind_step.
  rewrite (proj2 (Z.ltb_ge b 0)) by lia. cbv iota.
  rewrite one_cn, add_cn. bind_step.
  rewrite !copy_cn.
  change (1 + 1)%Z with 2%Z.
  rewrite xor_positive_loop_cn by lia. apply Ok_cn_eq. lia.
Qed.

Lemma and_positive_cn (fuel : nat) (a b : Z) :
  (0 <= a < Z.of_nat fuel)%Z -> (0 <= b < Z.of_nat fuel)%Z ->
  CasNum.and_positive fuel (cn a) (cn b) = Ok (cn (Z.land a b)).
Proof.
  intros Ha Hb. unfold CasNum.and_positive.
  rewrite zero_cn, !lt_cn. bind_step.
  rewrite (proj2 (Z.ltb_ge a 0)) by lia. bind_step.
  rewrite (proj2 (Z.ltb_ge b 0)) by lia. cbv iota.
  rewrite two_cn. bind_step.
  rewrite one_cn, !copy_cn.
  rewrite and_positive_loop_cn by lia. apply Ok_cn_eq. lia.
Qed.

Lemma or_positive_cn (fuel : nat) (a b : Z) :
  (0 <= a < Z.of_nat fuel)%Z -> (0 <= b < Z.of_nat fuel)%Z ->
  CasNum.or_positive fuel (cn a) (cn b) = Ok (cn (Z.lor a b)).
Proof.
  intros Ha Hb. unfold CasNum.or_positive.
  rewrite zero_cn, !lt_cn. bind_step.
  rewrite (proj2 (Z.ltb_ge a 0)) by lia. bind_step.
  rewrite (proj2 (Z.ltb_ge b 0)) by lia. cbv iota.
  rewrite one_cn, add_cn. bind_step.
  rewrite !copy_cn.
  change (1 + 1)%Z with 2%Z.
  rewrite or_positive_loop_cn by lia. apply Ok_cn_eq. lia.
Qed.

(** A negative operand is refused by the three [_positive] functions. *)
Lemma xor_positive_negative (fuel : nat) (a b : Z) :
  (a < 0 \/ b < 0)%Z ->
  CasNum.xor_positive fuel (cn a) (cn b)
  = Raise (ValueError "XOR is defined for non-negative CasNum integers here.").
Proof.
  intros H. unfold CasNum.xor_positive.
  rewrite zero_cn, !lt_cn. bind_step.
  destruct (Z.ltb_spec a 0) as [Na | Pa]; bind_step; [reflexivity |].
  rewrite (proj2 (Z.ltb_lt b 0)) by lia. reflexivity.
Qed.

(** X18: [get_nth_bit] of a non-negative integer is its binary
    digit at position [n]. *)
Theorem get_nth_bit_is_testbit (fuel : nat) (a n : Z) :
  (0 <= a < Z.of_nat fuel)%Z -> (0 <= n)%Z ->
  CasNum.get_nth_bit fuel (cn a) n = Ok (cn (Z.b2z (Z.testbit a n))).
Proof.
  intros Ha Hn. unfold CasNum.get_nth_bit.
  rewrite zero_cn, lt_cn. bind_step.
  rewrite (proj2 (Z.ltb_ge a 0)) by lia.
  rewrite (proj2 (Z.ltb_ge n 0)) by lia. cbv iota. cbn [orb].
  rewrite copy_cn, rshift_cn by lia. bind_step.
  rewrite two_cn. bind_step.
  assert (Hs : (0 <= Z.shiftr a (Z.max 0 n) <= a)%Z).
  { rewrite Z.shiftr_div_pow2 by lia. split.
    - apply Z.div_pos; [lia | apply Z.pow_pos_nonneg; lia].
    - apply Z.div_le_upper_bound; [apply Z.pow_pos_nonneg; lia |].
      assert (0 < 2 ^ Z.max 0 n)%Z by (apply Z.pow_pos_nonneg; lia). nia. }
  rewrite mod_cn by lia. apply Ok_cn_eq.
  rewrite Z.max_r by lia.
  rewrite Z_mod2_odd, <- Z.bit0_odd, Z.shiftr_spec by lia. reflexivity.
Qed.

Lemma get_nth_bit_negative (fuel : nat) (a n : Z) :
  (a < 0 \/ n < 0)%Z ->
  CasNum.get_nth_bit fuel (cn a) n
  = Raise (ValueError " get_nth_bit is defined for non-negative CasNum and bit.").
Proof.
  intros H. unfold CasNum.get_nth_bit.
  rewrite zero_cn, lt_cn. bind_step.
  destruct (Z.ltb_spec a 0) as [Na | Pa]; [reflexivity |].
  rewrite (proj2 (Z.ltb_lt n 0)) by lia. reflexivity.
Qed.

(** *** Negative operands *)

(** [double_until_gt(a, one)] is the least power of two that is no smaller
    than [a]. *)
Lemma double_until_gt_one (fuel : nat) (x : Z) :
  (Z.abs x < Z.of_nat fuel)%Z ->
  CasNum.double_until_gt fuel (cn x) CasNum.one true
  = Ok (cn (2 ^ Z.log2_up x)).
Proof.
  intros Hx. rewrite one_cn.
  destruct (double_until_gt_cn fuel x 1 ltac:(lia) Hx) as [j [E [H1 H2]]].
  rewrite E. apply Ok_cn_eq. rewrite Z.mul_1_l in *.
  destruct j as [| j].
  - change (Z.of_nat 0) with 0%Z in *. rewrite Z.pow_0_r in *.
    rewrite Z.log2_up_eqn0 by lia. reflexivity.
  - destruct H2 as [H2 | H2]; [discriminate H2 |].
    replace (S j - 1)%nat with j in H2 by lia.
    f_equal. symmetry. apply Z.log2_up_unique; [lia |].
    rewrite Nat2Z.inj_succ, Z.pred_succ. lia.
Qed.

Section TwosComplement.

Variable n : Z.
Hypothesis Hn : (0 <= n)%Z.

Lemma lowbits_range (v : Z) : (0 <= v < 2 ^ n)%Z -> lowbits n v.
Proof.
  intros [H0 H1] i Hi.
  destruct (Z.eq_dec v 0) as [-> | NZ]; [apply Z.bits_0 |].
  apply Z.bits_above_log2; [exact H0 |].
  apply Z.lt_le_trans with n; [| exact Hi].
  apply Z.log2_lt_pow2; lia.
Qed.

Lemma testbit_neg_pow2 (i : Z) :
  (0 <= i)%Z -> Z.testbit (- 2 ^ n) i = (n <=? i)%Z.
Proof.
  intros Hi. rewrite Z.bits_opp by exact Hi.
  rewrite <- Z.ones_equiv.
  destruct (Z.leb_spec n i) as [G | L].
  - rewrite Z.ones_spec_high by lia. reflexivity.
  - rewrite Z.ones_spec_low by lia. reflexivity.
Qed.

Lemma sub_pow2_lxor (v : Z) : lowbits n v -> (v - 2 ^ n = Z.lxor v (- 2 ^ n))%Z.
Proof.
  intros Hv. replace (v - 2 ^ n)%Z with (v + - 2 ^ n)%Z by lia.
  apply Z.add_nocarry_lxor.
  apply Z.bits_inj'. intros i Hi.
  rewrite Z.land_spec, Z.bits_0, testbit_neg_pow2 by exact Hi.
  destruct (Z.leb_spec n i) as [G | L].
  - rewrite Hv by exact G. reflexivity.
  - apply andb_false_r.
Qed.

Lemma testbit_sub_pow2 (v i : Z) :
  lowbits n v -> (0 <= i)%Z ->
  Z.testbit (v - 2 ^ n) i = if (n <=? i)%Z then true else Z.testbit v i.
Proof.
  intros Hv Hi. rewrite sub_pow2_lxor by exact Hv.
  rewrite Z.lxor_spec, testbit_neg_pow2 by exact Hi.
  destruct (Z.leb_spec n i) as [G | L].
  - rewrite Hv by exact G. reflexivity.
  - apply xorb_false_r.
Qed.

Lemma testbit_negative (a i : Z) :
  (- 2 ^ n <= a < 0)%Z -> (0 <= i)%Z ->
  Z.testbit a i = if (n <=? i)%Z then true else Z.testbit (a + 2 ^ n) i.
Proof.
  intros Ha Hi.
  replace a with ((a + 2 ^ n) - 2 ^ n)%Z at 1 by lia.
  apply testbit_sub_pow2; [| exact Hi].
  apply lowbits_range. lia.
Qed.

Lemma testbit_small (b i : Z) :
  (0 <= b < 2 ^ n)%Z -> (0 <= i)%Z ->
  Z.testbit b i = if (n <=? i)%Z then false else Z.testbit b i.
Proof.
  intros Hb Hi. destruct (Z.leb_spec n i) as [G | L]; [| reflexivity].
  apply lowbits_range; assumption.
Qed.

Lemma lxor_twos_both (a b : Z) :
  (- 2 ^ n <= a < 0)%Z -> (- 2 ^ n <= b < 0)%Z ->
  Z.lxor (a + 2 ^ n) (b + 2 ^ n) = Z.lxor a b.
Proof.
  intros Ha Hb. apply Z.bits_inj'. intros i Hi.
  rewrite !Z.lxor_spec.
  rewrite (testbit_negative a i Ha Hi), (testbit_negative b i Hb Hi).
  rewrite (testbit_small (a + 2 ^ n) i) by lia.
  rewrite (testbit_small (b + 2 ^ n) i) by lia.
  destruct (n <=? i)%Z; reflexivity.
Qed.

Lemma lxor_twos_left (a b : Z) :
  (- 2 ^ n <= a < 0)%Z -> (0 <= b < 2 ^ n)%Z ->
  (Z.lxor (a + 2 ^ n) b - 2 ^ n = Z.lxor a b)%Z.
Proof.
  intros Ha Hb. apply Z.bits_inj'. intros i Hi.
  rewrite testbit_sub_pow2; [| | exact Hi].
  2:{ intros j Hj. rewrite Z.lxor_spec.
      rewrite (lowbits_range (a + 2 ^ n)%Z) by (lia || exact Hj).
      rewrite (lowbits_range b) by (lia || exact Hj). reflexivity. }
  rewrite !Z.lxor_spec.
  rewrite (testbit_negative a i Ha Hi).
  rewrite (testbit_small b i) by lia.
  destruct (n <=? i)%Z; reflexivity.
Qed.

Lemma land_twos_both (a b : Z) :
  (- 2 ^ n <= a < 0)%Z -> (- 2 ^ n <= b < 0)%Z ->
  (Z.land (a + 2 ^ n) (b + 2 ^ n) - 2 ^ n = Z.land a b)%Z.
Proof.
  intros Ha Hb. apply Z.bits_inj'. intros i Hi.
  rewrite testbit_sub_pow2; [| | exact Hi].
  2:{ intros j Hj. rewrite Z.land_spec.
      rewrite (lowbits_range (a + 2 ^ n)%Z) by (lia || exact Hj). reflexivity. }
  rewrite !Z.land_spec.
  rewrite (testbit_negative a i Ha Hi), (testbit_negative b i Hb Hi).
  destruct (n <=? i)%Z; reflexivity.
Qed.

Lemma land_twos_left (a b : Z) :
  (- 2 ^ n <= a < 0)%Z -> (0 <= b < 2 ^ n)%Z ->
  Z.land (a + 2 ^ n) b = Z.land a b.
Proof.
  intros Ha Hb. apply Z.bits_inj'. intros i Hi.
  rewrite !Z.land_spec.
  rewrite (testbit_negative a i Ha Hi).
  rewrite (testbit_small b i) by lia.
  destruct (n <=? i)%Z; [| reflexivity].
  rewrite !andb_false_r. reflexivity.
Qed.

Lemma lor_twos_both (a b : Z) :
  (- 2 ^ n <= a < 0)%Z -> (- 2 ^ n <= b < 0)%Z ->
  (Z.lor (a + 2 ^ n) (b + 2 ^ n) - 2 ^ n = Z.lor a b)%Z.
Proof.
  intros Ha Hb. apply Z.bits_inj'. intros i Hi.
  rewrite testbit_sub_pow2; [| | exact Hi].
  2:{ intros j Hj. rewrite Z.lor_spec.
      rewrite (lowbits_range (a + 2 ^ n)%Z) by (lia || exact Hj).
      rewrite (lowbits_range (b + 2 ^ n)%Z) by (lia || exact Hj). reflexivity. }
  rewrite !Z.lor_spec.
  rewrite (testbit_negative a i Ha Hi), (testbit_negative b i Hb Hi).
  destruct (n <=? i)%Z; reflexivity.
Qed.

Lemma lor_twos_left (a b : Z) :
  (- 2 ^ n <= a < 0)%Z -> (0 <= b < 2 ^ n)%Z ->
  (Z.lor (a + 2 ^ n) b - 2 ^ n = Z.lor a b)%Z.
Proof.
  intros Ha Hb. apply Z.bits_inj'. intros i Hi.
  rewrite testbit_sub_pow2; [| | exact Hi].
  2:{ intros j Hj. rewrite Z.lor_spec.
      rewrite (lowbits_range (a + 2 ^ n)%Z) by (lia || exact Hj).
      rewrite (lowbits_range b) by (lia || exact Hj). reflexivity. }
  rewrite !Z.lor_spec.
  rewrite (testbit_negative a i Ha Hi).
  rewrite (testbit_small b i) by lia.
  destruct (n <=? i)%Z; reflexivity.
Qed.

End TwosComplement.

Lemma pow2_log2_up_ge (x : Z) : (x <= 2 ^ Z.log2_up x)%Z.
Proof.
  destruct (Z.le_gt_cases x 1) as [L | G].
  - rewrite Z.log2_up_eqn0 by exact L. exact L.
  - apply (Z.log2_up_spec x G).
Qed.

Lemma pow2_log2_up_lt (x : Z) : (1 <= x)%Z -> (2 ^ Z.log2_up x < 2 * x)%Z.
Proof.
  intros H. destruct (Z.eq_dec x 1) as [-> | N]; [reflexivity |].
  assert (G : (1 < x)%Z) by lia.
  pose proof (Z.log2_up_spec x G) as [S1 S2].
  pose proof (Z.log2_up_pos x G) as P.
  replace (Z.log2_up x) with (Z.succ (Z.pred (Z.log2_up x))) at 1 by lia.
  rewrite Z.pow_succ_r by lia. lia.
Qed.

Lemma twos_n_spec (a b : Z) :
  exists n : Z,
    (0 <= n /\ twos_n a b = 2 ^ n
     /\ Z.abs a <= twos_n a b /\ Z.abs b <= twos_n a b
     /\ (a <> 0 \/ b <> 0 -> twos_n a b < 2 * Z.max (Z.abs a) (Z.abs b)))%Z.
Proof.
  exists (Z.max (Z.log2_up (Z.abs a)) (Z.log2_up (Z.abs b))).
  pose proof (Z.log2_up_nonneg (Z.abs a)) as Na.
  pose proof (Z.log2_up_nonneg (Z.abs b)) as Nb.
  pose proof (pow2_log2_up_ge (Z.abs a)) as Ga.
  pose proof (pow2_log2_up_ge (Z.abs b)) as Gb.
  assert (Ha1 : (Z.abs a = 0 -> 2 ^ Z.log2_up (Z.abs a) = 1)%Z).
  { intros ->. reflexivity. }
  assert (Hb1 : (Z.abs b = 0 -> 2 ^ Z.log2_up (Z.abs b) = 1)%Z).
  { intros ->. reflexivity. }
  assert (La : (1 <= Z.abs a -> 2 ^ Z.log2_up (Z.abs a) < 2 * Z.abs a)%Z)
    by apply pow2_log2_up_lt.
  assert (Lb : (1 <= Z.abs b -> 2 ^ Z.log2_up (Z.abs b) < 2 * Z.abs b)%Z)
    by apply pow2_log2_up_lt.
  unfold twos_n.
  split; [lia |]. split.
  - destruct (Z.le_ge_cases (Z.log2_up (Z.abs a)) (Z.log2_up (Z.abs b))) as [L | G].
    + rewrite (Z.max_r (Z.log2_up (Z.abs a))) by exact L.
      apply Z.max_r. apply Z.pow_le_mono_r; lia.
    + rewrite (Z.max_l (Z.log2_up (Z.abs a))) by exact G.
      apply Z.max_l. apply Z.pow_le_mono_r; lia.
  - lia.
Qed.

Lemma double_until_gt_cn1 (fuel : nat) (x : Z) :
  (Z.abs x < Z.of_nat fuel)%Z ->
  CasNum.double_until_gt fuel (cn x) (cn 1) true = Ok (cn (2 ^ Z.log2_up x)).
Proof. rewrite <- one_cn. apply double_until_gt_one. Qed.

(** The common part of the three operators when an operand is negative. *)
Ltac twos_prefix fuel a b :=
  rewrite !abs_cn; bind_step;
  rewrite (double_until_gt_cn1 fuel (Z.abs a)) by lia; bind_step; bind_step;
  rewrite (double_until_gt_cn1 fuel (Z.abs b)) by lia; bind_step;
  rewrite ge_cn; bind_step;
  replace (if (2 ^ Z.log2_up (Z.abs b) <=? 2 ^ Z.log2_up (Z.abs a))%Z
           then cn (2 ^ Z.log2_up (Z.abs a)) else cn (2 ^ Z.log2_up (Z.abs b)))
    with (cn (twos_n a b))
    by (unfold twos_n;
        destruct (Z.leb_spec (2 ^ Z.log2_up (Z.abs b)) (2 ^ Z.log2_up (Z.abs a)));
        f_equal; lia);
  rewrite !copy_cn, !lt_cn; bind_step.

(** X14: [a ^ b] on integers is the bitwise exclusive or of Python,
    for operands of any sign that satisfy [fits]. *)
Theorem xor_is_lxor (fuel : nat) (a b : Z) :
  (2 * Z.abs a < Z.of_nat fuel)%Z -> (2 * Z.abs b < Z.of_nat fuel)%Z ->
  fits a b ->
  CasNum.xor_ fuel (cn a) (cn b) = Ok (cn (Z.lxor a b)).
Proof.
  intros Fa Fb Hfit. unfold CasNum.xor_.
  rewrite zero_cn, one_cn, !ge_cn. bind_step.
  destruct (Z.leb_spec 0 a) as [Pa | Na]; [destruct (Z.leb_spec 0 b) as [Pb | Nb] |].
  - bind_step. apply xor_positive_cn; lia.
  - bind_step.
    destruct (twos_n_spec a b) as (n & Hn & HT & Ta & Tb & Tf).
    destruct (Hfit ltac:(lia)) as [Fita Fitb].
    specialize (Tf ltac:(lia)).
    twos_prefix fuel a b.
    rewrite (proj2 (Z.ltb_ge a 0)) by lia. bind_step. bind_step. bind_step.
    rewrite (proj2 (Z.ltb_lt b 0)) by lia.
    rewrite !add_cn. bind_step. bind_step.
    rewrite xor_positive_cn by lia. bind_step.
    rewrite eq_cn. change (0 + 1 =? 1)%Z with true. cbv iota.
    rewrite sub_cn. apply Ok_cn_eq.
    rewrite HT. rewrite (Z.lxor_comm a (b + 2 ^ n)), (Z.lxor_comm a b).
    apply lxor_twos_left; lia.
  - bind_step.
    destruct (twos_n_spec a b) as (n & Hn & HT & Ta & Tb & Tf).
    destruct (Hfit ltac:(lia)) as [Fita Fitb].
    specialize (Tf ltac:(lia)).
    twos_prefix fuel a b.
    rewrite (proj2 (Z.ltb_lt a 0)) by lia.
    rewrite !add_cn. bind_step. bind_step. bind_step.
    destruct (Z.ltb_spec b 0) as [Nb | Pb].
    + rewrite !add_cn. bind_step. bind_step.
      rewrite xor_positive_cn by lia. bind_step.
      rewrite eq_cn. change (0 + 1 + 1 =? 1)%Z with false. cbv iota.
      apply Ok_cn_eq. rewrite HT. apply lxor_twos_both; lia.
    + bind_step. bind_step.
      rewrite xor_positive_cn by lia. bind_step.
      rewrite eq_cn. change (0 + 1 =? 1)%Z with true. cbv iota.
      rewrite sub_cn. apply Ok_cn_eq. rewrite HT. apply lxor_twos_left; lia.
Qed.

(** X15: [a & b] on integers is the bitwise and of Python, under the
    same condition. *)
Theorem and_is_land (fuel : nat) (a b : Z) :
  (2 * Z.abs a < Z.of_nat fuel)%Z -> (2 * Z.abs b < Z.of_nat fuel)%Z ->
  fits a b ->
  CasNum.and_ fuel (cn a) (cn b) = Ok (cn (Z.land a b)).
Proof.
  intros Fa Fb Hfit. unfold CasNum.and_.
  rewrite zero_cn, one_cn, !ge_cn. bind_step.
  destruct (Z.leb_spec 0 a) as [Pa | Na]; [destruct (Z.leb_spec 0 b) as [Pb | Nb] |].
  - bind_step. apply and_positive_cn; lia.
  - bind_step.
    destruct (twos_n_spec a b) as (n & Hn & HT & Ta & Tb & Tf).
    destruct (Hfit ltac:(lia)) as [Fita Fitb].
    specialize (Tf ltac:(lia)).
    twos_prefix fuel a b.
    rewrite (proj2 (Z.ltb_ge a 0)) by lia. bind_step. bind_step. bind_step.
    rewrite (proj2 (Z.ltb_lt b 0)) by lia.
    rewrite !add_cn. bind_step. bind_step.
    rewrite and_positive_cn by lia. bind_step.
    rewrite gt_cn. bind_step. change (1 <? 0 + 1)%Z with false. cbv iota.
    apply Ok_cn_eq.
    rewrite HT. rewrite (Z.land_comm a (b + 2 ^ n)), (Z.land_comm a b).
    apply land_twos_left; lia.
  - bind_step.
    destruct (twos_n_spec a b) as (n & Hn & HT & Ta & Tb & Tf).
    destruct (Hfit ltac:(lia)) as [Fita Fitb].
    specialize (Tf ltac:(lia)).
    twos_prefix fuel a b.
    rewrite (proj2 (Z.ltb_lt a 0)) by lia.
    rewrite !add_cn. bind_step. bind_step. bind_step.
    destruct (Z.ltb_spec b 0) as [Nb | Pb].
    + rewrite !add_cn. bind_step. bind_step.
      rewrite and_positive_cn by lia. bind_step.
      rewrite gt_cn. bind_step. change (1 <? 0 + 1 + 1)%Z with true. cbv iota.
      rewrite sub_cn. apply Ok_cn_eq. rewrite HT. apply land_twos_both; lia.
    + bind_step. bind_step.
      rewrite and_positive_cn by lia. bind_step.
      rewrite gt_cn. bind_step. change (1 <? 0 + 1)%Z with false. cbv iota.
      apply Ok_cn_eq. rewrite HT. apply land_twos_left; lia.
Qed.

(** X16: [a | b] on integers is the bitwise or of Python, under the same
    condition. *)
Theorem or_is_lor (fuel : nat) (a b : Z) :
  (2 * Z.abs a < Z.of_nat fuel)%Z -> (2 * Z.abs b < Z.of_nat fuel)%Z ->
  fits a b ->
  CasNum.or_ fuel (cn a) (cn b) = Ok (cn (Z.lor a b)).
Proof.
  intros Fa Fb Hfit. unfold CasNum.or_.
  rewrite zero_cn, one_cn, !ge_cn. bind_step.
  destruct (Z.leb_spec 0 a) as [Pa | Na]; [destruct (Z.leb_spec 0 b) as [Pb | Nb] |].
  - bind_step. apply or_positive_cn; lia.
  - bind_step.
    destruct (twos_n_spec a b) as (n & Hn & HT & Ta & Tb & Tf).
    destruct (Hfit ltac:(lia)) as [Fita Fitb].
    specialize (Tf ltac:(lia)).
    twos_prefix fuel a b.
    rewrite (proj2 (Z.ltb_ge a 0)) by lia. bind_step. bind_step. bind_step.
    rewrite (proj2 (Z.ltb_lt b 0)) by lia.
    rewrite !add_cn. bind_step. bind_step.
    rewrite or_positive_cn by lia. bind_step.
    rewrite ge_cn. bind_step. change (1 <=? 0 + 1)%Z with true. cbv iota.
    rewrite sub_cn. apply Ok_cn_eq.
    rewrite HT. rewrite (Z.lor_comm a (b + 2 ^ n)), (Z.lor_comm a b).
    apply lor_twos_left; lia.
  - bind_step.
    destruct (twos_n_spec a b) as (n & Hn & HT & Ta & Tb & Tf).
    destruct (Hfit ltac:(lia)) as [Fita Fitb].
    specialize (Tf ltac:(lia)).
    twos_prefix fuel a b.
    rewrite (proj2 (Z.ltb_lt a 0)) by lia.
    rewrite !add_cn. bind_step. bind_step. bind_step.
    destruct (Z.ltb_spec b 0) as [Nb | Pb].
    + rewrite !add_cn. bind_step. bind_step.
      rewrite or_positive_cn by lia. bind_step.
      rewrite ge_cn. bind_step. change (1 <=? 0 + 1 + 1)%Z with true. cbv iota.
      rewrite sub_cn. apply Ok_cn_eq. rewrite HT. apply lor_twos_both; lia.
    + bind_step. bind_step.
      rewrite or_positive_cn by lia. bind_step.
      rewrite ge_cn. bind_step. change (1 <=? 0 + 1)%Z with true. cbv iota.
      rewrite sub_cn. apply Ok_cn_eq. rewrite HT. apply lor_twos_left; lia.
Qed.

(** X17: where [fits] fails.  For a power of two [2^k] against a
    negative [b] with [|b| <= 2^k], [^] returns [b + 2^k], whereas the
    exclusive or of the two integers is [b - 2^k]. *)
Theorem xor_power_of_two_against_negative (fuel : nat) (k b : Z) :
  (0 <= k)%Z -> (- 2 ^ k <= b < 0)%Z -> (2 * 2 ^ k < Z.of_nat fuel)%Z ->
  CasNum.xor_ fuel (cn (2 ^ k)) (cn b) = Ok (cn (b + 2 ^ k))
  /\ Z.lxor (2 ^ k) b = (b - 2 ^ k)%Z.
Proof.
  intros Hk Hb Hf.
  assert (P : (0 < 2 ^ k)%Z) by (apply Z.pow_pos_nonneg; lia).
  assert (HT : twos_n (2 ^ k) b = (2 ^ k)%Z).
  { unfold twos_n. rewrite (Z.abs_eq (2 ^ k)) by lia.
    rewrite Z.log2_up_pow2 by exact Hk.
    apply Z.max_l.
    apply Z.pow_le_mono_r; [lia |].
    destruct (Z.le_gt_cases (Z.abs b) 1) as [L | G].
    - rewrite Z.log2_up_eqn0 by exact L. exact Hk.
    - apply Z.log2_up_le_pow2; lia. }
  split.
  - unfold CasNum.xor_.
    rewrite zero_cn, one_cn, !ge_cn. bind_step.
    rewrite (proj2 (Z.leb_le 0 (2 ^ k))) by lia. bind_step.
    rewrite (proj2 (Z.leb_gt 0 b)) by lia. cbv iota.
    twos_prefix fuel (2 ^ k)%Z b.
    rewrite (proj2 (Z.ltb_ge (2 ^ k) 0)) by lia. bind_step. bind_step. bind_step.
    rewrite (proj2 (Z.ltb_lt b 0)) by lia.
    rewrite !add_cn. bind_step. bind_step.
    rewrite HT.
    rewrite xor_positive_cn by lia. bind_step.
    rewrite eq_cn. change (0 + 1 =? 1)%Z with true. cbv iota.
    rewrite sub_cn. apply Ok_cn_eq.
    rewrite <- Z.add_nocarry_lxor.
    + lia.
    + apply Z.bits_inj'. intros i Hi.
      rewrite Z.land_spec, Z.bits_0, Z.pow2_bits_eqb by exact Hk.
      destruct (Z.eqb_spec k i) as [E | N]; [| reflexivity].
      subst i. rewrite (lowbits_range k (b + 2 ^ k)%Z) by lia. reflexivity.
  - apply Z.bits_inj'. intros i Hi.
    rewrite Z.lxor_spec, Z.pow2_bits_eqb by exact Hk.
    rewrite (testbit_negative k Hk b i Hb Hi).
    replace (b - 2 ^ k)%Z with ((b + 2 ^ k) - 2 ^ (k + 1))%Z
      by (rewrite Z.pow_add_r by lia; lia).
    rewrite (testbit_sub_pow2 (k + 1)) by
      (try lia; apply lowbits_range; rewrite ?Z.pow_add_r by lia; lia).
    destruct (Z.eqb_spec k i) as [E | N].
    + subst i. rewrite (proj2 (Z.leb_le k k)) by lia.
      rewrite (proj2 (Z.leb_gt (k + 1) k)) by lia.
      rewrite (lowbits_range k (b + 2 ^ k)%Z) by lia. reflexivity.
    + destruct (Z.leb_spec k i) as [G | L].
      * rewrite (proj2 (Z.leb_le (k + 1) i)) by lia. reflexivity.
      * rewrite (proj2 (Z.leb_gt (k + 1) i)) by lia. reflexivity.
Qed.

(** ** Perpendiculars *)

Lemma line_of_eq (a b c d a' b' c' d' : R) :
  a = a' -> b = b' -> c = c' -> d = d' -> line_of a b c d = line_of a' b' c' d'.
Proof. intros -> -> -> ->. reflexivity. Qed.

Lemma Ok_line_of_eq (a b c d a' b' c' d' : R) :
  a = a' -> b = b' -> c = c' -> d = d' ->
  @Ok Line.t (line_of a b c d) = Ok (line_of a' b' c' d').
Proof. intros -> -> -> ->. reflexivity. Qed.

Lemma sel_ok_left (X a1 a2 : R) : X <= a1 -> sel_ok X a1 a2.
Proof. intros H. left. exact H. Qed.

Lemma sel_ok_right (X a1 a2 : R) :
  tol <= 2 * (X - a1) -> tol <= 2 * Rabs (a1 - a2) -> sel_ok X a1 a2.
Proof. intros H1 H2. right. split; assumption. Qed.

(** The perpendicular to a horizontal line at one of its points: the circle
    around the point goes through the first point of the line, or through
    the second when the point is the first. *)
Lemma perp_on_horizontal (px ox a b c : R) :
  a <> c ->
  (px = a /\ ox = c) \/ (px <> a /\ ox = a) ->
  tol <= Rabs (px - ox) ->
  cas_utils.get_perpendicular_to_line_through_point (pt px b) (line_of a b c b)
  = Ok (line_of px (b + sqrt 3 * Rabs (px - ox)) px b).
Proof.
  intros Hac Hbr Hw.
  pose proof tol_pos as Ht. pose proof sqrt3_sq as H3. pose proof sqrt3_pos as H3p.
  pose proof sqrt3_gt1 as H31.
  set (w := Rabs (px - ox)) in *.
  assert (Hwp : 0 < w) by lra.
  assert (Hww : w * w = (px - ox) * (px - ox)).
  { unfold w. rewrite Rabs_sq. ring. }
  assert (Hpo : px <> ox).
  { intros E. subst ox. unfold w in Hwp. replace (px - px) with 0 in Hwp by ring.
    rewrite Rabs_R0 in Hwp. lra. }
  unfold cas_utils.get_perpendicular_to_line_through_point.
  rewrite dfp_line_of by (left; exact Hac).
  replace ((b - b) * px + (c - a) * b + (a * b - c * b)) with 0 by ring.
  rewrite Rabs_R0. unfold Rdiv at 1. rewrite Rmult_0_l.
  unfold sym_gt. rewrite sym_lt_Re_false by lra. bind_step.
  change (Line.p1 (line_of a b c b)) with (pt a b).
  change (Line.p2 (line_of a b c b)) with (pt c b).
  assert (Hc : (if Point.isEqual (pt px b) (pt a b)
                then Circle.init (pt px b) (pt c b)
                else Circle.init (pt px b) (pt a b))
               = Ok (circle_of px b ox b)).
  { destruct Hbr as [[E1 E2] | [N1 E2]].
    - rewrite isEqual_pt_true by (exact E1 || reflexivity).
      rewrite E2. apply Circle_init_pt. left. rewrite <- E2. exact Hpo.
    - rewrite isEqual_pt_false by (left; exact N1).
      rewrite E2. apply Circle_init_pt. left. exact N1. }
  rewrite Hc. bind_step.
  rewrite (iwl_horizontal px b ox b a b c w Hac Hwp) by (rewrite Hww; ring).
  bind_step. cbn [unpack2]. bind_step.
  (* the two bisectors *)
  rewrite Line_init_pt by (left; lra). bind_step.
  rewrite bisector_rightwards; [| lra | nra | apply sel_ok_right | apply sel_ok_right].
  2,4: replace (b - b) with 0 by ring; lra.
  2,3: replace (px - (px + w)) with (- w) by ring; rewrite Rabs_Ropp, Rabs_right by lra; lra.
  bind_step.
  rewrite Line_init_pt by (left; lra). bind_step.
  rewrite bisector_leftwards; [| lra | nra | apply sel_ok_left | apply sel_ok_left].
  2,3: replace (b - b) with 0 by ring; lra.
  bind_step.
  replace ((px + (px + w)) / 2 - sqrt 3 / 2 * (b - b)) with (px + w / 2) by field.
  replace ((px + (px + w)) / 2 + sqrt 3 / 2 * (b - b)) with (px + w / 2) by field.
  replace ((b + b) / 2 + sqrt 3 / 2 * (px + w - px)) with (b + sqrt 3 / 2 * w) by field.
  replace ((b + b) / 2 - sqrt 3 / 2 * (px + w - px)) with (b - sqrt 3 / 2 * w) by field.
  replace ((px + (px - w)) / 2 + sqrt 3 / 2 * (b - b)) with (px - w / 2) by field.
  replace ((px + (px - w)) / 2 - sqrt 3 / 2 * (b - b)) with (px - w / 2) by field.
  replace ((b + b) / 2 + sqrt 3 / 2 * (px - (px - w))) with (b + sqrt 3 / 2 * w) by field.
  replace ((b + b) / 2 - sqrt 3 / 2 * (px - (px - w))) with (b - sqrt 3 / 2 * w) by field.
  rewrite (iwl_vertical px b ox b (px + w / 2) _ _ (sqrt 3 / 2 * w)).
  2: nra.
  2: nra.
  2:{ rewrite <- Hww.
      replace (sqrt 3 / 2 * w * (sqrt 3 / 2 * w)) with (sqrt 3 * sqrt 3 * (w * w) / 4) by field.
      rewrite H3. field. }
  bind_step. cbn [unpack2]. bind_step.
  rewrite (iwl_vertical px b ox b (px - w / 2) _ _ (sqrt 3 / 2 * w)).
  2: nra.
  2: nra.
  2:{ rewrite <- Hww.
      replace (sqrt 3 / 2 * w * (sqrt 3 / 2 * w)) with (sqrt 3 * sqrt 3 * (w * w) / 4) by field.
      rewrite H3. field. }
  bind_step. cbn [unpack2]. bind_step.
  rewrite !Point_dist_pt.
  rewrite sym_lt_Re_true.
  2:{ apply sqrt_lt_1; [apply sum_sq_nonneg | apply sum_sq_nonneg |].
      replace (px + w / 2 - (px - w / 2)) with w by field.
      replace (b + sqrt 3 / 2 * w - (b + sqrt 3 / 2 * w)) with 0 by ring.
      replace (b + sqrt 3 / 2 * w - (b - sqrt 3 / 2 * w)) with (sqrt 3 * w) by field.
      assert (0 < sqrt 3 * w * (sqrt 3 * w)) by (apply Rmult_lt_0_compat; nra).
      lra. }
  bind_step.
  rewrite Line_init_pt by (left; lra). bind_step.
  rewrite bisector_leftwards; [| lra | nra | apply sel_ok_left | apply sel_ok_left].
  2,3: replace (b + sqrt 3 / 2 * w - (b + sqrt 3 / 2 * w)) with 0 by ring; lra.
  apply Ok_line_of_eq; field.
Qed.

Lemma y_axis_ok : CasNum.y_axis = Ok (line_of 0 (sqrt 3) 0 0).
Proof.
  unfold CasNum.y_axis, cas_utils.get_y_axis.
  change CasNum.origin with (pt 0 0). change CasNum.unit with (pt 1 0).
  rewrite Line_init_pt by (left; lra). bind_step.
  assert (E : Rabs (0 - 1) = 1) by (rewrite Rabs_left by lra; ring).
  rewrite (perp_on_horizontal 0 1 0 0 1).
  - apply Ok_line_of_eq; try reflexivity. rewrite E. ring.
  - lra.
  - left. split; reflexivity.
  - rewrite E. pose proof tol_lt_1. lra.
Qed.

Lemma Rabs_pos_neq (x : R) : x <> 0 -> 0 < Rabs x.
Proof. apply Rabs_pos_lt. Qed.

(** The two circles around the points (a, y + w) and (a, y - w) of a
    vertical line, both through (x, y): the ordinates of their common points
    coincide, and the points returned are (x, y) and its mirror image. *)
Lemma cc_vertical_pair (a x y w : R) :
  x <> a -> 0 < w ->
  Circle.get_intersection (circle_of a (y + w) x y) (circle_of a (y - w) x y)
  = Ok [pt (a + Rabs (x - a)) y; pt (a - Rabs (x - a)) y].
Proof.
  intros Hx Hw.
  apply (cc_near a (y + w) x y a (y - w) x y x y (a - (x - a)) y).
  - ring.
  - ring.
  - ring.
  - ring.
  - replace (a - a) with 0 by ring. lra.
  - replace (a - a) with 0 by ring.
    intros E.
    assert (E' : (2 * w) * (x - a) = 0) by lra.
    apply Rmult_integral in E'. destruct E' as [E' | E']; lra.
  - replace (a - a) with 0 by ring. lra.
  - replace (y - y) with 0 by ring. rewrite Rabs_R0. exact tol_pos.
Qed.

(** The perpendicular to a vertical line through a point off the line: the
    horizontal line through the point, for all positions, with no condition
    of tolerance. *)
Lemma perp_off_vertical (px py a b d : R) :
  px <> a -> b <> d ->
  cas_utils.get_perpendicular_to_line_through_point (pt px py) (line_of a b a d)
  = Ok (line_of (a + Rabs (px - a)) py (a - Rabs (px - a)) py).
Proof.
  intros Hx Hbd.
  assert (Hr : 0 < Rabs (px - a)) by (apply Rabs_pos_neq; lra).
  unfold cas_utils.get_perpendicular_to_line_through_point.
  rewrite dfp_line_of by (right; exact Hbd).
  unfold sym_gt. rewrite sym_lt_Re_true.
  2:{ apply Rdiv_lt_0_compat.
      - apply Rabs_pos_neq.
        replace ((b - d) * px + (a - a) * py + (a * d - a * b)) with ((b - d) * (px - a)) by ring.
        apply Rmult_integral_contrapositive_currified; lra.
      - apply sqrt_lt_R0. apply sum_sq_pos. left. lra. }
  bind_step.
  change (Line.p1 (line_of a b a d)) with (pt a b).
  change (Line.p2 (line_of a b a d)) with (pt a d).
  rewrite Circle_init_pt by (left; exact Hx). bind_step.
  destruct (Req_dec_T py b) as [E | N].
  - (* the first circle touches the line *)
    subst py.
    rewrite iwl_vertical_tangent by (try exact Hbd; ring).
    bind_step. cbn [List.length Nat.ltb Nat.leb]. 
    rewrite Circle_init_pt by (left; exact Hx). bind_step.
    rewrite (iwl_vertical px b a d a b d (Rabs (b - d))).
    2: exact Hbd.
    2: apply Rabs_pos_neq; lra.
    2: rewrite Rabs_sq; ring.
    bind_step. cbn [unpack2]. bind_step.
    rewrite !Circle_init_pt by (left; lra). bind_step. bind_step.
    unfold Circle.intersect.
    rewrite cc_vertical_pair by (try exact Hx; apply Rabs_pos_neq; lra).
    bind_step. cbn [unpack2]. bind_step.
    apply Line_init_pt. left. lra.
  - rewrite (iwl_vertical px py a b a b d (Rabs (py - b))).
    2: exact Hbd.
    2: apply Rabs_pos_neq; lra.
    2: rewrite Rabs_sq; ring.
    bind_step. cbn [List.length Nat.ltb Nat.leb]. bind_step.
    cbn [unpack2]. bind_step.
    rewrite !Circle_init_pt by (left; lra). bind_step. bind_step.
    unfold Circle.intersect.
    rewrite cc_vertical_pair by (try exact Hx; apply Rabs_pos_neq; lra).
    bind_step. cbn [unpack2]. bind_step.
    apply Line_init_pt. left. lra.
Qed.

(** [mirror_point] in a vertical line is exact for every point off the
    line. *)
Lemma mirror_vertical (px py a b d : R) :
  px <> a -> b <> d ->
  cas_utils.mirror_point (pt px py) (line_of a b a d) = Ok (pt (2 * a - px) py).
Proof.
  intros Hx Hbd.
  assert (Hr : 0 < Rabs (px - a)) by (apply Rabs_pos_neq; lra).
  unfold cas_utils.mirror_point.
  rewrite perp_off_vertical by assumption. bind_step.
  unfold Line.intersect.
  rewrite (line_intersection_pt _ _ _ _ _ _ _ _ a py).
  2:{ replace ((b - d) * (a - Rabs (px - a) - (a + Rabs (px - a))) - (a - a) * (py - py))
        with (- (2 * ((b - d) * Rabs (px - a)))) by ring.
      assert ((b - d) * Rabs (px - a) <> 0)
        by (apply Rmult_integral_contrapositive_currified; lra).
      lra. }
  2: ring.
  2: ring.
  bind_step.
  rewrite Circle_init_pt by (left; lra). bind_step.
  rewrite (iwl_horizontal a py px py _ py _ (Rabs (px - a))).
  2: lra.
  2: exact Hr.
  2: rewrite Rabs_sq; ring.
  bind_step. cbn [unpack2]. bind_step.
  destruct (Rlt_or_le a px) as [L | G].
  - rewrite Rabs_right by lra.
    rewrite isEqual_pt_true by (try reflexivity; ring).
    f_equal. apply pt_eq; [ring | reflexivity].
  - rewrite Rabs_left by lra.
    rewrite isEqual_pt_false by (left; lra).
    f_equal. apply pt_eq; [ring | reflexivity].
Qed.

Lemma neg_unit_ok :
  (ya <- CasNum.y_axis ;; cas_utils.mirror_point CasNum.unit ya) = Ok (pt (-1) 0).
Proof.
  rewrite y_axis_ok. bind_step. change CasNum.unit with (pt 1 0).
  rewrite mirror_vertical.
  - f_equal. apply pt_eq; [ring | reflexivity].
  - lra.
  - pose proof sqrt3_pos. lra.
Qed.

(** A line in general position that touches the circle in (X, Y): the
    radius to (X, Y) is perpendicular to the line. *)
Lemma iwl_general_tangent (ca cb cc cd a b c d X Y : R) :
  a <> c -> b <> d ->
  Y = (d - b) / (c - a) * X + (b - (d - b) / (c - a) * a) ->
  (X - ca) * (c - a) + (Y - cb) * (d - b) = 0 ->
  (X - ca) * (X - ca) + (Y - cb) * (Y - cb)
  = (ca - cc) * (ca - cc) + (cb - cd) * (cb - cd) ->
  Circle.intersect_with_line (circle_of ca cb cc cd) (line_of a b c d)
  = Ok [pt X Y].
Proof.
  intros Hac Hbd HY Hperp E1. unfold Circle.intersect_with_line.
  cbn [circle_of Circle.center Circle.radius].
  rewrite dfp_line_of by (left; exact Hac).
  assert (Hrho : 0 <= (ca - cc) * (ca - cc) + (cb - cd) * (cb - cd)) by apply sum_sq_nonneg.
  set (rho := (ca - cc) * (ca - cc) + (cb - cd) * (cb - cd)) in *.
  clearbody rho.
  set (m := (d - b) / (c - a)) in *.
  set (k := b - m * a) in *.
  assert (Hm : m * (c - a) = d - b) by (unfold m; field; lra).
  assert (Hk : k = b - m * a) by reflexivity.
  assert (Hmdef : (d - b) / (c - a) = m) by reflexivity.
  clearbody k. clearbody m.
  assert (Hm1 : 0 < 1 + m * m) by (pose proof (sq_nonneg m); lra).
  assert (Hd : d = b + m * (c - a)) by lra.
  assert (Hp : X - ca = - m * (Y - cb)).
  { rewrite Hd in Hperp.
    assert (P : (c - a) * ((X - ca) + (Y - cb) * m) = 0) by lra.
    apply Rmult_integral in P. destruct P as [P | P]; lra. }
  assert (Hv : 0 < (b - d) * (b - d) + (c - a) * (c - a)).
  { apply sum_sq_pos. left. lra. }
  assert (Hdel : rho * (1 + m * m) - (m * ca - cb + k) * (m * ca - cb + k) = 0).
  { rewrite <- E1.
    assert (Hca : ca = X + m * (Y - cb)) by lra.
    rewrite Hca, HY. ring. }
  assert (E : Rabs ((b - d) * ca + (c - a) * cb + (a * d - c * b))
              / sqrt ((b - d) * (b - d) + (c - a) * (c - a)) = sqrt rho).
  { apply Rabs_div_sqrt_eq; [exact Hv | exact Hrho |].
    replace ((b - d) * ca + (c - a) * cb + (a * d - c * b))
      with (- (c - a) * (m * ca - cb + k)).
    2:{ rewrite Hk, Hd. ring. }
    replace ((b - d) * (b - d) + (c - a) * (c - a))
      with ((c - a) * (c - a) * (1 + m * m)).
    2:{ rewrite Hd. ring. }
    replace (- (c - a) * (m * ca - cb + k) * (- (c - a) * (m * ca - cb + k)))
      with ((c - a) * (c - a) * ((m * ca - cb + k) * (m * ca - cb + k))) by ring.
    replace (rho * ((c - a) * (c - a) * (1 + m * m)))
      with ((c - a) * (c - a) * (rho * (1 + m * m))) by ring.
    f_equal. lra. }
  rewrite E.
  rewrite sym_lt_Re_false by lra.
  bind_step. cbn [sym_sub sym_eqb].
  rewrite (Reqb_true (sqrt rho - sqrt rho) 0) by lra.
  change (Line.A (line_of a b c d)) with (Re (b - d)).
  change (Line.B (line_of a b c d)) with (Re (c - a)).
  cbn [sym_eqb].
  rewrite (Reqb_false (b - d) 0) by lra.
  rewrite (Reqb_false (c - a) 0) by lra.
  unfold Line.at_. rewrite line_of_slope, line_of_intercept by lra.
  rewrite Hmdef, <- Hk.
  unfold Circle.line_root, pt, sym_pow2.
  cbn [Point.x Point.y sym_neg sym_mul sym_sub sym_add].
  assert (Hs : sqrt rho * sqrt rho = rho) by (apply sqrt_sqrt; exact Hrho).
  match goal with |- context [sym_sqrt (Re ?D)] =>
    assert (HD : D = 0) by (rewrite <- Hdel;
      replace (m * sqrt rho * (m * sqrt rho)) with (m * m * (sqrt rho * sqrt rho)) by ring;
      rewrite Hs; ring);
    rewrite HD
  end.
  rewrite sym_sqrt_Re by lra.
  rewrite sqrt_0.
  cbn [sym_neg sym_mul sym_sub sym_add].
  rewrite !sym_div_Re by lra.
  cbn [sym_neg sym_mul sym_sub sym_add Point.init].
  assert (R1 : (-1 * 0 + ca + cb * m - k * m) / (m * m + 1) = X).
  { apply Rmult_eq_reg_r with (m * m + 1); [| lra].
    unfold Rdiv at 1. rewrite Rmult_assoc, Rinv_l by lra.
    assert (Hca : ca = X + m * (Y - cb)) by lra.
    rewrite Hca, HY. ring. }
  rewrite R1. rewrite <- HY. reflexivity.
Qed.

Section PerpOff.

Variables px py a b c d q1x q1y q2x q2y mx my : R.

Hypothesis Hac : a <> c.
Hypothesis Hbd : b <> d.
Hypothesis Hoff : (b - d) * px + (c - a) * py + (a * d - c * b) <> 0.
Hypothesis Hq : q1x < q2x.
Hypothesis Hq1 : q1y = (d - b) / (c - a) * q1x + (b - (d - b) / (c - a) * a).
Hypothesis Hq2 : q2y = (d - b) / (c - a) * q2x + (b - (d - b) / (c - a) * a).
Hypothesis Hd : (q2x - px) * (q2x - px) + (q2y - py) * (q2y - py)
                = (q1x - px) * (q1x - px) + (q1y - py) * (q1y - py).
Hypothesis HM1 : (mx - q1x) * (mx - q1x) + (my - q1y) * (my - q1y)
                 = (q1x - px) * (q1x - px) + (q1y - py) * (q1y - py).
Hypothesis HM2 : (mx - q2x) * (mx - q2x) + (my - q2y) * (my - q2y)
                 = (q2x - px) * (q2x - px) + (q2y - py) * (q2y - py).
Hypothesis HW1 : 0 < (q2x - q1x) * (my - q1y) - (q2y - q1y) * (mx - q1x).
Hypothesis HW2 : (q2x - q1x) * (py - q1y) - (q2y - q1y) * (px - q1x) <= 0.
Hypothesis Hfar : tol <= my - py.
Hypothesis S1 : sel_ok mx q1x q2x.
Hypothesis S2 : sel_ok px q1x q2x.

Lemma on_line_eq (x y : R) :
  y = (d - b) / (c - a) * x + (b - (d - b) / (c - a) * a) ->
  (b - d) * x + (c - a) * y + (a * d - c * b) = 0.
Proof. intros ->. field. lra. Qed.

Lemma perp_off_dist_pos :
  0 < Rabs ((b - d) * px + (c - a) * py + (a * d - c * b))
      / sqrt ((b - d) * (b - d) + (c - a) * (c - a)).
Proof.
  apply Rdiv_lt_0_compat.
  - apply Rabs_pos_lt. exact Hoff.
  - apply sqrt_lt_R0. apply sum_sq_pos. right. lra.
Qed.

Lemma perp_off_q1 : q1x <> px \/ q1y <> py.
Proof.
  destruct (Req_dec_T q1x px) as [E1 | N1]; [| left; exact N1].
  destruct (Req_dec_T q1y py) as [E2 | N2]; [| right; exact N2].
  exfalso. apply Hoff. rewrite <- E1, <- E2. apply on_line_eq. exact Hq1.
Qed.

Lemma perp_off_q2 : q2x <> px \/ q2y <> py.
Proof.
  destruct (Req_dec_T q2x px) as [E1 | N1]; [| left; exact N1].
  destruct (Req_dec_T q2y py) as [E2 | N2]; [| right; exact N2].
  exfalso. apply Hoff. rewrite <- E1, <- E2. apply on_line_eq. exact Hq2.
Qed.

Lemma perp_off_p1_ne : px <> a \/ py <> b.
Proof.
  destruct (Req_dec_T px a) as [E1 | N1]; [| left; exact N1].
  destruct (Req_dec_T py b) as [E2 | N2]; [| right; exact N2].
  exfalso. apply Hoff. rewrite E1, E2. ring.
Qed.

Lemma perp_off_p2_ne : px <> c \/ py <> d.
Proof.
  destruct (Req_dec_T px c) as [E1 | N1]; [| left; exact N1].
  destruct (Req_dec_T py d) as [E2 | N2]; [| right; exact N2].
  exfalso. apply Hoff. rewrite E1, E2. ring.
Qed.

(** The circle through the first point of the line meets the line twice. *)
Lemma perp_off_general :
  (q1x - px) * (q1x - px) + (q1y - py) * (q1y - py)
  = (px - a) * (px - a) + (py - b) * (py - b) ->
  cas_utils.get_perpendicular_to_line_through_point (pt px py) (line_of a b c d)
  = Ok (line_of mx my px py).
Proof.
  intros Hr.
  pose proof perp_off_q1 as Q1. pose proof perp_off_q2 as Q2.
  unfold cas_utils.get_perpendicular_to_line_through_point.
  rewrite dfp_line_of by (left; exact Hac).
  unfold sym_gt. rewrite (sym_lt_Re_true _ _ perp_off_dist_pos). bind_step.
  change (Line.p1 (line_of a b c d)) with (pt a b).
  change (Line.p2 (line_of a b c d)) with (pt c d).
  rewrite Circle_init_pt by exact perp_off_p1_ne. bind_step.
  rewrite (iwl_general px py a b a b c d q1x q1y q2x q2y Hac Hbd Hq Hq1 Hq2)
    by lra.
  bind_step. cbn [List.length Nat.ltb Nat.leb]. bind_step.
  cbn [unpack2]. bind_step.
  rewrite (Circle_init_pt q1x q1y px py) by assumption. bind_step.
  rewrite (Circle_init_pt q2x q2y px py) by assumption. bind_step.
  unfold Circle.intersect.
  rewrite (cc_far q1x q1y px py q2x q2y px py mx my px py).
  - bind_step. cbn [unpack2]. bind_step. apply Line_init_pt. right.
    pose proof tol_pos. lra.
  - assumption.
  - assumption.
  - ring.
  - ring.
  - apply Rmult_le_pos; lra.
  - lra.
  - assert (0 < q2x - q1x) by lra. nra.
  - assumption.
  - assumption.
  - assumption.
Qed.

(** The circle through the first point touches the line there, and the
    circle through the second point is taken instead. *)
Lemma perp_off_general_tangent :
  (a - px) * (c - a) + (b - py) * (d - b) = 0 ->
  (q1x - px) * (q1x - px) + (q1y - py) * (q1y - py)
  = (px - c) * (px - c) + (py - d) * (py - d) ->
  cas_utils.get_perpendicular_to_line_through_point (pt px py) (line_of a b c d)
  = Ok (line_of mx my px py).
Proof.
  intros Htan Hr.
  pose proof perp_off_q1 as Q1. pose proof perp_off_q2 as Q2.
  unfold cas_utils.get_perpendicular_to_line_through_point.
  rewrite dfp_line_of by (left; exact Hac).
  unfold sym_gt. rewrite (sym_lt_Re_true _ _ perp_off_dist_pos). bind_step.
  change (Line.p1 (line_of a b c d)) with (pt a b).
  change (Line.p2 (line_of a b c d)) with (pt c d).
  rewrite Circle_init_pt by exact perp_off_p1_ne. bind_step.
  rewrite (iwl_general_tangent px py a b a b c d a b Hac Hbd)
    by (try exact Htan; try ring; field; lra).
  bind_step. cbn [List.length Nat.ltb Nat.leb].
  rewrite Circle_init_pt by exact perp_off_p2_ne. bind_step.
  rewrite (iwl_general px py c d a b c d q1x q1y q2x q2y Hac Hbd Hq Hq1 Hq2)
    by lra.
  bind_step. cbn [unpack2]. bind_step.
  rewrite (Circle_init_pt q1x q1y px py) by assumption. bind_step.
  rewrite (Circle_init_pt q2x q2y px py) by assumption. bind_step.
  unfold Circle.intersect.
  rewrite (cc_far q1x q1y px py q2x q2y px py mx my px py).
  - bind_step. cbn [unpack2]. bind_step. apply Line_init_pt. right.
    pose proof tol_pos. lra.
  - assumption.
  - assumption.
  - ring.
  - ring.
  - apply Rmult_le_pos; lra.
  - lra.
  - assert (0 < q2x - q1x) by lra. nra.
  - assumption.
  - assumption.
  - assumption.
Qed.

End PerpOff.

(** ** Parallels *)

Section Parallel.

Variables px py a b c d mx my fx fy ax ay bx by' : R.

(** The perpendicular through the point, its foot F on the line, and the
    chord A B that the circle around the point through F cuts from the
    perpendicular. *)
Hypothesis Hperp :
  cas_utils.get_perpendicular_to_line_through_point (pt px py) (line_of a b c d)
  = Ok (line_of mx my px py).
Hypothesis Hmx : mx <> px.
Hypothesis Hmy : my <> py.
Hypothesis Hdet : (b - d) * (px - mx) - (c - a) * (my - py) <> 0.
Hypothesis HF1 : (b - d) * fx + (c - a) * fy + (a * d - c * b) = 0.
Hypothesis HF2 : (my - py) * fx + (px - mx) * fy + (mx * py - px * my) = 0.
Hypothesis HFP : px <> fx \/ py <> fy.
Hypothesis Hab : ax < bx.
Hypothesis HA :
  ay = (py - my) / (px - mx) * ax + (my - (py - my) / (px - mx) * mx).
Hypothesis HB :
  by' = (py - my) / (px - mx) * bx + (my - (py - my) / (px - mx) * mx).
Hypothesis HAc : (ax - px) * (ax - px) + (ay - py) * (ay - py)
                 = (px - fx) * (px - fx) + (py - fy) * (py - fy).
Hypothesis HBc : (bx - px) * (bx - px) + (by' - py) * (by' - py)
                 = (px - fx) * (px - fx) + (py - fy) * (py - fy).
Hypothesis Hfar : tol <= sqrt 3 * (bx - ax).
Hypothesis S1 : sel_ok ((ax + bx) / 2 - sqrt 3 / 2 * (by' - ay)) ax bx.
Hypothesis S2 : sel_ok ((ax + bx) / 2 + sqrt 3 / 2 * (by' - ay)) ax bx.

Lemma parallel_general :
  cas_utils.get_parallel_to_line_through_point (pt px py) (line_of a b c d)
  = Ok (line_of ((ax + bx) / 2 - sqrt 3 / 2 * (by' - ay))
                ((ay + by') / 2 + sqrt 3 / 2 * (bx - ax))
                ((ax + bx) / 2 + sqrt 3 / 2 * (by' - ay))
                ((ay + by') / 2 - sqrt 3 / 2 * (bx - ax))).
Proof.
  unfold cas_utils.get_parallel_to_line_through_point.
  rewrite Hperp. bind_step.
  unfold Line.intersect.
  rewrite (line_intersection_pt a b c d mx my px py fx fy Hdet HF1 HF2).
  bind_step.
  rewrite Circle_init_pt by exact HFP. bind_step.
  rewrite (iwl_general px py fx fy mx my px py ax ay bx by' Hmx Hmy Hab HA HB HAc HBc).
  bind_step. cbn [star2]. bind_step.
  rewrite Line_init_pt by (left; lra). bind_step.
  apply bisector_rightwards; assumption.
Qed.

End Parallel.

(** ** The construction of [__mul__] *)

Section MulConstruction.

(** The slanted line through (0, a) and (-1, 0) and the point (b, 0). *)
Variables a b : R.
Hypothesis Ha : 0 < a.
Hypothesis Hb : 0 < b.

Let N := 1 + a * a.
Let al := a * a * (b + 1) / N.
Let be' := a * (b + 1) / N.
Let xs := 2 * (b - a * a) / N.

Lemma mul_N_pos : 0 < N.
Proof. unfold N. pose proof (sq_nonneg a). lra. Qed.

Lemma mul_al_pos : 0 < al.
Proof.
  unfold al. apply Rdiv_lt_0_compat; [| exact mul_N_pos].
  apply Rmult_lt_0_compat; [apply Rmult_lt_0_compat; lra | lra].
Qed.

Lemma mul_be_pos : 0 < be'.
Proof.
  unfold be'. apply Rdiv_lt_0_compat; [| exact mul_N_pos].
  apply Rmult_lt_0_compat; lra.
Qed.

Lemma mul_al_be : al = a * be'.
Proof. unfold al, be', N. pose proof (sq_nonneg a). field. lra. Qed.

Hypothesis Hfar : tol <= 2 * be'.

(** The perpendicular from (b, 0), when b > a^2. *)
Lemma mul_perp_gt :
  a * a < b ->
  sel_ok (b - 2 * al) 0 xs -> sel_ok b 0 xs ->
  cas_utils.get_perpendicular_to_line_through_point (pt b 0) (line_of 0 a (-1) 0)
  = Ok (line_of (b - 2 * al) (2 * be') b 0).
Proof.
  intros Hgt S1 S2. pose proof mul_N_pos as HN. pose proof (sq_nonneg a) as Hsq.
  assert (Hxs : 0 < xs).
  { unfold xs. apply Rdiv_lt_0_compat; lra. }
  apply (perp_off_general b 0 0 a (-1) 0 0 a xs (a * (xs + 1))).
  - lra.
  - lra.
  - replace ((a - 0) * b + (-1 - 0) * 0 + (0 * 0 - -1 * a)) with (a * (b + 1)) by ring.
    apply Rmult_integral_contrapositive_currified; lra.
  - exact Hxs.
  - field.
  - field.
  - unfold xs, N. field. lra.
  - unfold al, be', N. field. lra.
  - unfold al, be', xs, N. field. lra.
  - replace ((xs - 0) * (2 * be' - a) - (a * (xs + 1) - a) * (b - 2 * al - 0))
      with (xs * (2 * be' + 2 * a * al - a * (b + 1))) by ring.
    replace (2 * be' + 2 * a * al - a * (b + 1)) with (a * (b + 1))
      by (unfold al, be', N; field; lra).
    apply Rmult_lt_0_compat; [exact Hxs | apply Rmult_lt_0_compat; lra].
  - replace ((xs - 0) * (0 - a) - (a * (xs + 1) - a) * (b - 0))
      with (- (xs * (a * (b + 1)))) by ring.
    assert (0 < xs * (a * (b + 1)))
      by (apply Rmult_lt_0_compat; [exact Hxs | apply Rmult_lt_0_compat; lra]).
    lra.
  - lra.
  - exact S1.
  - exact S2.
  - ring.
Qed.

(** The same when b < a^2: the second point of the line lies to the left. *)
Lemma mul_perp_lt :
  b < a * a ->
  sel_ok (b - 2 * al) xs 0 -> sel_ok b xs 0 ->
  cas_utils.get_perpendicular_to_line_through_point (pt b 0) (line_of 0 a (-1) 0)
  = Ok (line_of (b - 2 * al) (2 * be') b 0).
Proof.
  intros Hlt S1 S2. pose proof mul_N_pos as HN. pose proof (sq_nonneg a) as Hsq.
  assert (Hxs : xs < 0).
  { unfold xs.
    assert (0 < 2 * (a * a - b) / N) by (apply Rdiv_lt_0_compat; lra).
    replace (2 * (b - a * a) / N) with (- (2 * (a * a - b) / N)) by (field; lra).
    lra. }
  apply (perp_off_general b 0 0 a (-1) 0 xs (a * (xs + 1)) 0 a).
  - lra.
  - lra.
  - replace ((a - 0) * b + (-1 - 0) * 0 + (0 * 0 - -1 * a)) with (a * (b + 1)) by ring.
    apply Rmult_integral_contrapositive_currified; lra.
  - exact Hxs.
  - field.
  - field.
  - unfold xs, N. field. lra.
  - unfold al, be', xs, N. field. lra.
  - unfold al, be', N. field. lra.
  - replace ((0 - xs) * (2 * be' - a * (xs + 1)) - (a - a * (xs + 1)) * (b - 2 * al - xs))
      with (- xs * (2 * be' + 2 * a * al - a * (b + 1))) by ring.
    replace (2 * be' + 2 * a * al - a * (b + 1)) with (a * (b + 1))
      by (unfold al, be', N; field; lra).
    apply Rmult_lt_0_compat; [lra | apply Rmult_lt_0_compat; lra].
  - replace ((0 - xs) * (0 - a * (xs + 1)) - (a - a * (xs + 1)) * (b - xs))
      with (- (- xs * (a * (b + 1)))) by ring.
    assert (0 < - xs * (a * (b + 1)))
      by (apply Rmult_lt_0_compat; [lra | apply Rmult_lt_0_compat; lra]).
    lra.
  - lra.
  - exact S1.
  - exact S2.
  - unfold xs, N. field. lra.
Qed.

(** The same when b = a^2: the circle through (0, a) touches the line, and
    the circle through (-1, 0) is used. *)
Lemma mul_perp_eq :
  b = a * a ->
  sel_ok (b - 2 * al) (-1) 1 -> sel_ok b (-1) 1 ->
  cas_utils.get_perpendicular_to_line_through_point (pt b 0) (line_of 0 a (-1) 0)
  = Ok (line_of (b - 2 * al) (2 * be') b 0).
Proof.
  intros Heq S1 S2. pose proof mul_N_pos as HN. pose proof (sq_nonneg a) as Hsq.
  apply (perp_off_general_tangent b 0 0 a (-1) 0 (-1) 0 1 (2 * a)).
  - lra.
  - lra.
  - replace ((a - 0) * b + (-1 - 0) * 0 + (0 * 0 - -1 * a)) with (a * (b + 1)) by ring.
    apply Rmult_integral_contrapositive_currified; lra.
  - lra.
  - field.
  - field.
  - rewrite Heq. ring.
  - unfold al, be', N. rewrite Heq. field. lra.
  - unfold al, be', N. rewrite Heq. field. lra.
  - replace ((1 - -1) * (2 * be' - 0) - (2 * a - 0) * (b - 2 * al - -1))
      with (2 * (2 * be' + 2 * a * al - a * (b + 1))) by ring.
    replace (2 * be' + 2 * a * al - a * (b + 1)) with (a * (b + 1))
      by (unfold al, be', N; field; lra).
    assert (0 < a * (b + 1)) by (apply Rmult_lt_0_compat; lra).
    lra.
  - replace ((1 - -1) * (0 - 0) - (2 * a - 0) * (b - -1))
      with (- (2 * (a * (b + 1)))) by ring.
    assert (0 < a * (b + 1)) by (apply Rmult_lt_0_compat; lra).
    lra.
  - lra.
  - exact S1.
  - exact S2.
  - rewrite Heq. ring.
  - ring.
Qed.

End MulConstruction.

Section MulParallel.

Variables a b : R.
Hypothesis Ha : 0 < a.
Hypothesis Hb : 0 < b.

Let N := 1 + a * a.
Let al := a * a * (b + 1) / N.
Let be' := a * (b + 1) / N.

Hypothesis Hperp :
  cas_utils.get_perpendicular_to_line_through_point (pt b 0) (line_of 0 a (-1) 0)
  = Ok (line_of (b - 2 * al) (2 * be') b 0).
Hypothesis Hfar : tol <= 2 * (sqrt 3 * al).
Hypothesis S1 : sel_ok (b + sqrt 3 * be') (b - al) (b + al).
Hypothesis S2 : sel_ok (b - sqrt 3 * be') (b - al) (b + al).

(** The parallel to the slanted line through (b, 0). *)
Lemma mul_parallel :
  cas_utils.get_parallel_to_line_through_point (pt b 0) (line_of 0 a (-1) 0)
  = Ok (line_of (b + sqrt 3 * be') (sqrt 3 * al) (b - sqrt 3 * be') (- (sqrt 3 * al))).
Proof.
  pose proof (mul_al_pos a b Ha Hb) as Hal. fold N in Hal. fold al in Hal.
  pose proof (mul_be_pos a b Ha Hb) as Hbe. fold N in Hbe. fold be' in Hbe.
  pose proof (mul_al_be a b) as Hab. fold N in Hab. fold al in Hab. fold be' in Hab.
  assert (Hsum : a * al + be' = a * (b + 1)).
  { unfold al, be', N. pose proof (sq_nonneg a). field. lra. }
  clearbody al be'.
  rewrite (parallel_general b 0 0 a (-1) 0 (b - 2 * al) (2 * be')
             (b - al) be' (b - al) be' (b + al) (- be')).
  - apply Ok_line_of_eq; field.
  - exact Hperp.
  - lra.
  - lra.
  - replace ((a - 0) * (b - (b - 2 * al)) - (-1 - 0) * (2 * be' - 0))
      with (2 * (a * al + be')) by ring.
    assert (0 < a * al) by (apply Rmult_lt_0_compat; lra). lra.
  - replace ((a - 0) * (b - al) + (-1 - 0) * be' + (0 * 0 - -1 * a))
      with (a * (b + 1) - (a * al + be')) by ring.
    rewrite Hsum. ring.
  - ring.
  - left. lra.
  - lra.
  - field. lra.
  - field. lra.
  - ring.
  - ring.
  - lra.
  - replace ((b - al + (b + al)) / 2 - sqrt 3 / 2 * (- be' - be')) with (b + sqrt 3 * be') by field.
    exact S1.
  - replace ((b - al + (b + al)) / 2 + sqrt 3 / 2 * (- be' - be')) with (b - sqrt 3 * be') by field.
    exact S2.
Qed.

End MulParallel.

Lemma abs_branch (a : R) :
  (if Rltb a 0 then CasNum.neg (cnR a) else Ok (cnR a)) = Ok (cnR (Rabs a)).
Proof.
  destruct (Rlt_or_le a 0) as [N | P].
  - rewrite Rltb_true by exact N. rewrite neg_cnR, Rabs_left by exact N. reflexivity.
  - rewrite Rltb_false by exact P. rewrite Rabs_right by lra. reflexivity.
Qed.

Lemma sign_abs (a b : R) :
  (if Rltb a 0 then -1 else 1) * (if Rltb b 0 then -1 else 1) * (Rabs a * Rabs b)
  = a * b.
Proof.
  destruct (Rlt_or_le a 0) as [Na | Pa], (Rlt_or_le b 0) as [Nb | Pb].
  - rewrite !Rltb_true, !Rabs_left by assumption. ring.
  - rewrite Rltb_true, (Rltb_false b), Rabs_left, (Rabs_right b) by (assumption || lra). ring.
  - rewrite (Rltb_false a), Rltb_true, (Rabs_right a), Rabs_left by (assumption || lra). ring.
  - rewrite !Rltb_false, !Rabs_right by (assumption || lra). ring.
Qed.

(** [__mul__] returns the product as soon as the parallel through the
    second factor is the right line. *)
Lemma mul_from_parallel (a b : R) :
  a <> 0 -> b <> 0 -> a <> 1 -> b <> 1 ->
  cas_utils.get_parallel_to_line_through_point (pt (Rabs b) 0)
    (line_of 0 (Rabs a) (-1) 0)
  = Ok (line_of
          (Rabs b + sqrt 3 * (Rabs a * (Rabs b + 1) / (1 + Rabs a * Rabs a)))
          (sqrt 3 * (Rabs a * Rabs a * (Rabs b + 1) / (1 + Rabs a * Rabs a)))
          (Rabs b - sqrt 3 * (Rabs a * (Rabs b + 1) / (1 + Rabs a * Rabs a)))
          (- (sqrt 3 * (Rabs a * Rabs a * (Rabs b + 1) / (1 + Rabs a * Rabs a))))) ->
  CasNum.mul (cnR a) (cnR b) = Ok (cnR (a * b)).
Proof.
  intros Ha0 Hb0 Ha1 Hb1 Hpar.
  pose proof sqrt3_pos as H3p. pose proof sqrt3_sq as H3.
  assert (HA : 0 < Rabs a) by (apply Rabs_pos_lt; exact Ha0).
  assert (HB : 0 < Rabs b) by (apply Rabs_pos_lt; exact Hb0).
  unfold CasNum.mul.
  change CasNum.one with (cnR 1). change CasNum.zero with (cnR 0).
  rewrite (isEqual_cnR_false b 1) by exact Hb1.
  rewrite (isEqual_cnR_false a 1) by exact Ha1.
  change (CasNum.copy (cnR a)) with (cnR a). change (CasNum.copy (cnR b)) with (cnR b).
  rewrite !lt_cnR. bind_step. rewrite abs_branch. bind_step. bind_step.
  rewrite abs_branch. bind_step.
  rewrite (isEqual_cnR_false (Rabs a) 0) by lra.
  rewrite (isEqual_cnR_false (Rabs b) 0) by lra.
  pose proof (sign_abs a b) as Hsign.
  set (A := Rabs a) in *. set (B := Rabs b) in *.
  clearbody A B.
  set (N := 1 + A * A) in *.
  assert (HN : 0 < N) by (unfold N; pose proof (sq_nonneg A); lra).
  set (al := A * A * (B + 1) / N) in *.
  set (be' := A * (B + 1) / N) in *.
  assert (Hal : 0 < al).
  { unfold al. apply Rdiv_lt_0_compat; [| exact HN].
    apply Rmult_lt_0_compat; [apply Rmult_lt_0_compat; lra | lra]. }
  assert (Hbe : 0 < be').
  { unfold be'. apply Rdiv_lt_0_compat; [| exact HN]. apply Rmult_lt_0_compat; lra. }
  assert (Hab : al = A * be') by (unfold al, be'; field; lra).
  assert (HabB : al * B = A * B * be') by (rewrite Hab; ring).
  clearbody al be'.
  rewrite y_axis_ok. bind_step.
  change CasNum.unit with (pt 1 0). change CasNum.origin with (pt 0 0).
  rewrite mirror_vertical by lra. bind_step.
  cbn [CasNum.p cnR].
  rewrite Circle_init_pt by (left; lra). bind_step.
  rewrite (iwl_vertical 0 0 A 0 0 (sqrt 3) 0 A) by (try lra; ring).
  bind_step. cbn [unpack2]. bind_step.
  cbn [pt Point.x Point.y]. unfold sym_gt.
  rewrite sym_lt_Re_true by lra. bind_step.
  change (Point.mk (Re 0) (Re (0 + A))) with (pt 0 (0 + A)).
  replace (0 + A) with A by ring.
  replace (2 * 0 - 1) with (-1) by ring.
  rewrite Line_init_pt by (left; lra). bind_step.
  rewrite Hpar. bind_step.
  unfold Line.intersect.
  rewrite (line_intersection_pt 0 (sqrt 3) 0 0 _ _ _ _ 0 (- (A * B))).
  2:{ replace ((sqrt 3 - 0) * (B - sqrt 3 * be' - (B + sqrt 3 * be'))
               - (0 - 0) * (sqrt 3 * al - - (sqrt 3 * al)))
        with (- (2 * (sqrt 3 * sqrt 3) * be')) by ring.
      rewrite H3. lra. }
  2: ring.
  2:{ replace ((sqrt 3 * al - - (sqrt 3 * al)) * 0
               + (B - sqrt 3 * be' - (B + sqrt 3 * be')) * - (A * B)
               + ((B + sqrt 3 * be') * - (sqrt 3 * al)
                  - (B - sqrt 3 * be') * (sqrt 3 * al)))
        with (2 * sqrt 3 * (A * B * be' - al * B)) by ring.
      rewrite HabB. ring. }
  bind_step.
  assert (HAB : 0 < A * B) by (apply Rmult_lt_0_compat; lra).
  rewrite Circle_init_pt by (right; lra). bind_step.
  rewrite x_axis_ok. bind_step.
  rewrite (iwl_horizontal 0 0 0 (- (A * B)) 0 0 1 (A * B)) by (try lra; ring).
  bind_step. cbn [unpack2]. bind_step.
  cbn [pt Point.x Point.y].
  rewrite sym_lt_Re_true by lra. bind_step.
  bind_step.
  change (CasNum.mk (pt (0 + A * B) 0)) with (cnR (0 + A * B)).
  destruct (Rltb a 0), (Rltb b 0); cbv iota; rewrite ?neg_cnR; bind_step; bind_step;
    rewrite ?neg_cnR; f_equal; apply cnR_eq; lra.
Qed.

Lemma tol_le_div (q N : R) : 0 < N -> tol * N <= 2 -> 2 <= q -> tol <= q / N.
Proof.
  intros HN HK Hq.
  apply Rmult_le_reg_r with N; [exact HN |].
  unfold Rdiv. rewrite Rmult_assoc, Rinv_l by lra. lra.
Qed.

Lemma sqrt3_lt_7_4 : sqrt 3 < 7 / 4.
Proof.
  pose proof sqrt3_sq as H3. pose proof sqrt3_pos as H3p.
  destruct (Rlt_or_le (sqrt 3) (7 / 4)) as [L | G]; [exact L | exfalso].
  assert (7 / 4 * (7 / 4) <= sqrt 3 * sqrt 3) by (apply Rmult_le_compat; lra).
  lra.
Qed.

Lemma Rabs_sub_sym_le (x y g : R) : g <= Rabs (x - y) -> g <= Rabs (y - x).
Proof. intros H. rewrite Rabs_minus_sym. exact H. Qed.

Section MulReal.

Variables A B : R.
Hypothesis HA : A = 1 \/ 2 <= A.
Hypothesis HB : 1 <= B.
Hypothesis Hgap : B = A * A \/ 1 <= Rabs (B - A * A).
Hypothesis HK : tol * (1 + A * A) <= 2.

Let N := 1 + A * A.
Let al := A * A * (B + 1) / N.
Let be' := A * (B + 1) / N.
Let xs := 2 * (B - A * A) / N.

Lemma mulr_A1 : 1 <= A.
Proof. destruct HA; lra. Qed.

Lemma mulr_N : 2 <= N.
Proof. unfold N. pose proof mulr_A1. nra. Qed.

Lemma mulr_al_eq : al * N = A * A * (B + 1).
Proof. unfold al. pose proof mulr_N. field. lra. Qed.

Lemma mulr_be_eq : be' * N = A * (B + 1).
Proof. unfold be'. pose proof mulr_N. field. lra. Qed.

Lemma mulr_xs_eq : xs * N = 2 * (B - A * A).
Proof. unfold xs. pose proof mulr_N. field. lra. Qed.

Lemma mulr_al_ge : 1 <= al.
Proof.
  pose proof mulr_N as HN. pose proof mulr_al_eq as E. pose proof mulr_A1 as H1.
  apply Rmult_le_reg_r with N; [lra |]. rewrite E.
  unfold N. nra.
Qed.

Lemma mulr_be_pos : 0 < be'.
Proof.
  pose proof mulr_N as HN. pose proof mulr_A1 as H1.
  unfold be'. apply Rdiv_lt_0_compat; [| lra]. apply Rmult_lt_0_compat; lra.
Qed.

Lemma mulr_far : tol <= 2 * be'.
Proof.
  pose proof mulr_N as HN. pose proof mulr_A1 as H1.
  replace (2 * be') with (2 * (A * (B + 1)) / N) by (unfold be'; field; lra).
  apply tol_le_div; [lra | exact HK |]. nra.
Qed.

Lemma mulr_mirror_x : (B - 2 * al) * N = B - A * A * B - 2 * (A * A).
Proof.
  replace ((B - 2 * al) * N) with (B * N - 2 * (al * N)) by ring.
  rewrite mulr_al_eq. unfold N. ring.
Qed.

Lemma mulr_perp :
  cas_utils.get_perpendicular_to_line_through_point (pt B 0) (line_of 0 A (-1) 0)
  = Ok (line_of (B - 2 * al) (2 * be') B 0).
Proof.
  pose proof mulr_N as HN. pose proof mulr_A1 as H1. pose proof tol_lt_1 as Ht.
  pose proof mulr_mirror_x as Hm. pose proof mulr_xs_eq as Hx.
  assert (HAA : 1 <= A * A) by nra.
  destruct (Rtotal_order (A * A) B) as [L | [E | G]].
  - (* b > a^2 *)
    apply mul_perp_gt; try lra.
    + exact mulr_far.
    + apply sel_ok_left. fold N. fold al.
      apply Rmult_le_reg_r with N; [lra |]. rewrite Hm.
      assert (B <= A * A * B) by nra. lra.
    + fold N. fold xs.
      assert (Hg : 1 <= B - A * A).
      { destruct Hgap as [Hg | Hg]; [lra |]. rewrite Rabs_right in Hg by lra. exact Hg. }
      assert (Hxs : tol <= 2 * xs).
      { replace (2 * xs) with (4 * (B - A * A) / N) by (unfold xs; field; lra).
        apply tol_le_div; [lra | exact HK | lra]. }
      assert (0 < xs).
      { apply Rmult_lt_reg_r with N; [lra |]. rewrite Hx. lra. }
      apply sel_ok_right; [lra |].
      replace (0 - xs) with (- xs) by ring. rewrite Rabs_Ropp, Rabs_right by lra.
      exact Hxs.
  - (* b = a^2 *)
    apply mul_perp_eq; try lra.
    + exact mulr_far.
    + apply sel_ok_left. fold N. fold al.
      apply Rmult_le_reg_r with N; [lra |]. rewrite Hm. rewrite <- E.
      unfold N. nra.
    + apply sel_ok_right; [lra |].
      rewrite Rabs_left by lra. lra.
  - (* b < a^2 *)
    apply mul_perp_lt; try lra.
    + exact mulr_far.
    + apply sel_ok_left. fold N. fold al. fold xs.
      apply Rmult_le_reg_r with N; [lra |]. rewrite Hm, Hx.
      assert (B <= A * A * B) by nra. lra.
    + fold N. fold xs.
      assert (Hg : 1 <= A * A - B).
      { destruct Hgap as [Hg | Hg]; [lra |]. rewrite Rabs_left in Hg by lra. lra. }
      assert (Hxs : tol <= 2 * - xs).
      { replace (2 * - xs) with (4 * (A * A - B) / N) by (unfold xs; field; lra).
        apply tol_le_div; [lra | exact HK | lra]. }
      assert (xs < 0).
      { apply Rmult_lt_reg_r with N; [lra |]. rewrite Hx. lra. }
      apply sel_ok_right; [lra |].
      replace (xs - 0) with xs by ring. rewrite Rabs_left by lra.
      exact Hxs.
Qed.

Lemma mulr_parallel :
  cas_utils.get_parallel_to_line_through_point (pt B 0) (line_of 0 A (-1) 0)
  = Ok (line_of (B + sqrt 3 * be') (sqrt 3 * al) (B - sqrt 3 * be') (- (sqrt 3 * al))).
Proof.
  pose proof mulr_N as HN. pose proof mulr_A1 as H1. pose proof tol_lt_1 as Ht.
  pose proof mulr_al_ge as Hal. pose proof mulr_be_pos as Hbe.
  pose proof sqrt3_gt1 as H31. pose proof sqrt3_lt_7_4 as H374.
  assert (Hab : al = A * be').
  { unfold al, be'. field. lra. }
  apply mul_parallel; try lra.
  - exact mulr_perp.
  - fold N. fold al. nra.
  - fold N. fold al. fold be'.
    apply sel_ok_right.
    + assert (0 < sqrt 3 * be') by (apply Rmult_lt_0_compat; lra). lra.
    + replace (B - al - (B + al)) with (- (2 * al)) by ring.
      rewrite Rabs_Ropp, Rabs_right by lra. lra.
  - fold N. fold al. fold be'.
    destruct HA as [E1 | G2].
    + apply sel_ok_left. rewrite Hab, E1. 
      assert (be' <= sqrt 3 * be') by nra. lra.
    + apply sel_ok_right.
      * replace (2 * (B - sqrt 3 * be' - (B - al))) with (2 * (A - sqrt 3) * be')
          by (rewrite Hab; ring).
        replace (2 * (A - sqrt 3) * be') with (2 * (A - sqrt 3) * (A * (B + 1)) / N)
          by (unfold be'; field; lra).
        apply tol_le_div; [lra | exact HK |].
        assert (1 / 4 <= A - sqrt 3) by lra.
        assert (4 <= A * (B + 1)) by nra.
        nra.
      * replace (B - al - (B + al)) with (- (2 * al)) by ring.
        rewrite Rabs_Ropp, Rabs_right by lra. lra.
Qed.

End MulReal.

(** [__mul__] on reals: the product, when the first factor is 1 or at least
    2 in absolute value and small enough for the tolerance, the second is
    at least 1 in absolute value, and the second is the square of the first
    or at least 1 away from it. *)
Lemma mul_real (a b : R) :
  Rabs a = 1 \/ 2 <= Rabs a -> 1 <= Rabs b ->
  Rabs b = Rabs a * Rabs a \/ 1 <= Rabs (Rabs b - Rabs a * Rabs a) ->
  tol * (1 + Rabs a * Rabs a) <= 2 ->
  CasNum.mul (cnR a) (cnR b) = Ok (cnR (a * b)).
Proof.
  intros HA HB Hgap HK.
  destruct (Req_dec_T b 1) as [Eb | Nb].
  - subst b. unfold CasNum.mul. change CasNum.one with (cnR 1).
    rewrite isEqual_cnR_true by reflexivity. f_equal. apply cnR_eq. ring.
  - destruct (Req_dec_T a 1) as [Ea | Na].
    + subst a. unfold CasNum.mul. change CasNum.one with (cnR 1).
      rewrite isEqual_cnR_false by exact Nb.
      rewrite isEqual_cnR_true by reflexivity. f_equal. apply cnR_eq. ring.
    + apply mul_from_parallel; try assumption.
      * intros E. subst a. rewrite Rabs_R0 in HA. lra.
      * intros E. subst b. rewrite Rabs_R0 in HB. lra.
      * apply mulr_parallel; assumption.
Qed.

Lemma tol_mul_pow : tol * 10 ^ 20 = 1.
Proof.
  unfold tol. apply Rinv_l.
  assert (0 < 10 ^ 20) by (apply pow_lt; lra). lra.
Qed.

Lemma IZR_pow10 (n : nat) : IZR (10 ^ Z.of_nat n) = 10 ^ n.
Proof. rewrite <- pow_IZR. reflexivity. Qed.

Lemma Rabs_IZR_int (z : Z) : Rabs (IZR z) = IZR (Z.abs z).
Proof. symmetry. apply abs_IZR. Qed.

(** Two integers are equal or at least one apart. *)
Lemma IZR_gap (x y : Z) : IZR x = IZR y \/ 1 <= Rabs (IZR x - IZR y).
Proof.
  destruct (Z.eq_dec x y) as [E | N]; [left; congruence | right].
  rewrite <- minus_IZR, Rabs_IZR_int. apply IZR_le. lia.
Qed.

(** [__mul__] on integers: the product, for every first factor up to
    10^10 in absolute value and every second factor. *)
Lemma mul_cn (a b : Z) :
  (Z.abs a <= 10 ^ 10)%Z -> CasNum.mul (cn a) (cn b) = Ok (cn (a * b)).
Proof.
  intros Ha. unfold cn.
  destruct (Z.eq_dec a 0) as [Ea | Na].
  - subst a. rewrite mul_zero_l. reflexivity.
  - destruct (Z.eq_dec b 0) as [Eb | Nb].
    + subst b. rewrite mul_zero_r. f_equal. apply cnR_eq.
      rewrite Z.mul_0_r. reflexivity.
    + rewrite mul_real.
      * f_equal. apply cnR_eq. symmetry. apply mult_IZR.
      * rewrite Rabs_IZR_int.
        destruct (Z.eq_dec (Z.abs a) 1) as [E1 | N1].
        -- left. rewrite E1. reflexivity.
        -- right. apply IZR_le. lia.
      * rewrite Rabs_IZR_int. apply IZR_le. lia.
      * rewrite !Rabs_IZR_int, <- mult_IZR. apply IZR_gap.
      * rewrite Rabs_IZR_int, <- mult_IZR.
        assert (H : IZR (Z.abs a * Z.abs a) <= 10 ^ 20).
        { change 20%nat with (10 + 10)%nat. rewrite pow_add.
          rewrite <- (IZR_pow10 10), <- mult_IZR. apply IZR_le.
          change (Z.of_nat 10) with 10%Z. nia. }
        pose proof tol_mul_pow as T. pose proof tol_pos as Tp. pose proof tol_lt_1 as T1.
        assert (tol * IZR (Z.abs a * Z.abs a) <= tol * 10 ^ 20)
          by (apply Rmult_le_compat_l; lra).
        lra.
Qed.

(** ** The construction of [__truediv__] *)

Section DivConstruction.

(** The slanted line through (0, a) and (b, 0) and the point (-1, 0). *)
Variables a b : R.
Hypothesis Ha : 0 < a.
Hypothesis Hb : 0 < b.

Let N := a * a + b * b.
Let al := a * a * (1 + b) / N.
Let be' := a * b * (1 + b) / N.
Let xs := 2 * b * (a * a - b) / N.

Lemma div_N_pos : 0 < N.
Proof. unfold N. assert (0 < a * a) by nra. assert (0 < b * b) by nra. lra. Qed.

Lemma div_al_pos : 0 < al.
Proof.
  unfold al. apply Rdiv_lt_0_compat; [| exact div_N_pos].
  apply Rmult_lt_0_compat; [apply Rmult_lt_0_compat; lra | lra].
Qed.

Lemma div_be_pos : 0 < be'.
Proof.
  unfold be'. apply Rdiv_lt_0_compat; [| exact div_N_pos].
  apply Rmult_lt_0_compat; [apply Rmult_lt_0_compat; lra | lra].
Qed.

Lemma div_al_be : al * b = a * be'.
Proof. unfold al, be'. pose proof div_N_pos. fold N. field. lra. Qed.

Lemma div_sum : a * al + b * be' = a * (1 + b).
Proof. unfold al, be'. pose proof div_N_pos. unfold N in *. field. lra. Qed.

Hypothesis Hfar : tol <= 2 * be'.

Lemma div_off : (a - 0) * -1 + (b - 0) * 0 + (0 * 0 - b * a) <> 0.
Proof.
  replace ((a - 0) * -1 + (b - 0) * 0 + (0 * 0 - b * a)) with (- (a * (1 + b))) by ring.
  assert (0 < a * (1 + b)) by (apply Rmult_lt_0_compat; lra). lra.
Qed.

Lemma div_cross : 0 < a * (1 + b) / b.
Proof. apply Rdiv_lt_0_compat; [apply Rmult_lt_0_compat; lra | lra]. Qed.

(** The perpendicular from (-1, 0), when a^2 > b. *)
Lemma div_perp_gt :
  b < a * a ->
  sel_ok (-1 + 2 * al) 0 xs -> sel_ok (-1) 0 xs ->
  cas_utils.get_perpendicular_to_line_through_point (pt (-1) 0) (line_of 0 a b 0)
  = Ok (line_of (-1 + 2 * al) (2 * be') (-1) 0).
Proof.
  intros Hgt S1 S2. pose proof div_N_pos as HN. pose proof div_cross as Hc.
  assert (HN' : a * a + b * b <> 0) by (unfold N in HN; lra).
  assert (Hxs : 0 < xs).
  { unfold xs. apply Rdiv_lt_0_compat; [| exact HN].
    apply Rmult_lt_0_compat; lra. }
  apply (perp_off_general (-1) 0 0 a b 0 0 a xs (a - a / b * xs)).
  - lra.
  - lra.
  - exact div_off.
  - exact Hxs.
  - field. lra.
  - field. lra.
  - unfold xs, N. field. lra.
  - unfold al, be', N. field. lra.
  - unfold al, be', xs, N. field. lra.
  - replace ((xs - 0) * (2 * be' - a) - (a - a / b * xs - a) * (-1 + 2 * al - 0))
      with (xs * (a * (1 + b) / b)) by (unfold al, be', N; field; lra).
    apply Rmult_lt_0_compat; assumption.
  - replace ((xs - 0) * (0 - a) - (a - a / b * xs - a) * (-1 - 0))
      with (- (xs * (a * (1 + b) / b))) by (field; lra).
    assert (0 < xs * (a * (1 + b) / b)) by (apply Rmult_lt_0_compat; assumption).
    lra.
  - lra.
  - exact S1.
  - exact S2.
  - ring.
Qed.

(** The same when a^2 < b. *)
Lemma div_perp_lt :
  a * a < b ->
  sel_ok (-1 + 2 * al) xs 0 -> sel_ok (-1) xs 0 ->
  cas_utils.get_perpendicular_to_line_through_point (pt (-1) 0) (line_of 0 a b 0)
  = Ok (line_of (-1 + 2 * al) (2 * be') (-1) 0).
Proof.
  intros Hlt S1 S2. pose proof div_N_pos as HN. pose proof div_cross as Hc.
  assert (HN' : a * a + b * b <> 0) by (unfold N in HN; lra).
  assert (Hxs : xs < 0).
  { unfold xs.
    assert (0 < 2 * b * (b - a * a) / N).
    { apply Rdiv_lt_0_compat; [| exact HN]. apply Rmult_lt_0_compat; lra. }
    replace (2 * b * (a * a - b) / N) with (- (2 * b * (b - a * a) / N)) by (field; lra).
    lra. }
  apply (perp_off_general (-1) 0 0 a b 0 xs (a - a / b * xs) 0 a).
  - lra.
  - lra.
  - exact div_off.
  - exact Hxs.
  - field. lra.
  - field. lra.
  - unfold xs, N. field. lra.
  - unfold al, be', xs, N. field. lra.
  - unfold al, be', N. field. lra.
  - replace ((0 - xs) * (2 * be' - (a - a / b * xs)) - (a - (a - a / b * xs)) * (-1 + 2 * al - xs))
      with (- xs * (a * (1 + b) / b)) by (unfold al, be', N; field; lra).
    apply Rmult_lt_0_compat; [lra | assumption].
  - replace ((0 - xs) * (0 - (a - a / b * xs)) - (a - (a - a / b * xs)) * (-1 - xs))
      with (- (- xs * (a * (1 + b) / b))) by (field; lra).
    assert (0 < - xs * (a * (1 + b) / b)) by (apply Rmult_lt_0_compat; [lra | assumption]).
    lra.
  - lra.
  - exact S1.
  - exact S2.
  - unfold xs, N. field. lra.
Qed.

(** The same when a^2 = b: the circle through (0, a) touches the line, and
    the circle through (b, 0) is used. *)
Lemma div_perp_eq :
  b = a * a ->
  sel_ok (-1 + 2 * al) (- b) b -> sel_ok (-1) (- b) b ->
  cas_utils.get_perpendicular_to_line_through_point (pt (-1) 0) (line_of 0 a b 0)
  = Ok (line_of (-1 + 2 * al) (2 * be') (-1) 0).
Proof.
  intros Heq S1 S2. pose proof div_N_pos as HN. pose proof div_cross as Hc.
  assert (HN' : a * a + b * b <> 0) by (unfold N in HN; lra).
  assert (Hal1 : al = 1).
  { unfold al, N. rewrite Heq. field. rewrite <- Heq. lra. }
  assert (Hbe1 : be' = a).
  { unfold be', N. rewrite Heq. field. rewrite <- Heq. lra. }
  apply (perp_off_general_tangent (-1) 0 0 a b 0 (- b) (2 * a) b 0).
  - lra.
  - lra.
  - exact div_off.
  - lra.
  - field. lra.
  - field. lra.
  - rewrite Heq. ring.
  - rewrite Hal1, Hbe1, Heq. ring.
  - rewrite Hal1, Hbe1, Heq. ring.
  - rewrite Hal1, Hbe1.
    replace ((b - - b) * (2 * a - 2 * a) - (0 - 2 * a) * (-1 + 2 * 1 - - b))
      with (2 * a * (1 + b)) by ring.
    assert (0 < a * (1 + b)) by (apply Rmult_lt_0_compat; lra). lra.
  - replace ((b - - b) * (0 - 2 * a) - (0 - 2 * a) * (-1 - - b))
      with (- (2 * a * (1 + b))) by ring.
    assert (0 < a * (1 + b)) by (apply Rmult_lt_0_compat; lra). lra.
  - lra.
  - exact S1.
  - exact S2.
  - rewrite Heq. ring.
  - rewrite Heq. ring.
Qed.

End DivConstruction.

Section DivParallel.

Variables a b : R.
Hypothesis Ha : 0 < a.
Hypothesis Hb : 0 < b.

Let N := a * a + b * b.
Let al := a * a * (1 + b) / N.
Let be' := a * b * (1 + b) / N.

Hypothesis Hperp :
  cas_utils.get_perpendicular_to_line_through_point (pt (-1) 0) (line_of 0 a b 0)
  = Ok (line_of (-1 + 2 * al) (2 * be') (-1) 0).
Hypothesis Hfar : tol <= 2 * (sqrt 3 * al).
Hypothesis S1 : sel_ok (-1 - sqrt 3 * be') (-1 - al) (-1 + al).
Hypothesis S2 : sel_ok (-1 + sqrt 3 * be') (-1 - al) (-1 + al).

(** The parallel to the slanted line through (-1, 0). *)
Lemma div_parallel :
  cas_utils.get_parallel_to_line_through_point (pt (-1) 0) (line_of 0 a b 0)
  = Ok (line_of (-1 - sqrt 3 * be') (sqrt 3 * al) (-1 + sqrt 3 * be') (- (sqrt 3 * al))).
Proof.
  pose proof (div_al_pos a b Ha Hb) as Hal. fold N in Hal. fold al in Hal.
  pose proof (div_be_pos a b Ha Hb) as Hbe. fold N in Hbe. fold be' in Hbe.
  pose proof (div_sum a b Ha Hb) as Hsum. fold N in Hsum. fold al in Hsum. fold be' in Hsum.
  clearbody al be'.
  rewrite (parallel_general (-1) 0 0 a b 0 (-1 + 2 * al) (2 * be')
             (-1 + al) be' (-1 - al) (- be') (-1 + al) be').
  - apply Ok_line_of_eq; field.
  - exact Hperp.
  - lra.
  - lra.
  - replace ((a - 0) * (-1 - (-1 + 2 * al)) - (b - 0) * (2 * be' - 0))
      with (- (2 * (a * al + b * be'))) by ring.
    rewrite Hsum. assert (0 < a * (1 + b)) by (apply Rmult_lt_0_compat; lra). lra.
  - replace ((a - 0) * (-1 + al) + (b - 0) * be' + (0 * 0 - b * a))
      with ((a * al + b * be') - a * (1 + b)) by ring.
    rewrite Hsum. ring.
  - ring.
  - left. lra.
  - lra.
  - field. lra.
  - field. lra.
  - ring.
  - ring.
  - lra.
  - replace ((-1 - al + (-1 + al)) / 2 - sqrt 3 / 2 * (be' - - be')) with (-1 - sqrt 3 * be') by field.
    exact S1.
  - replace ((-1 - al + (-1 + al)) / 2 + sqrt 3 / 2 * (be' - - be')) with (-1 + sqrt 3 * be') by field.
    exact S2.
Qed.

End DivParallel.

(** [__truediv__] returns the quotient as soon as the parallel through
    (-1, 0) is the right line. *)
Lemma truediv_from_parallel (a b : R) :
  a <> 0 -> b <> 0 ->
  cas_utils.get_parallel_to_line_through_point (pt (-1) 0)
    (line_of 0 (Rabs a) (Rabs b) 0)
  = Ok (line_of
          (-1 - sqrt 3 * (Rabs a * Rabs b * (1 + Rabs b) / (Rabs a * Rabs a + Rabs b * Rabs b)))
          (sqrt 3 * (Rabs a * Rabs a * (1 + Rabs b) / (Rabs a * Rabs a + Rabs b * Rabs b)))
          (-1 + sqrt 3 * (Rabs a * Rabs b * (1 + Rabs b) / (Rabs a * Rabs a + Rabs b * Rabs b)))
          (- (sqrt 3 * (Rabs a * Rabs a * (1 + Rabs b) / (Rabs a * Rabs a + Rabs b * Rabs b))))) ->
  CasNum.truediv (cnR a) (cnR b) = Ok (cnR (a / b)).
Proof.
  intros Ha0 Hb0 Hpar.
  pose proof sqrt3_pos as H3p. pose proof sqrt3_sq as H3.
  assert (HA : 0 < Rabs a) by (apply Rabs_pos_lt; exact Ha0).
  assert (HB : 0 < Rabs b) by (apply Rabs_pos_lt; exact Hb0).
  unfold CasNum.truediv.
  change CasNum.zero with (cnR 0).
  rewrite (isEqual_cnR_false b 0) by exact Hb0.
  change (CasNum.copy (cnR a)) with (cnR a). change (CasNum.copy (cnR b)) with (cnR b).
  rewrite !lt_cnR. bind_step. rewrite abs_branch. bind_step. bind_step.
  rewrite abs_branch. bind_step.
  rewrite (eq_cnR_false (Rabs a) 0) by lra.
  rewrite (eq_cnR_false (Rabs b) 0) by lra.
  assert (Hsign : (if Rltb a 0 then -1 else 1) * (if Rltb b 0 then -1 else 1)
                  * (Rabs a / Rabs b) = a / b).
  { destruct (Rlt_or_le a 0) as [Na | Pa], (Rlt_or_le b 0) as [Nb | Pb].
    - rewrite !Rltb_true, !Rabs_left by assumption. field. lra.
    - rewrite Rltb_true, (Rltb_false b), Rabs_left, (Rabs_right b) by (assumption || lra).
      field. lra.
    - rewrite (Rltb_false a), Rltb_true, (Rabs_right a), Rabs_left by (assumption || lra).
      field. lra.
    - rewrite !Rltb_false, !Rabs_right by (assumption || lra). field. lra. }
  set (A := Rabs a) in *. set (B := Rabs b) in *.
  clearbody A B.
  set (N := A * A + B * B) in *.
  assert (HN : 0 < N).
  { unfold N. assert (0 < A * A) by nra. assert (0 < B * B) by nra. lra. }
  set (al := A * A * (1 + B) / N) in *.
  set (be' := A * B * (1 + B) / N) in *.
  assert (Hal : 0 < al).
  { unfold al. apply Rdiv_lt_0_compat; [| exact HN].
    apply Rmult_lt_0_compat; [apply Rmult_lt_0_compat; lra | lra]. }
  assert (Hbe : 0 < be').
  { unfold be'. apply Rdiv_lt_0_compat; [| exact HN].
    apply Rmult_lt_0_compat; [apply Rmult_lt_0_compat; lra | lra]. }
  assert (Hab : al = A / B * be') by (unfold al, be'; field; lra).
  clearbody al be'.
  change CasNum.unit with (pt 1 0). change CasNum.origin with (pt 0 0).
  rewrite mirror_on_x_axis. bind_step.
  cbn [CasNum.p cnR].
  rewrite Circle_init_pt by (left; lra). bind_step.
  rewrite y_axis_ok. bind_step.
  rewrite (iwl_vertical 0 0 A 0 0 (sqrt 3) 0 A) by (try lra; ring).
  bind_step. cbn [unpack2]. bind_step.
  cbn [pt Point.x Point.y]. unfold sym_gt.
  rewrite sym_lt_Re_true by lra. bind_step.
  change (Point.mk (Re 0) (Re (0 + A))) with (pt 0 (0 + A)).
  change (Point.mk (Re B) (Re 0)) with (pt B 0).
  replace (0 + A) with A by ring.
  rewrite Line_init_pt by (left; lra). bind_step.
  replace (- (1)) with (-1) by ring.
  rewrite Hpar. bind_step.
  unfold Line.intersect.
  rewrite (line_intersection_pt 0 (sqrt 3) 0 0 _ _ _ _ 0 (- (A / B))).
  2:{ replace ((sqrt 3 - 0) * (-1 + sqrt 3 * be' - (-1 - sqrt 3 * be'))
               - (0 - 0) * (sqrt 3 * al - - (sqrt 3 * al)))
        with (2 * (sqrt 3 * sqrt 3) * be') by ring.
      rewrite H3. lra. }
  2: ring.
  2:{ replace ((sqrt 3 * al - - (sqrt 3 * al)) * 0
               + (-1 + sqrt 3 * be' - (-1 - sqrt 3 * be')) * - (A / B)
               + ((-1 - sqrt 3 * be') * - (sqrt 3 * al)
                  - (-1 + sqrt 3 * be') * (sqrt 3 * al)))
        with (2 * sqrt 3 * (al - A / B * be')) by ring.
      rewrite Hab. ring. }
  bind_step.
  assert (HAB : 0 < A / B) by (apply Rdiv_lt_0_compat; lra).
  rewrite Circle_init_pt by (right; lra). bind_step.
  rewrite x_axis_ok. bind_step.
  rewrite (iwl_horizontal 0 0 0 (- (A / B)) 0 0 1 (A / B)) by (try lra; ring).
  bind_step. cbn [unpack2]. bind_step.
  cbn [pt Point.x Point.y].
  rewrite sym_lt_Re_true by lra. bind_step.
  bind_step.
  change (CasNum.mk (pt (0 + A / B) 0)) with (cnR (0 + A / B)).
  destruct (Rltb a 0), (Rltb b 0); cbv iota; rewrite ?neg_cnR; bind_step; bind_step;
    rewrite ?neg_cnR; f_equal; apply cnR_eq; lra.
Qed.

Section DivReal.

Variables A B : R.
Hypothesis HA : A = 1 \/ 2 <= A.
Hypothesis HB : 1 <= B.
Hypothesis G1 : A * A = B \/ 1 <= Rabs (A * A - B).
Hypothesis G2 : B * B - 2 * (A * A) * B - A * A = 0
                \/ 1 <= Rabs (B * B - 2 * (A * A) * B - A * A).
Hypothesis G4 : A <= sqrt 3 * B \/ 1 <= A * A - 3 * (B * B).
Hypothesis HK : tol * (A * A + B * B) <= 2.

Let N := A * A + B * B.
Let al := A * A * (1 + B) / N.
Let be' := A * B * (1 + B) / N.
Let xs := 2 * B * (A * A - B) / N.

Lemma divr_A1 : 1 <= A.
Proof. destruct HA; lra. Qed.

Lemma divr_N : 2 <= N.
Proof. unfold N. pose proof divr_A1. nra. Qed.

Lemma divr_al_eq : al * N = A * A * (1 + B).
Proof. unfold al. pose proof divr_N. field. lra. Qed.

Lemma divr_be_eq : be' * N = A * B * (1 + B).
Proof. unfold be'. pose proof divr_N. field. lra. Qed.

Lemma divr_xs_eq : xs * N = 2 * B * (A * A - B).
Proof. unfold xs. pose proof divr_N. field. lra. Qed.

Lemma divr_al_pos : 0 < al.
Proof.
  pose proof divr_N as HN. pose proof divr_A1 as H1.
  unfold al. apply Rdiv_lt_0_compat; [| lra].
  apply Rmult_lt_0_compat; [nra | lra].
Qed.

Lemma divr_be_pos : 0 < be'.
Proof.
  pose proof divr_N as HN. pose proof divr_A1 as H1.
  unfold be'. apply Rdiv_lt_0_compat; [| lra].
  apply Rmult_lt_0_compat; [nra | lra].
Qed.

Lemma divr_tol_al : tol <= 2 * al.
Proof.
  pose proof divr_N as HN. pose proof divr_A1 as H1.
  replace (2 * al) with (2 * (A * A * (1 + B)) / N) by (unfold al; field; lra).
  apply tol_le_div; [lra | exact HK |]. nra.
Qed.

Lemma divr_far : tol <= 2 * be'.
Proof.
  pose proof divr_N as HN. pose proof divr_A1 as H1.
  replace (2 * be') with (2 * (A * B * (1 + B)) / N) by (unfold be'; field; lra).
  apply tol_le_div; [lra | exact HK |]. nra.
Qed.

Lemma divr_perp :
  cas_utils.get_perpendicular_to_line_through_point (pt (-1) 0) (line_of 0 A B 0)
  = Ok (line_of (-1 + 2 * al) (2 * be') (-1) 0).
Proof.
  pose proof divr_N as HN. pose proof divr_A1 as H1. pose proof tol_lt_1 as Ht.
  pose proof tol_pos as Htp.
  pose proof divr_al_eq as Hal. pose proof divr_xs_eq as Hx.
  assert (HAA : 1 <= A * A) by nra.
  assert (Hm : (-1 + 2 * al) * N = - (B * B - 2 * (A * A) * B - A * A)).
  { replace ((-1 + 2 * al) * N) with (- N + 2 * (al * N)) by ring.
    rewrite Hal. unfold N. ring. }
  destruct (Rtotal_order (A * A) B) as [L | [E | G]].
  - (* a^2 < b *)
    assert (Hg : 1 <= B - A * A).
    { destruct G1 as [Hg | Hg]; [lra |]. rewrite Rabs_left in Hg by lra. lra. }
    assert (Hxs : tol <= 2 * - xs).
    { replace (2 * - xs) with (4 * B * (B - A * A) / N) by (unfold xs; field; lra).
      apply tol_le_div; [lra | exact HK | nra]. }
    assert (Hxn : xs < 0).
    { apply Rmult_lt_reg_r with N; [lra |]. rewrite Hx. nra. }
    assert (Hxa : tol <= 2 * Rabs (xs - 0)).
    { replace (xs - 0) with xs by ring. rewrite Rabs_left by lra. exact Hxs. }
    apply div_perp_lt; try lra.
    + exact divr_far.
    + fold N. fold al. fold xs.
      apply sel_ok_right; [| exact Hxa].
      assert (E1 : -1 + 2 * al - xs = 1).
      { apply Rmult_eq_reg_r with N; [| lra].
        replace ((-1 + 2 * al - xs) * N) with ((-1 + 2 * al) * N - xs * N) by ring.
        rewrite Hm, Hx. unfold N. ring. }
      lra.
    + fold N. fold xs.
      assert (E2 : (-1 - xs) * N = B * B - 2 * (A * A) * B - A * A).
      { replace ((-1 - xs) * N) with (- N - xs * N) by ring. rewrite Hx. unfold N. ring. }
      destruct (Rle_or_lt (B * B - 2 * (A * A) * B - A * A) 0) as [Dn | Dp].
      * apply sel_ok_left.
        apply Rmult_le_reg_r with N; [lra |].
        replace (-1 * N) with ((-1 - xs) * N + xs * N) by ring. rewrite E2. lra.
      * apply sel_ok_right; [| exact Hxa].
        assert (1 <= B * B - 2 * (A * A) * B - A * A).
        { destruct G2 as [Z | Hg2]; [lra |]. rewrite Rabs_right in Hg2 by lra. exact Hg2. }
        replace (2 * (-1 - xs)) with (2 * (B * B - 2 * (A * A) * B - A * A) / N).
        2:{ rewrite <- E2. field. lra. }
        apply tol_le_div; [lra | exact HK | lra].
  - (* a^2 = b *)
    assert (Hal1 : al = 1).
    { apply Rmult_eq_reg_r with N; [| lra]. rewrite Hal. unfold N. rewrite <- E. ring. }
    apply div_perp_eq; try lra.
    + exact divr_far.
    + fold N. fold al. rewrite Hal1.
      apply sel_ok_right; [lra |].
      replace (- B - B) with (- (2 * B)) by ring. rewrite Rabs_Ropp, Rabs_right by lra. lra.
    + destruct HA as [A1 | A2].
      * apply sel_ok_left. rewrite <- E, A1. lra.
      * apply sel_ok_right.
        -- assert (4 <= B) by nra. lra.
        -- replace (- B - B) with (- (2 * B)) by ring.
           rewrite Rabs_Ropp, Rabs_right by lra. lra.
  - (* a^2 > b *)
    assert (Hg : 1 <= A * A - B).
    { destruct G1 as [Hg | Hg]; [lra |]. rewrite Rabs_right in Hg by lra. exact Hg. }
    assert (Hxs : tol <= 2 * xs).
    { replace (2 * xs) with (4 * B * (A * A - B) / N) by (unfold xs; field; lra).
      apply tol_le_div; [lra | exact HK | nra]. }
    assert (Hxp : 0 < xs).
    { apply Rmult_lt_reg_r with N; [lra |]. rewrite Hx. nra. }
    assert (Hxa : tol <= 2 * Rabs (0 - xs)).
    { replace (0 - xs) with (- xs) by ring. rewrite Rabs_Ropp, Rabs_right by lra. exact Hxs. }
    apply div_perp_gt; try lra.
    + exact divr_far.
    + fold N. fold al. fold xs.
      destruct (Rle_or_lt 0 (B * B - 2 * (A * A) * B - A * A)) as [Dp | Dn].
      * apply sel_ok_left.
        apply Rmult_le_reg_r with N; [lra |]. rewrite Hm. lra.
      * apply sel_ok_right; [| exact Hxa].
        assert (1 <= - (B * B - 2 * (A * A) * B - A * A)).
        { destruct G2 as [Z | Hg2]; [lra |]. rewrite Rabs_left in Hg2 by lra. exact Hg2. }
        replace (2 * (-1 + 2 * al - 0)) with (2 * - (B * B - 2 * (A * A) * B - A * A) / N).
        2:{ rewrite <- Hm. field. lra. }
        apply tol_le_div; [lra | exact HK | lra].
    + apply sel_ok_left. lra.
Qed.

Lemma divr_parallel :
  cas_utils.get_parallel_to_line_through_point (pt (-1) 0) (line_of 0 A B 0)
  = Ok (line_of (-1 - sqrt 3 * be') (sqrt 3 * al) (-1 + sqrt 3 * be') (- (sqrt 3 * al))).
Proof.
  pose proof divr_N as HN. pose proof divr_A1 as H1. pose proof tol_lt_1 as Ht.
  pose proof tol_pos as Htp.
  pose proof divr_al_pos as Hal. pose proof divr_be_pos as Hbe.
  pose proof divr_tol_al as Hta.
  pose proof sqrt3_gt1 as H31. pose proof sqrt3_sq as H3.
  assert (Hab : al * B = A * be').
  { unfold al, be'. field. lra. }
  assert (H4al : tol <= 2 * Rabs (-1 - al - (-1 + al))).
  { replace (-1 - al - (-1 + al)) with (- (2 * al)) by ring.
    rewrite Rabs_Ropp, Rabs_right by lra. lra. }
  apply div_parallel; try lra.
  - exact divr_perp.
  - fold N. fold al. nra.
  - fold N. fold al. fold be'.
    destruct (Rle_or_lt A (sqrt 3 * B)) as [Le | Gt].
    + apply sel_ok_left.
      assert (al <= sqrt 3 * be').
      { apply Rmult_le_reg_r with B; [lra |]. rewrite Hab.
        replace (sqrt 3 * be' * B) with (sqrt 3 * B * be') by ring.
        apply Rmult_le_compat_r; lra. }
      lra.
    + apply sel_ok_right; [| exact H4al].
      assert (Hg : 1 <= A * A - 3 * (B * B)) by (destruct G4; lra).
      assert (Hd : 0 < A - sqrt 3 * B) by lra.
      assert (Hprod : 1 <= (A - sqrt 3 * B) * (2 * A)).
      { assert ((A - sqrt 3 * B) * (A + sqrt 3 * B) = A * A - 3 * (B * B)).
        { replace ((A - sqrt 3 * B) * (A + sqrt 3 * B))
            with (A * A - sqrt 3 * sqrt 3 * (B * B)) by ring.
          rewrite H3. ring. }
        assert ((A - sqrt 3 * B) * (A + sqrt 3 * B) <= (A - sqrt 3 * B) * (2 * A)).
        { apply Rmult_le_compat_l; lra. }
        lra. }
      replace (2 * (-1 - sqrt 3 * be' - (-1 - al))) with (2 * (al - sqrt 3 * be')) by ring.
      replace (2 * (al - sqrt 3 * be'))
        with ((A - sqrt 3 * B) * (2 * A) * (1 + B) / N).
      2:{ unfold al, be'. field. lra. }
      apply tol_le_div; [lra | exact HK |].
      assert (1 * 2 <= (A - sqrt 3 * B) * (2 * A) * (1 + B)).
      { apply Rmult_le_compat; lra. }
      lra.
  - fold N. fold al. fold be'.
    apply sel_ok_right; [| exact H4al].
    assert (0 < sqrt 3 * be') by (apply Rmult_lt_0_compat; lra). lra.
Qed.

End DivReal.

(** [__truediv__] on reals: the quotient, under conditions that integers of
    bounded size satisfy. *)
Lemma truediv_real (a b : R) :
  Rabs a = 1 \/ 2 <= Rabs a -> 1 <= Rabs b ->
  Rabs a * Rabs a = Rabs b \/ 1 <= Rabs (Rabs a * Rabs a - Rabs b) ->
  Rabs b * Rabs b - 2 * (Rabs a * Rabs a) * Rabs b - Rabs a * Rabs a = 0
  \/ 1 <= Rabs (Rabs b * Rabs b - 2 * (Rabs a * Rabs a) * Rabs b - Rabs a * Rabs a) ->
  Rabs a <= sqrt 3 * Rabs b \/ 1 <= Rabs a * Rabs a - 3 * (Rabs b * Rabs b) ->
  tol * (Rabs a * Rabs a + Rabs b * Rabs b) <= 2 ->
  CasNum.truediv (cnR a) (cnR b) = Ok (cnR (a / b)).
Proof.
  intros HA HB G1 G2 G4 HK.
  apply truediv_from_parallel.
  - intros E. subst a. rewrite Rabs_R0 in HA. lra.
  - intros E. subst b. rewrite Rabs_R0 in HB. lra.
  - apply divr_parallel; assumption.
Qed.

Lemma IZR_zero_or_gap (x : Z) : IZR x = 0 \/ 1 <= Rabs (IZR x).
Proof.
  destruct (IZR_gap x 0) as [E | G]; [left; exact E | right].
  replace (IZR x) with (IZR x - IZR 0) by (simpl; ring). exact G.
Qed.

Lemma le_sqrt3_mul (A B : R) :
  0 <= A -> 0 <= B -> A * A <= 3 * (B * B) -> A <= sqrt 3 * B.
Proof.
  intros HA HB H. pose proof sqrt3_sq as H3. pose proof sqrt3_pos as H3p.
  destruct (Rle_or_lt A (sqrt 3 * B)) as [L | G]; [exact L | exfalso].
  assert (0 <= sqrt 3 * B) by (apply Rmult_le_pos; lra).
  assert (sqrt 3 * B * (sqrt 3 * B) < A * A) by (apply Rmult_le_0_lt_compat; lra).
  replace (sqrt 3 * B * (sqrt 3 * B)) with (sqrt 3 * sqrt 3 * (B * B)) in * by ring.
  rewrite H3 in *. lra.
Qed.

(** [__truediv__] on integers: the exact quotient, for a non-zero divisor
    and operands with a^2 + b^2 <= 10^20. *)
Lemma truediv_cn (a b : Z) :
  b <> 0%Z -> (a * a + b * b <= 10 ^ 20)%Z ->
  CasNum.truediv (cn a) (cn b) = Ok (cnR (IZR a / IZR b)).
Proof.
  intros Hb Hbound. unfold cn.
  assert (Hb' : IZR b <> 0) by (apply not_0_IZR; exact Hb).
  destruct (Z.eq_dec a 0) as [Ea | Na].
  - subst a. rewrite truediv_zero_dividend by exact Hb'.
    f_equal. apply cnR_eq. field. exact Hb'.
  - apply truediv_real; rewrite !Rabs_IZR_int.
    + destruct (Z.eq_dec (Z.abs a) 1) as [E1 | N1].
      * left. rewrite E1. reflexivity.
      * right. apply IZR_le. lia.
    + apply IZR_le. lia.
    + rewrite <- mult_IZR. apply IZR_gap.
    + replace (IZR (Z.abs b) * IZR (Z.abs b) - 2 * (IZR (Z.abs a) * IZR (Z.abs a)) * IZR (Z.abs b)
               - IZR (Z.abs a) * IZR (Z.abs a))
        with (IZR (Z.abs b * Z.abs b - 2 * (Z.abs a * Z.abs a) * Z.abs b - Z.abs a * Z.abs a)).
      2:{ rewrite !minus_IZR, !mult_IZR. reflexivity. }
      apply IZR_zero_or_gap.
    + destruct (Z_le_gt_dec (Z.abs a * Z.abs a) (3 * (Z.abs b * Z.abs b))) as [L | G].
      * left. apply le_sqrt3_mul.
        -- apply IZR_le. lia.
        -- apply IZR_le. lia.
        -- rewrite <- !mult_IZR. apply IZR_le. exact L.
      * right. rewrite <- !mult_IZR, <- minus_IZR. apply IZR_le. lia.
    + rewrite <- !mult_IZR, <- plus_IZR.
      assert (H : IZR (Z.abs a * Z.abs a + Z.abs b * Z.abs b) <= 10 ^ 20).
      { rewrite <- (IZR_pow10 20). apply IZR_le.
        change (Z.of_nat 20) with 20%Z. nia. }
      pose proof tol_mul_pow as T. pose proof tol_pos as Tp.
      assert (tol * IZR (Z.abs a * Z.abs a + Z.abs b * Z.abs b) <= tol * 10 ^ 20)
        by (apply Rmult_le_compat_l; lra).
      lra.
Qed.

(** An integer quotient is returned as the integer. *)
Lemma truediv_cn_exact (q b : Z) :
  b <> 0%Z -> (q * b * (q * b) + b * b <= 10 ^ 20)%Z ->
  CasNum.truediv (cn (q * b)) (cn b) = Ok (cn q).
Proof.
  intros Hb Hbound. rewrite truediv_cn by assumption.
  f_equal. apply cnR_eq. rewrite mult_IZR. field. apply not_0_IZR. exact Hb.
Qed.

(** [//] on integers is the floor division of Python. *)
Lemma floordiv_cn (fuel : nat) (a b : Z) :
  b <> 0%Z -> (Z.abs a <= 10 ^ 9)%Z -> (Z.abs b <= 10 ^ 9)%Z ->
  (Z.abs a < Z.of_nat fuel)%Z ->
  CasNum.floordiv fuel (cn a) (cn b) = Ok (cn (a / b)).
Proof.
  intros Hb Ha Hbb Hf. unfold CasNum.floordiv.
  rewrite mod_cn by assumption. bind_step.
  rewrite sub_cn. bind_step.
  pose proof (Z.div_mod a b Hb) as Hdm.
  replace (a - a mod b)%Z with (a / b * b)%Z by lia.
  apply truediv_cn_exact; [exact Hb |].
  assert (Hq : (Z.abs (a / b * b) <= 2 * 10 ^ 9)%Z).
  { replace (a / b * b)%Z with (a - a mod b)%Z by lia.
    pose proof (Z.mod_bound_or a b Hb) as Hm. lia. }
  assert (H1 : (a / b * b * (a / b * b) <= (2 * 10 ^ 9) * (2 * 10 ^ 9))%Z) by nia.
  assert (H2 : (b * b <= 10 ^ 9 * 10 ^ 9)%Z) by nia.
  lia.
Qed.

(** X6: the Euclidean identity on integers:
    [(a // b) * b + a % b] is [a]. *)
Theorem euclidean_identity (fuel : nat) (a b : Z) :
  b <> 0%Z -> (Z.abs a <= 10 ^ 9)%Z -> (Z.abs b <= 10 ^ 9)%Z ->
  (Z.abs a < Z.of_nat fuel)%Z ->
  (q <- CasNum.floordiv fuel (cn a) (cn b) ;;
   qb <- CasNum.mul q (cn b) ;;
   r <- CasNum.mod_ fuel (cn a) (cn b) ;;
   CasNum.add qb r) = Ok (cn a).
Proof.
  intros Hb Ha Hbb Hf.
  rewrite floordiv_cn by assumption. bind_step.
  pose proof (Z.div_mod a b Hb) as Hdm.
  pose proof (Z.mod_bound_or a b Hb) as Hm.
  assert (Hq : (Z.abs (a / b) <= 10 ^ 10)%Z).
  { assert (Z.abs (b * (a / b)) <= 2 * 10 ^ 9)%Z by lia.
    assert (Z.abs (a / b) <= Z.abs (b * (a / b)))%Z by (rewrite Z.abs_mul; nia).
    lia. }
  rewrite mul_cn by exact Hq. bind_step.
  rewrite mod_cn by assumption. bind_step.
  rewrite add_cn. apply Ok_cn_eq. lia.
Qed.

(** *** [__pow__] *)

Lemma pow_loop_cn (k : nat) :
  forall a x n : Z,
    (0 <= n < Z.of_nat k)%Z ->
    (forall j : Z, 0 <= j < n -> Z.abs (x * a ^ j) <= 10 ^ 10)%Z ->
    CasNum.pow_loop k (cn a) (cn x) (cn n) = Ok (cn (x * a ^ n)).
Proof.
  induction k as [| k IH]; intros a x n Hn Hb; [lia |].
  cbn [CasNum.pow_loop].
  rewrite zero_cn, gt_cn. bind_step.
  destruct (Z.ltb_spec 0 n) as [P | Z0].
  - rewrite mul_cn.
    2:{ specialize (Hb 0%Z ltac:(lia)). rewrite Z.pow_0_r, Z.mul_1_r in Hb. exact Hb. }
    bind_step. rewrite one_cn, sub_cn. bind_step.
    rewrite IH.
    + apply Ok_cn_eq.
      replace n with (Z.succ (n - 1)) at 2 by lia.
      rewrite Z.pow_succ_r by lia. ring.
    + lia.
    + intros j Hj. specialize (Hb (Z.succ j) ltac:(lia)).
      rewrite Z.pow_succ_r in Hb by lia.
      replace (x * a * a ^ j)%Z with (x * (a * a ^ j))%Z by ring. exact Hb.
  - apply Ok_cn_eq. assert (n = 0)%Z by lia. subst n. rewrite Z.pow_0_r. ring.
Qed.

(** X7: [a ** n] on integers is the power, for an exponent
    0 <= n <= 10^9 and a result up to 10^10 in absolute value. *)
Theorem pow_is_power (fuel : nat) (a n : Z) :
  (0 <= n <= 10 ^ 9)%Z -> (n < Z.of_nat fuel)%Z ->
  (Z.abs a ^ n <= 10 ^ 10)%Z ->
  CasNum.pow fuel (cn a) (cn n) = Ok (cn (a ^ n)).
Proof.
  intros Hn Hf Hb. unfold CasNum.pow.
  rewrite zero_cn, lt_cn. bind_step.
  rewrite (proj2 (Z.ltb_ge n 0)) by lia. cbv iota.
  unfold CasNum.floor. rewrite one_cn.
  rewrite floordiv_cn by lia. bind_step.
  rewrite Z.div_1_r.
  unfold CasNum.ne. rewrite !eq_cn, Z.eqb_refl. cbn [negb].
  destruct (Z.eqb_spec n 0) as [E | N].
  - subst n. rewrite Z.pow_0_r. reflexivity.
  - rewrite sub_cn. bind_step. rewrite copy_cn.
    rewrite pow_loop_cn.
    + apply Ok_cn_eq.
      replace n with (Z.succ (n - 1)) at 2 by lia.
      rewrite Z.pow_succ_r by lia. ring.
    + lia.
    + intros j Hj.
      replace (a * a ^ j)%Z with (a ^ Z.succ j)%Z by (rewrite Z.pow_succ_r by lia; ring).
      rewrite Z.abs_pow.
      destruct (Z.eq_dec a 0) as [A0 | AN].
      * subst a. rewrite Z.abs_0, Z.pow_0_l by lia. lia.
      * apply Z.le_trans with (Z.abs a ^ n)%Z; [| exact Hb].
        apply Z.pow_le_mono_r; lia.
Qed.

(** *** [sqrt] *)

Lemma tol_le_half : tol <= 1 / 2.
Proof.
  pose proof tol_mul_pow as T. pose proof tol_pos as Tp.
  assert (H : 2 <= 10 ^ 20).
  { change 20%nat with (S 19). cbn [pow].
    assert (1 <= 10 ^ 19) by (apply pow_R1_Rle; lra). lra. }
  assert (tol * 2 <= tol * 10 ^ 20) by (apply Rmult_le_compat_l; lra).
  lra.
Qed.

(** [sqrt] of a positive integer is its real square root. *)
Lemma sqrt_cn (s : Z) :
  (1 <= s <= 10 ^ 9)%Z -> CasNum.sqrt (cn s) = Ok (cnR (sqrt (IZR s))).
Proof.
  intros Hs.
  pose proof tol_lt_1 as Ht. pose proof tol_pos as Htp. pose proof tol_le_half as Hth.
  assert (HsR : 1 <= IZR s) by (apply IZR_le; lia).
  assert (Hrt : 0 < sqrt (IZR s)) by (apply sqrt_lt_R0; lra).
  assert (Hrr : sqrt (IZR s) * sqrt (IZR s) = IZR s) by (apply sqrt_sqrt; lra).
  unfold CasNum.sqrt.
  rewrite zero_cn, lt_cn. bind_step.
  rewrite (proj2 (Z.ltb_ge s 0)) by lia. cbv iota.
  rewrite one_cn, add_cn. bind_step.
  rewrite two_cn. bind_step.
  rewrite truediv_cn by nia. bind_step.
  change (cn 1) with (cnR 1). rewrite sub_cnR. bind_step.
  rewrite plus_IZR.
  set (q0 := (IZR s + 1) / 2).
  assert (Hq0 : 1 <= q0) by (unfold q0; lra).
  change CasNum.origin with (pt 0 0). cbn [CasNum.p cnR].
  rewrite Circle_init_pt by (left; lra). bind_step.
  rewrite x_axis_ok. bind_step.
  assert (Hperp : exists h,
    cas_utils.get_perpendicular_to_line_through_point (pt (q0 - 1) 0) (line_of 0 0 1 0)
    = Ok (line_of (q0 - 1) h (q0 - 1) 0) /\ h <> 0).
  { pose proof sqrt3_pos as H3p.
    destruct (Z.eq_dec s 1) as [E1 | N1].
    - exists (0 + sqrt 3 * Rabs (q0 - 1 - 1)).
      assert (E : q0 - 1 = 0) by (unfold q0; rewrite E1; lra).
      assert (Ea : Rabs (q0 - 1 - 1) = 1) by (rewrite E, Rabs_left by lra; lra).
      split.
      + apply perp_on_horizontal.
        * lra.
        * left. split; [exact E | reflexivity].
        * rewrite Ea. lra.
      + rewrite Ea. lra.
    - exists (0 + sqrt 3 * Rabs (q0 - 1 - 0)).
      assert (2 <= IZR s) by (apply IZR_le; lia).
      assert (Ea : Rabs (q0 - 1 - 0) = q0 - 1) by (rewrite Rabs_right by (unfold q0; lra); ring).
      assert (1 / 2 <= q0 - 1) by (unfold q0; lra).
      split.
      + apply perp_on_horizontal.
        * lra.
        * right. split; [lra | reflexivity].
        * rewrite Ea. lra.
      + rewrite Ea. assert (0 < sqrt 3 * (q0 - 1)) by (apply Rmult_lt_0_compat; lra). lra. }
  destruct Hperp as [h [Hperp Hh]].
  rewrite Hperp. bind_step.
  rewrite (iwl_vertical 0 0 q0 0 (q0 - 1) h 0 (sqrt (IZR s))).
  2: exact Hh.
  2: exact Hrt.
  2:{ rewrite Hrr. unfold q0. field. }
  bind_step. cbn [unpack2]. bind_step.
  cbn [pt Point.x Point.y]. unfold sym_gt.
  rewrite sym_lt_Re_true by lra. bind_step.
  change (Point.mk (Re (q0 - 1)) (Re 0)) with (pt (q0 - 1) 0).
  change (Point.mk (Re (q0 - 1)) (Re (0 + sqrt (IZR s)))) with (pt (q0 - 1) (0 + sqrt (IZR s))).
  rewrite Circle_init_pt by (right; lra). bind_step.
  rewrite (iwl_horizontal (q0 - 1) 0 (q0 - 1) (0 + sqrt (IZR s)) 0 0 1 (sqrt (IZR s))).
  2: lra.
  2: exact Hrt.
  2:{ rewrite Hrr. replace (0 - (0 + sqrt (IZR s))) with (- sqrt (IZR s)) by ring.
      replace (- sqrt (IZR s) * - sqrt (IZR s)) with (sqrt (IZR s) * sqrt (IZR s)) by ring.
      rewrite Hrr. ring. }
  bind_step. cbn [unpack2]. bind_step.
  cbn [pt Point.x Point.y].
  rewrite sym_lt_Re_true by lra. bind_step.
  change (CasNum.mk (pt (q0 - 1 + sqrt (IZR s)) 0)) with (cnR (q0 - 1 + sqrt (IZR s))).
  rewrite sub_cnR. f_equal. apply cnR_eq. ring.
Qed.

(** *** [pow_mod] *)

(** The conditional reduction of [pow_mod]: a value is reduced only when
    it is strictly greater than the modulus, so the modulus itself is
    left as it is. *)
Lemma pow_mod_reduce (n x : Z) :
  (1 <= n)%Z -> (0 <= x)%Z ->
  let y := (if (n <? x)%Z then x mod n else x)%Z in
  (0 <= y <= n /\ y mod n = x mod n)%Z.
Proof.
  intros Hn Hx. cbv zeta. destruct (Z.ltb_spec n x) as [H | H].
  - pose proof (Z.mod_pos_bound x n ltac:(lia)).
    split; [lia |]. apply Z.mod_mod. lia.
  - split; [lia | reflexivity].
Qed.

Lemma pow_mod_loop_cn (fuel : nat) (n B : Z) :
  (1 <= n <= B)%Z -> (B <= 10 ^ 10)%Z -> (B * B < Z.of_nat fuel)%Z ->
  forall (k : nat) (res base b : Z),
    (0 <= b < Z.of_nat k)%Z -> (b < Z.of_nat fuel)%Z ->
    (0 <= res <= n)%Z -> (0 <= base <= B)%Z ->
    exists r : Z,
      CasNum.pow_mod_loop fuel k (cn n) (cn 2) (cn res) (cn base) (cn b)
      = Ok (cn r)
      /\ (0 <= r <= n)%Z /\ (r mod n = (res * base ^ b) mod n)%Z.
Proof.
  intros Hn HB Hf.
  induction k as [| k IH]; intros res base b Hb Hbf Hres Hbase; [lia |].
  cbn [CasNum.pow_mod_loop].
  rewrite zero_cn, gt_cn. bind_step.
  destruct (Z.ltb_spec 0 b) as [Hpos | Hzero].
  2:{ assert (b = 0%Z) by lia. subst b. exists res.
      split; [reflexivity |]. split; [lia |].
      rewrite Z.pow_0_r, Z.mul_1_r. reflexivity. }
  rewrite mod_cn by lia. bind_step.
  rewrite one_cn, isEqual_cn.
  assert (Hrb : (0 <= res * base <= B * B)%Z) by nia.
  assert (Hbb : (0 <= base * base <= B * B)%Z) by nia.
  pose proof (pow_mod_reduce n (res * base) ltac:(lia) ltac:(lia)) as R1.
  pose proof (pow_mod_reduce n (base * base) ltac:(lia) ltac:(lia)) as R2.
  cbv zeta in R1, R2.
  set (base1 := (if (n <? base * base)%Z then (base * base) mod n
                 else base * base)%Z) in *.
  assert (Hstep : (b = 2 * (b / 2) + b mod 2)%Z) by (apply Z.div_mod; lia).
  assert (Hbit : (0 <= b mod 2 < 2)%Z) by (apply Z.mod_pos_bound; lia).
  assert (Hhalf : (0 <= b / 2 < Z.of_nat k)%Z) by lia.
  assert (Hsq : ((base * base) ^ (b / 2) = base ^ (2 * (b / 2)))%Z).
  { rewrite Z.pow_twice_r. rewrite Z.pow_mul_l. reflexivity. }
  assert (Hbase1 : forall c : Z,
             ((c * base1 ^ (b / 2)) mod n
              = (c * base ^ (2 * (b / 2))) mod n)%Z).
  { intros c. rewrite <- Hsq.
    rewrite <- (Z.mul_mod_idemp_r c (base1 ^ (b / 2))) by lia.
    rewrite <- (Z.mod_pow_l base1).
    destruct R2 as [_ R2]. rewrite R2. rewrite Z.mod_pow_l.
    rewrite Z.mul_mod_idemp_r by lia. reflexivity. }
  assert (Htail : forall res1 : Z,
    (0 <= res1 <= n)%Z ->
    (res1 mod n = (res * base ^ (b mod 2)) mod n)%Z ->
    exists r : Z,
      (base0 <- CasNum.mul (cn base) (cn base) ;;
       big <- CasNum.gt base0 (cn n) ;;
       base0 <- (if big then CasNum.mod_ fuel base0 (cn n) else Ok base0) ;;
       b_cpy <- CasNum.rshift fuel (cn b) 1 ;;
       CasNum.pow_mod_loop fuel k (cn n) (cn 2) (cn res1) base0 b_cpy)
      = Ok (cn r)
      /\ (0 <= r <= n)%Z /\ (r mod n = (res * base ^ b) mod n)%Z).
  { intros res1 Hr1 Hc1.
    rewrite mul_cn by lia. bind_step.
    rewrite gt_cn. bind_step.
    assert (Eb : (if (n <? base * base)%Z
                  then CasNum.mod_ fuel (cn (base * base)) (cn n)
                  else Ok (cn (base * base))) = Ok (cn base1)).
    { unfold base1. destruct (n <? base * base)%Z; [| reflexivity].
      apply mod_cn; lia. }
    rewrite Eb. bind_step.
    rewrite rshift1_cn by lia. bind_step.
    destruct (IH res1 base1 (b / 2)%Z Hhalf ltac:(lia) Hr1 ltac:(lia))
      as [r [E [Hr Hc]]].
    exists r. split; [exact E |]. split; [exact Hr |].
    rewrite Hc, Hbase1.
    rewrite <- Z.mul_mod_idemp_l by lia. rewrite Hc1.
    rewrite Z.mul_mod_idemp_l by lia.
    rewrite <- Z.mul_assoc, <- Z.pow_add_r by lia.
    replace (b mod 2 + 2 * (b / 2))%Z with b by lia. reflexivity. }
  destruct (Z.eqb_spec (b mod 2) 1) as [E1 | E0].
  - rewrite mul_cn by lia. bind_step. rewrite gt_cn. bind_step.
    set (res1 := (if (n <? res * base)%Z then (res * base) mod n
                  else res * base)%Z) in *.
    assert (Er : (if (n <? res * base)%Z
                  then CasNum.mod_ fuel (cn (res * base)) (cn n)
                  else Ok (cn (res * base))) = Ok (cn res1)).
    { unfold res1. destruct (n <? res * base)%Z; [| reflexivity].
      apply mod_cn; lia. }
    rewrite Er. bind_step.
    apply Htail; [tauto |]. destruct R1 as [_ R1]. rewrite R1, E1.
    rewrite Z.pow_1_r. reflexivity.
  - bind_step. apply Htail; [lia |].
    replace (b mod 2)%Z with 0%Z by lia.
    rewrite Z.pow_0_r, Z.mul_1_r. reflexivity.
Qed.

(** X10: [pow_mod(a, b, n)] on integers is congruent to [a ^ b]
    modulo [n] and lies between 0 and [n], both ends included. *)
Theorem pow_mod_is_modular_power (fuel : nat) (a b n : Z) :
  (0 <= a <= 10 ^ 10)%Z -> (1 <= n <= 10 ^ 10)%Z -> (0 <= b)%Z ->
  (b < Z.of_nat fuel)%Z ->
  (Z.max a n * Z.max a n < Z.of_nat fuel)%Z ->
  exists r : Z,
    CasNum.pow_mod fuel (cn a) (cn b) (cn n) = Ok (cn r)
    /\ (0 <= r <= n)%Z /\ (r mod n = a ^ b mod n)%Z.
Proof.
  intros Ha Hn Hb Hbf Hf. unfold CasNum.pow_mod.
  rewrite one_cn, add_cn. bind_step. rewrite copy_cn.
  change (1 + 1)%Z with 2%Z.
  destruct (pow_mod_loop_cn fuel n (Z.max a n) ltac:(lia) ltac:(lia) Hf
              fuel 1%Z a b ltac:(lia) Hbf ltac:(lia) ltac:(lia))
    as [r [E [Hr Hc]]].
  exists r. split; [exact E |]. split; [exact Hr |].
  rewrite Hc, Z.mul_1_l. reflexivity.
Qed.

(** *** [inv_mod] *)

(** The loop of [inv_mod] is the extended Euclidean algorithm: it keeps
    [d * i0 = temp_n] and [y1 * i0 = i] modulo [n], the two coefficients
    have opposite signs and [|d| * i + |y1| * temp_n = n], which bounds
    them by [n]. *)
Lemma inv_mod_loop_cn (fuel : nat) (n i0 M : Z) :
  (1 <= n)%Z -> (M <= 10 ^ 9)%Z -> (M < Z.of_nat fuel)%Z ->
  forall (k : nat) (i d x1 x2 y1 tn : Z),
    (0 <= i < Z.of_nat k)%Z -> (i <= M)%Z -> (1 <= tn <= M)%Z ->
    (Z.abs d <= n)%Z ->
    ((d <= 0 <= y1 /\ y1 * tn - d * i = n)
     \/ (y1 <= 0 <= d /\ d * i - y1 * tn = n))%Z ->
    (exists u : Z, d * i0 - tn = u * n)%Z ->
    (exists v : Z, y1 * i0 - i = v * n)%Z ->
    exists d' : Z,
      CasNum.inv_mod_loop fuel k (cn i) (cn d) (cn x1) (cn x2) (cn y1) (cn tn)
      = Ok (cn d', cn (Z.gcd tn i))
      /\ (Z.abs d' <= n)%Z
      /\ (exists u : Z, d' * i0 - Z.gcd tn i = u * n)%Z.
Proof.
  intros Hn HM Hf.
  induction k as [| k IH]; intros i d x1 x2 y1 tn Hi HiM Htn Hd HS Hu Hv;
    [lia |].
  cbn [CasNum.inv_mod_loop].
  rewrite zero_cn, gt_cn. bind_step.
  destruct (Z.ltb_spec 0 i) as [Hpos | Hzero].
  2:{ assert (i = 0%Z) by lia. subst i. exists d.
      rewrite Z.gcd_0_r, Z.abs_eq by lia.
      split; [reflexivity |]. split; [exact Hd | exact Hu]. }
  pose proof (Z.div_mod tn i ltac:(lia)) as Hdm.
  pose proof (Z.mod_pos_bound tn i ltac:(lia)) as Hr.
  pose proof (Z.div_pos tn i ltac:(lia) ltac:(lia)) as Hq0.
  assert (Hq : (tn / i <= tn)%Z) by nia.
  rewrite floordiv_cn by lia. bind_step.
  rewrite mul_cn by lia. bind_step.
  rewrite sub_cn. bind_step.
  rewrite mul_cn by lia. bind_step.
  rewrite sub_cn. bind_step.
  rewrite mul_cn by lia. bind_step.
  rewrite sub_cn. bind_step.
  replace (tn - tn / i * i)%Z with (tn mod i)%Z by lia.
  destruct (IH (tn mod i)%Z y1 (x2 - tn / i * x1)%Z x1 (d - tn / i * y1)%Z i)
    as [d' [E [Hd' Hu']]].
  - lia.
  - lia.
  - lia.
  - destruct HS as [[HS1 HS2] | [HS1 HS2]]; nia.
  - destruct HS as [[HS1 HS2] | [HS1 HS2]]; [right | left];
      (split; [nia |]);
      replace (tn mod i)%Z with (tn - i * (tn / i))%Z by lia; lia.
  - exact Hv.
  - destruct Hu as [u Hu], Hv as [v Hv]. exists (u - tn / i * v)%Z.
    replace (tn mod i)%Z with (tn - i * (tn / i))%Z by lia.
    transitivity ((d * i0 - tn) - tn / i * (y1 * i0 - i))%Z; [ring |].
    rewrite Hu, Hv. ring.
  - exists d'.
    assert (Hg : Z.gcd i (tn mod i) = Z.gcd tn i).
    { rewrite Z.gcd_comm, Z.gcd_mod by lia. apply Z.gcd_comm. }
    rewrite <- Hg. split; [exact E |]. split; [exact Hd' | exact Hu'].
Qed.

(** X12: [inv_mod(i, n)] on integers returns the inverse of [i]
    modulo [n] that lies in [0, n) when [i] and [n] are coprime, and
    [None] otherwise. *)
Theorem inv_mod_is_modular_inverse (fuel : nat) (i n : Z) :
  (0 <= i <= 10 ^ 9)%Z -> (1 <= n <= 10 ^ 9)%Z ->
  (Z.max i n < Z.of_nat fuel)%Z ->
  exists r : Z,
    (0 <= r < n)%Z /\ ((r * i) mod n = Z.gcd i n mod n)%Z
    /\ CasNum.inv_mod fuel (cn i) (cn n)
       = Ok (if (Z.gcd i n =? 1)%Z then Some (cn r) else None).
Proof.
  intros Hi Hn Hf. unfold CasNum.inv_mod.
  destruct (inv_mod_loop_cn fuel n i (Z.max i n) ltac:(lia) ltac:(lia) Hf
              fuel i 0%Z 1%Z 0%Z 1%Z n)
    as [d [E [Hd [u Hu]]]].
  - lia.
  - lia.
  - lia.
  - lia.
  - left. lia.
  - exists (-1)%Z. lia.
  - exists 0%Z. lia.
  - rewrite zero_cn, one_cn, E. bind_step.
    rewrite eq_cn. rewrite (Z.gcd_comm i n).
    exists (d mod n)%Z.
    pose proof (Z.mod_pos_bound d n ltac:(lia)) as Hr.
    split; [exact Hr |]. split.
    + rewrite Z.mul_mod_idemp_l by lia.
      replace (d * i)%Z with (Z.gcd n i + u * n)%Z by lia.
      apply Z.mod_add. lia.
    + destruct (Z.gcd n i =? 1)%Z; [| reflexivity].
      rewrite mod_cn by lia. reflexivity.
Qed.

(** *** [%] and [floor] on real numbers *)

Lemma Rleb_true (a b : R) : a <= b -> Rleb a b = true.
Proof. intros H. unfold Rleb. destruct (Rle_dec a b); [reflexivity | contradiction]. Qed.

Lemma Rleb_false (a b : R) : b < a -> Rleb a b = false.
Proof. intros H. unfold Rleb. destruct (Rle_dec a b); [lra | reflexivity]. Qed.

Lemma ge_cnR (a b : R) : CasNum.ge (cnR a) (cnR b) = Ok (Rleb b a).
Proof.
  unfold CasNum.ge. rewrite gt_cnR. bind_step.
  destruct (Rlt_or_le b a) as [L | G].
  - rewrite Rltb_true, Rleb_true by lra. reflexivity.
  - rewrite Rltb_false by lra.
    destruct (Req_dec_T a b) as [E | N].
    + rewrite isEqual_cnR_true, Rleb_true by lra. reflexivity.
    + rewrite isEqual_cnR_false, Rleb_false by lra. reflexivity.
Qed.

(** Doubling [b] until it is no smaller than [a], on reals. *)
Lemma double_until_gt_loop_cnR (n : nat) :
  forall (k : nat) (a b : R),
    0 < b -> a <= b * 2 ^ n -> (n < k)%nat ->
    exists j : nat,
      CasNum.double_until_gt_loop k (cnR a) (cnR b) true
      = Ok (cnR (b * 2 ^ j))
      /\ (j <= n)%nat /\ a <= b * 2 ^ j
      /\ (j = O \/ b * 2 ^ (j - 1) < a).
Proof.
  induction n as [| n IH]; intros k a b Hb Ha Hk.
  - destruct k as [| k]; [lia |].
    exists O. cbn [CasNum.double_until_gt_loop].
    rewrite gt_cnR. bind_step.
    cbn [pow] in *. rewrite Rltb_false by lra.
    cbn [negb andb orb]. split; [f_equal; apply cnR_eq; ring |].
    split; [lia |]. split; [lra | left; reflexivity].
  - destruct k as [| k]; [lia |].
    cbn [CasNum.double_until_gt_loop].
    rewrite gt_cnR. bind_step.
    destruct (Rlt_or_le b a) as [L | G].
    + rewrite Rltb_true by exact L.
      cbn [negb andb orb]. rewrite mul2_cnR. bind_step.
      destruct (IH k a (2 * b)) as [j [E [Hj [H1 H2]]]].
      * lra.
      * cbn [pow] in Ha. lra.
      * lia.
      * exists (S j). rewrite E.
        split; [f_equal; apply cnR_eq; cbn [pow]; ring |].
        split; [lia |].
        split; [cbn [pow]; lra |].
        right. replace (S j - 1)%nat with j by lia.
        destruct H2 as [-> | H2].
        -- cbn [pow]. lra.
        -- destruct j as [| j'].
           ++ cbn [pow]. lra.
           ++ replace (S j' - 1)%nat with j' in H2 by lia.
              cbn [pow]. lra.
    + rewrite Rltb_false by exact G.
      cbn [negb andb orb]. exists O.
      split; [f_equal; apply cnR_eq; cbn [pow]; ring |].
      split; [lia |]. split; [cbn [pow]; lra | left; reflexivity].
Qed.

Lemma double_until_gt_cnR (fuel n : nat) (a b : R) :
  0 < b -> a <= b * 2 ^ n -> (n < fuel)%nat ->
  exists j : nat,
    CasNum.double_until_gt fuel (cnR a) (cnR b) true = Ok (cnR (b * 2 ^ j))
    /\ (j <= n)%nat /\ a <= b * 2 ^ j
    /\ (j = O \/ b * 2 ^ (j - 1) < a).
Proof.
  intros Hb Ha Hf. unfold CasNum.double_until_gt.
  change (CasNum.copy (cnR b)) with (cnR b).
  apply (double_until_gt_loop_cnR n); assumption.
Qed.

Lemma mod_loop_cnR_done (fuel k : nat) (r B : R) :
  Rabs r < B -> CasNum.mod_loop fuel (S k) (cnR r) (cnR B) = Ok (cnR r).
Proof.
  intros H. cbn [CasNum.mod_loop].
  rewrite abs_cnR. bind_step. rewrite ge_cnR. bind_step.
  rewrite Rleb_false by exact H. reflexivity.
Qed.

(** The loop of [__mod__] on reals: each round at least halves the
    distance to the nearest multiple, so [n + 2] rounds are enough when
    [|r| <= B * 2 ^ n]. *)
Lemma mod_loop_cnR (fuel : nat) :
  forall (n k : nat) (r B : R),
    0 < B -> Rabs r <= B * 2 ^ n -> (n + 1 < k)%nat -> (n < fuel)%nat ->
    exists (r' : R) (q : Z),
      CasNum.mod_loop fuel k (cnR r) (cnR B) = Ok (cnR r')
      /\ Rabs r' < B /\ r = r' + IZR q * B.
Proof.
  induction n as [| n IH]; intros k r B HB Hr Hk Hf.
  - destruct k as [| k]; [lia |].
    destruct (Rlt_or_le (Rabs r) B) as [L | G].
    { exists r, 0%Z. rewrite mod_loop_cnR_done by exact L.
      split; [reflexivity |]. split; [exact L | lra]. }
    cbn [CasNum.mod_loop].
    rewrite abs_cnR. bind_step. rewrite ge_cnR. bind_step.
    rewrite Rleb_true by exact G. bind_step.
    destruct (double_until_gt_cnR fuel 0 (Rabs r) B HB Hr Hf)
      as [j [E [Hj [H1 H2]]]].
    assert (j = O) by lia. subst j. cbn [pow] in *.
    rewrite E. bind_step. change CasNum.zero with (cnR 0). rewrite gt_cnR.
    bind_step. destruct k as [| k]; [lia |].
    destruct (Rlt_or_le 0 r) as [P | N].
    + rewrite Rltb_true by exact P. rewrite sub_cnR. bind_step.
      rewrite Rabs_right in * by lra.
      exists (r - B * 1), 1%Z. rewrite mod_loop_cnR_done.
      * split; [reflexivity |].
        split; [| lra].
        replace (r - B * 1) with 0 by lra. rewrite Rabs_R0. exact HB.
      * replace (r - B * 1) with 0 by lra. rewrite Rabs_R0. exact HB.
    + rewrite Rltb_false by exact N. rewrite add_cnR. bind_step.
      rewrite Rabs_left1 in * by lra.
      exists (r + B * 1), (-1)%Z. rewrite mod_loop_cnR_done.
      * split; [reflexivity |].
        split; [| lra].
        replace (r + B * 1) with 0 by lra. rewrite Rabs_R0. exact HB.
      * replace (r + B * 1) with 0 by lra. rewrite Rabs_R0. exact HB.
  - destruct k as [| k]; [lia |].
    destruct (Rlt_or_le (Rabs r) B) as [L | G].
    { exists r, 0%Z. rewrite mod_loop_cnR_done by exact L.
      split; [reflexivity |]. split; [exact L | lra]. }
    cbn [CasNum.mod_loop].
    rewrite abs_cnR. bind_step. rewrite ge_cnR. bind_step.
    rewrite Rleb_true by exact G. bind_step.
    destruct (double_until_gt_cnR fuel (S n) (Rabs r) B HB Hr Hf)
      as [j [E [Hj [H1 H2]]]].
    rewrite E. bind_step. change CasNum.zero with (cnR 0). rewrite gt_cnR.
    bind_step.
    set (T := B * 2 ^ j) in *.
    assert (HT : T = IZR (2 ^ Z.of_nat j) * B).
    { unfold T. rewrite <- pow_IZR. ring. }
    assert (Hsmall : T - Rabs r <= B * 2 ^ n).
    { destruct H2 as [-> | H2].
      - unfold T in *. cbn [pow] in *.
        assert (0 <= B * 2 ^ n).
        { apply Rmult_le_pos; [lra | apply pow_le; lra]. }
        lra.
      - destruct j as [| j']; [unfold T in *; cbn [pow] in *; 
          assert (0 <= B * 2 ^ n)
            by (apply Rmult_le_pos; [lra | apply pow_le; lra]); lra |].
        replace (S j' - 1)%nat with j' in H2 by lia.
        assert (2 ^ j' <= 2 ^ n) by (apply Rle_pow; [lra | lia]).
        assert (B * 2 ^ j' <= B * 2 ^ n)
          by (apply Rmult_le_compat_l; lra).
        unfold T in *. cbn [pow] in *. lra. }
    destruct (Rlt_or_le 0 r) as [P | N].
    + rewrite Rltb_true by exact P. rewrite sub_cnR. bind_step.
      rewrite (Rabs_right r) in * by lra.
      destruct (IH k (r - T) B HB) as [r' [q [E' [A1 A2]]]].
      * rewrite Rabs_left1 by lra. lra.
      * lia.
      * lia.
      * exists r', (q + 2 ^ Z.of_nat j)%Z.
        split; [exact E' |]. split; [exact A1 |].
        rewrite plus_IZR. lra.
    + rewrite Rltb_false by exact N. rewrite add_cnR. bind_step.
      rewrite (Rabs_left1 r) in * by lra.
      destruct (IH k (r + T) B HB) as [r' [q [E' [A1 A2]]]].
      * rewrite Rabs_right by lra. lra.
      * lia.
      * lia.
      * exists r', (q - 2 ^ Z.of_nat j)%Z.
        split; [exact E' |]. split; [exact A1 |].
        rewrite minus_IZR. lra.
Qed.

(** [a % b] for a real [a] and a positive real [b]: the result is [a]
    minus a whole multiple of [b] and lies in [0, b). *)
Lemma mod_cnR_pos (fuel n : nat) (a b : R) :
  0 < b -> Rabs a <= b * 2 ^ n -> (n + 1 < fuel)%nat ->
  exists q : Z,
    CasNum.mod_ fuel (cnR a) (cnR b) = Ok (cnR (a - IZR q * b))
    /\ 0 <= a - IZR q * b < b.
Proof.
  intros Hb Ha Hf. unfold CasNum.mod_.
  change CasNum.zero with (cnR 0).
  rewrite isEqual_cnR_false by lra.
  rewrite abs_cnR. bind_step. rewrite (Rabs_right b) by lra.
  change (CasNum.copy (cnR a)) with (cnR a).
  destruct (mod_loop_cnR fuel n fuel a b Hb Ha Hf ltac:(lia))
    as [r [q [E [A1 A2]]]].
  rewrite E. bind_step. rewrite lt_cnR. bind_step.
  rewrite Rltb_false by lra. bind_step. cbn [andb].
  rewrite gt_cnR. bind_step. rewrite Rltb_true by lra.
  rewrite lt_cnR. bind_step. cbn [andb].
  assert (Hr : - b < r < b).
  { unfold Rabs in A1. destruct (Rcase_abs r); lra. }
  destruct (Rlt_or_le r 0) as [N | P].
  - rewrite Rltb_true by exact N. rewrite add_cnR.
    exists (q - 1)%Z. rewrite minus_IZR.
    split; [f_equal; apply cnR_eq; lra | lra].
  - rewrite Rltb_false by exact P.
    exists q. split; [f_equal; apply cnR_eq; lra | lra].
Qed.

(** [floor] of a real: the integer [m] with [m <= x < m + 1]. *)
Lemma floor_cnR (fuel n : nat) (x : R) (m : Z) :
  IZR m <= x < IZR m + 1 -> (Z.abs m <= 10 ^ 9)%Z ->
  Rabs x <= 2 ^ n -> (n + 1 < fuel)%nat ->
  CasNum.floor fuel (cnR x) = Ok (cn m).
Proof.
  intros Hm Hb Hx Hf. unfold CasNum.floor, CasNum.floordiv.
  change CasNum.one with (cnR 1).
  destruct (mod_cnR_pos fuel n x 1 ltac:(lra) ltac:(lra) Hf) as [q [E Hq]].
  rewrite E. bind_step. rewrite sub_cnR. bind_step.
  assert (q = m).
  { assert (IZR q < IZR (m + 1)) by (rewrite plus_IZR; lra).
    assert (IZR m < IZR (q + 1)) by (rewrite plus_IZR; lra).
    apply lt_IZR in H, H0. lia. }
  subst q.
  replace (cnR (x - (x - IZR m * 1))) with (cn m)
    by (apply cnR_eq; lra).
  change (cnR 1) with (cn 1).
  rewrite truediv_cn by nia.
  f_equal. apply cnR_eq. field.
Qed.

(** *** [is_prime] *)

Lemma sqrt_between (p : Z) :
  (0 <= p)%Z -> IZR (Z.sqrt p) <= sqrt (IZR p) < IZR (Z.sqrt p) + 1.
Proof.
  intros Hp. pose proof (Z.sqrt_spec p Hp) as S. cbv zeta in S.
  pose proof (Z.sqrt_nonneg p) as L0.
  set (L := Z.sqrt p) in *.
  assert (H0 : 0 <= IZR L) by (apply IZR_le; exact L0).
  assert (H1 : IZR L * IZR L <= IZR p).
  { rewrite <- mult_IZR. apply IZR_le. lia. }
  assert (H2 : IZR p < (IZR L + 1) * (IZR L + 1)).
  { replace (IZR L + 1) with (IZR (Z.succ L)) by (rewrite succ_IZR; ring).
    rewrite <- mult_IZR. apply IZR_lt. lia. }
  split.
  - rewrite <- (sqrt_square (IZR L)) at 1 by exact H0.
    apply sqrt_le_1_alt. exact H1.
  - rewrite <- (sqrt_square (IZR L + 1)) by lra.
    apply sqrt_lt_1_alt. split; [apply IZR_le; exact Hp | exact H2].
Qed.

(** Trial division by the odd numbers up to the integer square root
    decides primality of an odd number. *)
Lemma trial_division (p : Z) :
  (3 <= p)%Z -> (p mod 2 <> 0)%Z ->
  (forall j : Z, 0 <= j -> 3 + 2 * j <= Z.sqrt p -> p mod (3 + 2 * j) <> 0)%Z
  <-> Z.prime p.
Proof.
  intros Hp Hodd.
  pose proof (Z.sqrt_spec p ltac:(lia)) as S. cbv zeta in S.
  pose proof (Z.sqrt_nonneg p) as L0.
  split.
  - intros H.
    assert (Hsmall : forall d : Z, (1 < d)%Z -> (d * d <= p)%Z ->
                                   (d | p)%Z -> False).
    { intros d Hd Hdd [m Hm].
      assert (Od : Z.odd p = true).
      { rewrite Zmod_odd in Hodd. destruct (Z.odd p); [reflexivity | lia]. }
      rewrite Hm, Z.odd_mul in Od. apply andb_prop in Od as [_ Od].
      pose proof (Z.div2_odd d) as Ed. rewrite Od in Ed. cbn [Z.b2z] in Ed.
      apply (H (Z.div2 d - 1)%Z).
      - lia.
      - replace (3 + 2 * (Z.div2 d - 1))%Z with d by lia.
        apply Z.sqrt_le_square; lia.
      - replace (3 + 2 * (Z.div2 d - 1))%Z with d by lia.
        rewrite Hm. apply Z.mod_mul. lia. }
    split; [lia |]. intros n Hn [m Hm].
    assert (Hm1 : (1 < m)%Z) by nia.
    destruct (Z.le_gt_cases n m) as [C | C].
    + apply (Hsmall n); [lia | nia | exists m; exact Hm].
    + apply (Hsmall m); [lia | nia | exists n; lia].
  - intros [_ Hpr] j Hj Hle Hmod.
    apply (Hpr (3 + 2 * j)%Z); [nia |].
    apply Z.mod_divide; [lia | exact Hmod].
Qed.

Lemma is_prime_loop_cn (fuel : nat) (p L : Z) :
  (Z.abs p < Z.of_nat fuel)%Z ->
  forall (k : nat) (cur : Z),
    (3 <= cur)%Z -> (0 < k)%nat -> (L + 1 - cur < Z.of_nat k)%Z ->
    exists b : bool,
      CasNum.is_prime_loop fuel k (cn p) (cn 2) (cn (L + 1)) (cn cur) = Ok b
      /\ (b = true <->
          forall j : Z, 0 <= j -> cur + 2 * j <= L -> p mod (cur + 2 * j) <> 0)%Z.
Proof.
  intros Hf. induction k as [| k IH]; intros cur Hc Hk HL; [lia |].
  cbn [CasNum.is_prime_loop].
  rewrite lt_cn. bind_step.
  destruct (Z.ltb_spec cur (L + 1)) as [More | Done].
  2:{ exists true. split; [reflexivity |]. split; [| reflexivity].
      intros _ j Hj Hle. lia. }
  rewrite mod_cn by lia. bind_step.
  rewrite zero_cn, eq_cn.
  destruct (Z.eqb_spec (p mod cur) 0) as [Z0 | NZ].
  { exists false. split; [reflexivity |]. split; [discriminate |].
    intros H. exfalso. apply (H 0%Z); [lia | lia |].
    rewrite Z.mul_0_r, Z.add_0_r. exact Z0. }
  rewrite add_cn. bind_step.
  destruct (IH (cur + 2)%Z) as [b [E Hb]]; [lia | lia | lia |].
  exists b. split; [exact E |]. rewrite Hb. split.
  - intros H j Hj Hle.
    destruct (Z.eq_dec j 0) as [-> | Nj].
    + rewrite Z.mul_0_r, Z.add_0_r. exact NZ.
    + replace (cur + 2 * j)%Z with (cur + 2 + 2 * (j - 1))%Z by lia.
      apply H; lia.
  - intros H j Hj Hle.
    replace (cur + 2 + 2 * j)%Z with (cur + 2 * (j + 1))%Z by lia.
    apply H; lia.
Qed.

Lemma pow2_ge_IZR (n : nat) : IZR (Z.of_nat n) <= 2 ^ n.
Proof.
  change 2 with (IZR 2). rewrite pow_IZR. apply IZR_le. apply pow2_ge.
Qed.

(** X13: [is_prime] decides primality of the integers from 1 to
    10^9. *)
Theorem is_prime_decides_primality (fuel : nat) (p : Z) :
  (1 <= p <= 10 ^ 9)%Z -> (p + 1 < Z.of_nat fuel)%Z ->
  exists b : bool,
    CasNum.is_prime fuel (cn p) = Ok b /\ (b = true <-> Z.prime p).
Proof.
  intros Hp Hf. unfold CasNum.is_prime.
  rewrite one_cn, eq_cn.
  destruct (Z.eqb_spec p 1) as [-> | N1].
  { exists false. split; [reflexivity |]. split; [discriminate |].
    intros H. exfalso. exact (Z.not_prime_1 H). }
  rewrite two_cn. bind_step. rewrite eq_cn.
  destruct (Z.eqb_spec p 2) as [-> | N2].
  { exists true. split; [reflexivity |]. split; [intros _; exact Z.prime_2 | reflexivity]. }
  rewrite mod_cn by lia. bind_step. rewrite zero_cn, eq_cn.
  destruct (Z.eqb_spec (p mod 2) 0) as [Ev | Od].
  { exists false. split; [reflexivity |]. split; [discriminate |].
    intros [_ H]. exfalso. apply (H 2%Z); [lia |].
    apply Z.mod_divide; [lia | exact Ev]. }
  rewrite sqrt_cn by lia. bind_step.
  change (cn 1) with (cnR 1). rewrite add_cnR. bind_step.
  pose proof (sqrt_between p ltac:(lia)) as Hs.
  pose proof (Z.sqrt_spec p ltac:(lia)) as S. cbv zeta in S.
  pose proof (Z.sqrt_nonneg p) as L0.
  remember (Z.sqrt p) as L eqn:EL.
  assert (HLp : (L + 1 <= p)%Z) by nia.
  rewrite (floor_cnR fuel (Z.to_nat p) _ (L + 1)%Z).
  - bind_step. change (cnR 1) with (cn 1). rewrite add_cn. bind_step.
    change (2 + 1)%Z with 3%Z.
    destruct (is_prime_loop_cn fuel p L ltac:(lia) fuel 3%Z)
      as [b [E Hb]]; [lia | lia | lia |].
    exists b. split; [exact E |]. rewrite Hb. subst L.
    apply trial_division; [lia | exact Od].
  - rewrite plus_IZR. lra.
  - lia.
  - pose proof (sqrt_pos (IZR p)) as Hsp.
    rewrite Rabs_right by lra.
    apply Rle_trans with (IZR (Z.of_nat (Z.to_nat p))); [| apply pow2_ge_IZR].
    rewrite Z2Nat.id by lia.
    apply Rle_trans with (IZR (L + 1) + 1); [rewrite plus_IZR; lra |].
    assert (IZR (L + 1) <= IZR p) by (apply IZR_le; lia).
    assert (L + 1 + 1 <= p \/ L + 1 = p)%Z as [C | C] by lia.
    + apply IZR_le in C. rewrite !plus_IZR in *. lra.
    + exfalso. nia.
  - lia.
Qed.

(** X11: the upper end is reached: [pow_mod(n, 1, n)] is [n],
    not the reduced value 0, since only a value strictly greater than the
    modulus is reduced. *)
Theorem pow_mod_modulus_not_reduced (fuel : nat) (n : Z) :
  (1 <= n <= 10 ^ 10)%Z -> (n * n < Z.of_nat fuel)%Z ->
  CasNum.pow_mod fuel (cn n) (cn 1) (cn n) = Ok (cn n)
  /\ (n ^ 1 mod n = 0)%Z.
Proof.
  intros Hn Hf. split; [| rewrite Z.pow_1_r; apply Z.mod_same; lia].
  unfold CasNum.pow_mod.
  rewrite one_cn, add_cn. bind_step. rewrite copy_cn.
  change (1 + 1)%Z with 2%Z.
  destruct fuel as [| [| k]]; [nia | nia |].
  remember (S (S k)) as fuel eqn:Ef.
  rewrite Ef at 2. cbn [CasNum.pow_mod_loop].
  rewrite zero_cn, gt_cn. bind_step.
  change (0 <? 1)%Z with true. cbv iota.
  rewrite mod_cn by lia. bind_step.
  change (1 mod 2)%Z with 1%Z. rewrite one_cn, isEqual_cn.
  change (1 =? 1)%Z with true. cbv iota.
  rewrite mul_cn by lia. bind_step. rewrite Z.mul_1_l.
  rewrite gt_cn. bind_step. rewrite Z.ltb_irrefl. bind_step.
  rewrite mul_cn by lia. bind_step. rewrite gt_cn. bind_step.
  assert (Eb : (if (n <? n * n)%Z
                then CasNum.mod_ fuel (cn (n * n)) (cn n)
                else Ok (cn (n * n)))
               = Ok (cn (if (n <? n * n)%Z then (n * n) mod n else n * n)%Z)).
  { destruct (n <? n * n)%Z; [| reflexivity]. apply mod_cn; lia. }
  rewrite Eb. bind_step.
  rewrite rshift1_cn by lia. bind_step.
  change (1 / 2)%Z with 0%Z.
  rewrite gt_cn. bind_step. reflexivity.
Qed.

(** * The behaviour of the code, function by function *)

(** ** Arithmetic on the x-axis *)

(** X1: [a + b] of two numbers on the x-axis is their exact sum, for
    all reals: no branch of [__add__] goes through a tolerance test. *)
Theorem add_exact_on_x_axis (a b : R) :
  CasNum.add (cnR a) (cnR b) = Ok (cnR (a + b)).
Proof. exact (add_cnR a b). Qed.

(** X2: [a - b] is the exact difference, for all reals. *)
Theorem sub_exact_on_x_axis (a b : R) :
  CasNum.sub (cnR a) (cnR b) = Ok (cnR (a - b)).
Proof. exact (sub_cnR a b). Qed.

(** ** Integers *)

(** X22: [CasNum.get_n n] is the number [n], for every integer,
    negative ones included. *)
Theorem get_n_represents (n : Z) : CasNum.get_n n = Ok (cn n).
Proof. exact (get_n_cn n). Qed.

Lemma from_num_represents_witness :
  (0 <= 3)%Z /\ CasNum.from_num 3 = Ok (cn 3).
Proof.
  split; [lia | apply (from_num_represents 3); lia].
Defined.

(** X24: [double_until_gt(a, one)] returns the least power of two that
    is no smaller than [a] (and 1 for [a <= 1]). *)
Theorem double_until_gt_least_power_of_two (fuel : nat) (x : Z) :
  (Z.abs x < Z.of_nat fuel)%Z ->
  CasNum.double_until_gt fuel (cn x) CasNum.one true
  = Ok (cn (2 ^ Z.log2_up x)).
Proof. exact (double_until_gt_one fuel x). Qed.

Lemma double_until_gt_least_power_of_two_witness :
  (Z.abs 5 < Z.of_nat 6)%Z
  /\ CasNum.double_until_gt 6 (cn 5) CasNum.one true = Ok (cn (2 ^ Z.log2_up 5)).
Proof.
  split; [lia | apply (double_until_gt_least_power_of_two 6 5); lia].
Defined.

(** X9: [a % b] on integers is the floor modulo of Python, with the
    sign of the divisor, for every non-zero [b]. *)
Theorem mod_is_floor_modulo (fuel : nat) (a b : Z) :
  b <> 0%Z -> (Z.abs a < Z.of_nat fuel)%Z ->
  CasNum.mod_ fuel (cn a) (cn b) = Ok (cn (a mod b)).
Proof. exact (mod_cn fuel a b). Qed.

Lemma mod_is_floor_modulo_witness :
  (-3)%Z <> 0%Z /\ (Z.abs 7 < Z.of_nat 8)%Z
  /\ CasNum.mod_ 8 (cn 7) (cn (-3)) = Ok (cn (7 mod -3)).
Proof.
  split; [lia | split; [lia | apply (mod_is_floor_modulo 8 7 (-3)); lia]].
Defined.

(** X19: [a >> i] on an integer is the arithmetic shift, rounding
    down also for negative [a]. *)
Theorem rshift_is_shiftr (fuel : nat) (a i : Z) :
  (Z.abs a < Z.of_nat fuel)%Z ->
  CasNum.rshift fuel (cn a) i = Ok (cn (Z.shiftr a (Z.max 0 i))).
Proof. exact (rshift_cn fuel a i). Qed.

Lemma rshift_is_shiftr_witness :
  (Z.abs (-7) < Z.of_nat 8)%Z
  /\ CasNum.rshift 8 (cn (-7)) 2 = Ok (cn (Z.shiftr (-7) (Z.max 0 2))).
Proof.
  split; [lia | apply (rshift_is_shiftr 8 (-7) 2); lia].
Defined.

Lemma gcd_is_gcd_witness :
  (Z.abs 12 < Z.of_nat 20)%Z /\ (Z.abs (-18) < Z.of_nat 20)%Z
  /\ CasNum.gcd 20 (cn 12) (cn (-18)) = Ok (cn (Z.gcd 12 (-18))).
Proof.
  split; [lia | split; [lia | apply (gcd_is_gcd 20 12 (-18)); lia]].
Defined.

(** ** Multiplication, division, powers and roots on integers *)



(** X4: [a / b] on integers is the exact quotient, a rational
    point of the x-axis, for a non-zero divisor and a^2 + b^2 <= 10^20. *)
Theorem truediv_is_quotient (a b : Z) :
  b <> 0%Z -> (a * a + b * b <= 10 ^ 20)%Z ->
  CasNum.truediv (cn a) (cn b) = Ok (cnR (IZR a / IZR b)).
Proof. exact (truediv_cn a b). Qed.

Lemma truediv_is_quotient_witness :
  (-2)%Z <> 0%Z /\ (7 * 7 + -2 * -2 <= 10 ^ 20)%Z
  /\ CasNum.truediv (cn 7) (cn (-2)) = Ok (cnR (IZR 7 / IZR (-2))).
Proof.
  split; [lia | split; [lia | apply (truediv_is_quotient 7 (-2)); lia]].
Defined.

(** X5: [a // b] on integers is the floor division of Python,
    rounding towards minus infinity for operands of any sign. *)
Theorem floordiv_is_floor_division (fuel : nat) (a b : Z) :
  b <> 0%Z -> (Z.abs a <= 10 ^ 9)%Z -> (Z.abs b <= 10 ^ 9)%Z ->
  (Z.abs a < Z.of_nat fuel)%Z ->
  CasNum.floordiv fuel (cn a) (cn b) = Ok (cn (a / b)).
Proof. exact (floordiv_cn fuel a b). Qed.

Lemma floordiv_is_floor_division_witness :
  2%Z <> 0%Z /\ (Z.abs (-7) <= 10 ^ 9)%Z /\ (Z.abs 2 <= 10 ^ 9)%Z
  /\ (Z.abs (-7) < Z.of_nat 8)%Z
  /\ CasNum.floordiv 8 (cn (-7)) (cn 2) = Ok (cn (-7 / 2)).
Proof.
  split; [lia | split; [lia | split; [lia | split; [lia |]]]].
  apply (floordiv_is_floor_division 8 (-7) 2); lia.
Defined.

Lemma euclidean_identity_witness :
  (q <- CasNum.floordiv 8 (cn (-7)) (cn 2) ;;
   qb <- CasNum.mul q (cn 2) ;;
   r <- CasNum.mod_ 8 (cn (-7)) (cn 2) ;;
   CasNum.add qb r) = Ok (cn (-7)).
Proof.
  apply (euclidean_identity 8 (-7) 2); lia.
Defined.

Lemma pow_is_power_witness :
  CasNum.pow 11 (cn (-2)) (cn 10) = Ok (cn ((-2) ^ 10)).
Proof.
  apply (pow_is_power 11 (-2) 10); [lia | lia |].
  apply Z.leb_le. reflexivity.
Defined.

(** X8: [sqrt] of a positive integer is its real square root, also
    when it is irrational. *)
Theorem sqrt_is_square_root (s : Z) :
  (1 <= s <= 10 ^ 9)%Z -> CasNum.sqrt (cn s) = Ok (cnR (sqrt (IZR s))).
Proof. exact (sqrt_cn s). Qed.

Lemma sqrt_is_square_root_witness :
  (1 <= 2 <= 10 ^ 9)%Z /\ CasNum.sqrt (cn 2) = Ok (cnR (sqrt (IZR 2))).
Proof.
  split; [lia | apply (sqrt_is_square_root 2); lia].
Defined.

(** ** Number theory *)

Lemma pow_mod_is_modular_power_witness :
  exists r : Z,
    CasNum.pow_mod 50 (cn 3) (cn 4) (cn 7) = Ok (cn r)
    /\ (0 <= r <= 7)%Z /\ (r mod 7 = 3 ^ 4 mod 7)%Z.
Proof.
  apply (pow_mod_is_modular_power 50 3 4 7); lia.
Defined.

Lemma pow_mod_modulus_not_reduced_witness :
  CasNum.pow_mod 50 (cn 5) (cn 1) (cn 5) = Ok (cn 5)
  /\ (5 ^ 1 mod 5 = 0)%Z.
Proof.
  apply (pow_mod_modulus_not_reduced 50 5); lia.
Defined.

Lemma inv_mod_is_modular_inverse_witness :
  exists r : Z,
    (0 <= r < 7)%Z /\ ((r * 3) mod 7 = Z.gcd 3 7 mod 7)%Z
    /\ CasNum.inv_mod 8 (cn 3) (cn 7)
       = Ok (if (Z.gcd 3 7 =? 1)%Z then Some (cn r) else None).
Proof.
  apply (inv_mod_is_modular_inverse 8 3 7); lia.
Defined.

Lemma is_prime_decides_primality_witness :
  exists b : bool,
    CasNum.is_prime 9 (cn 7) = Ok b /\ (b = true <-> Z.prime 7).
Proof.
  apply (is_prime_decides_primality 9 7); lia.
Defined.

(** ** Bitwise operators *)

Lemma fits_m6_5 : fits (-6) 5.
Proof. intros _. split; reflexivity. Defined.

Lemma xor_is_lxor_witness :
  (2 * Z.abs (-6) < Z.of_nat 20)%Z /\ (2 * Z.abs 5 < Z.of_nat 20)%Z
  /\ fits (-6) 5
  /\ CasNum.xor_ 20 (cn (-6)) (cn 5) = Ok (cn (Z.lxor (-6) 5)).
Proof.
  split; [lia | split; [lia | split; [exact fits_m6_5 |]]].
  apply (xor_is_lxor 20 (-6) 5); [lia | lia | exact fits_m6_5].
Defined.

Lemma and_is_land_witness :
  (2 * Z.abs (-6) < Z.of_nat 20)%Z /\ (2 * Z.abs 5 < Z.of_nat 20)%Z
  /\ fits (-6) 5
  /\ CasNum.and_ 20 (cn (-6)) (cn 5) = Ok (cn (Z.land (-6) 5)).
Proof.
  split; [lia | split; [lia | split; [exact fits_m6_5 |]]].
  apply (and_is_land 20 (-6) 5); [lia | lia | exact fits_m6_5].
Defined.

Lemma or_is_lor_witness :
  (2 * Z.abs (-6) < Z.of_nat 20)%Z /\ (2 * Z.abs 5 < Z.of_nat 20)%Z
  /\ fits (-6) 5
  /\ CasNum.or_ 20 (cn (-6)) (cn 5) = Ok (cn (Z.lor (-6) 5)).
Proof.
  split; [lia | split; [lia | split; [exact fits_m6_5 |]]].
  apply (or_is_lor 20 (-6) 5); [lia | lia | exact fits_m6_5].
Defined.

Lemma xor_power_of_two_against_negative_witness :
  (0 <= 2)%Z /\ (- 2 ^ 2 <= -4 < 0)%Z /\ (2 * 2 ^ 2 < Z.of_nat 9)%Z
  /\ CasNum.xor_ 9 (cn (2 ^ 2)) (cn (-4)) = Ok (cn (-4 + 2 ^ 2))
  /\ Z.lxor (2 ^ 2) (-4) = (-4 - 2 ^ 2)%Z.
Proof.
  split; [lia | split; [lia | split; [lia |]]].
  apply (xor_power_of_two_against_negative 9 2 (-4)); lia.
Defined.

Lemma get_nth_bit_is_testbit_witness :
  (0 <= 6 < Z.of_nat 7)%Z /\ (0 <= 1)%Z
  /\ CasNum.get_nth_bit 7 (cn 6) 1 = Ok (cn (Z.b2z (Z.testbit 6 1))).
Proof.
  split; [lia | split; [lia | apply (get_nth_bit_is_testbit 7 6 1); lia]].
Defined.

(** ** Constructions *)







(** ** Intersections *)



(** X28: a line that is neither horizontal nor vertical and meets the
    circle in two points: [intersect_with_line] returns both, the one with
    the smaller abscissa first. *)
Theorem circle_line_two_points
  (ca cb cc cd a b c d X1 Y1 X2 Y2 : R) :
  a <> c -> b <> d -> X1 < X2 ->
  Y1 = (d - b) / (c - a) * X1 + (b - (d - b) / (c - a) * a) ->
  Y2 = (d - b) / (c - a) * X2 + (b - (d - b) / (c - a) * a) ->
  (X1 - ca) * (X1 - ca) + (Y1 - cb) * (Y1 - cb)
  = (ca - cc) * (ca - cc) + (cb - cd) * (cb - cd) ->
  (X2 - ca) * (X2 - ca) + (Y2 - cb) * (Y2 - cb)
  = (ca - cc) * (ca - cc) + (cb - cd) * (cb - cd) ->
  Circle.intersect_with_line (circle_of ca cb cc cd) (line_of a b c d)
  = Ok [pt X1 Y1; pt X2 Y2].
Proof. exact (iwl_general ca cb cc cd a b c d X1 Y1 X2 Y2). Qed.

Lemma circle_line_two_points_witness :
  Circle.intersect_with_line (circle_of 0 0 5 0) (line_of (-4) (-3) 3 4)
  = Ok [pt (-4) (-3); pt 3 4].
Proof.
  apply (circle_line_two_points 0 0 5 0 (-4) (-3) 3 4 (-4) (-3) 3 4); lra.
Defined.





